(** * LinkedIn keyword monitor: search, deduplication and capture

    A shallow embedding of [src/config.py], [src/search.py] and
    [src/screenshot.py].  Python [str] is [string]; Python [int] is [Z]
    (counters that only grow from zero are [nat]); a [dict] whose iteration
    order is observed is an insertion-ordered association list, a [dict]
    that is only looked up is a [gmap]; the [set] of seen URLs is a [gset].
    Everything outside the process (the search provider, the clock, the
    browser, the file system) is an oracle over an abstract world, and the
    functions that talk to it live in a state-and-exception monad that also
    records what was logged and which calls went out. *)

From Stdlib Require Import ZArith Ascii String List Lia.
From stdpp Require Import base strings gmap list pretty.

Local Open Scope string_scope.
Local Open Scope list_scope.
Set Warnings "-clear-no-such-hyp".

(* ===================================================================== *)
(** ** Python string operations *)
(* ===================================================================== *)

Module PyStr.

(** The double quote character, written by its code. *)
Definition dquote : ascii := "034"%char.
Definition qmark : ascii := "?"%char.

(** [s.startswith(p)] *)
Fixpoint startswith (p s : string) : bool :=
  match p, s with
  | EmptyString, _ => true
  | String a p', String b s' => if Ascii.eqb a b then startswith p' s' else false
  | String _ _, EmptyString => false
  end.

(** [sub in s] *)
Fixpoint contains (sub s : string) : bool :=
  match s with
  | EmptyString => startswith sub EmptyString
  | String _ s' => startswith sub s || contains sub s'
  end.

(** [c in s] for a single character. *)
Fixpoint has_char (c : ascii) (s : string) : bool :=
  match s with
  | EmptyString => false
  | String a s' => Ascii.eqb a c || has_char c s'
  end.

(** [s.split(c)[0]] for a one-character separator: everything before the
    first [c], or all of [s] when [c] does not occur. *)
Fixpoint split_head (c : ascii) (s : string) : string :=
  match s with
  | EmptyString => EmptyString
  | String a s' => if Ascii.eqb a c then EmptyString else String a (split_head c s')
  end.

(** [sep.join(parts)] *)
Fixpoint join (sep : string) (parts : list string) : string :=
  match parts with
  | [] => ""
  | [p] => p
  | p :: rest => p +:+ sep +:+ join sep rest
  end.

(** A string holds the UTF-8 bytes of Python's text.  A byte of the form
    10xxxxxx continues the code point that began before it. *)
Definition is_continuation (c : ascii) : bool :=
  match c with
  | Ascii _ _ _ _ _ _ false true => true
  | _ => false
  end.

(** [len(s)]: the number of code points. *)
Fixpoint len (s : string) : nat :=
  match s with
  | EmptyString => 0
  | String a s' => if is_continuation a then len s' else S (len s')
  end.

(** [s[:n]]: the first [n] code points. *)
Fixpoint slice_to (n : nat) (s : string) : string :=
  match s with
  | EmptyString => EmptyString
  | String a s' =>
      if is_continuation a then String a (slice_to n s')
      else match n with
           | O => EmptyString
           | S n' => String a (slice_to n' s')
           end
  end.

(** [s.endswith(c)] for a single character. *)
Fixpoint ends_with_char (c : ascii) (s : string) : bool :=
  match s with
  | EmptyString => false
  | String a EmptyString => Ascii.eqb a c
  | String _ s' => ends_with_char c s'
  end.

(** [f"{n:03d}"] for a non-negative [n]: decimal, left-padded with zeros
    to a minimum width of three. *)
Definition format_03d (n : nat) : string :=
  let digits := pretty n in
  String.concat "" (replicate (3 - String.length digits) "0") +:+ digits.

(** [os.path.join(a, b)] on a POSIX system. *)
Definition path_join (a b : string) : string :=
  if startswith "/" b then b
  else if String.eqb a "" then b
  else if ends_with_char "/"%char a then a +:+ b
  else a +:+ "/" +:+ b.

(** Substring as a proposition, the meaning of [contains]. *)
Definition Substring (sub s : string) : Prop :=
  exists pre post, s = pre +:+ sub +:+ post.

End PyStr.

(* ===================================================================== *)
(** ** Insertion-ordered dictionaries *)
(* ===================================================================== *)

Module PyDict.
Section Dict.
Context {V : Type}.

Definition t := list (string * V).

(** [d.get(k)] / [d[k]] *)
Fixpoint get (k : string) (d : t) : option V :=
  match d with
  | [] => None
  | (k', v) :: d' => if String.eqb k k' then Some v else get k d'
  end.

(** [k in d] *)
Definition mem (k : string) (d : t) : bool :=
  match get k d with Some _ => true | None => false end.

(** [d[k] = v]: an existing key keeps its position and takes the new
    value, a new key goes to the end. *)
Fixpoint set (k : string) (v : V) (d : t) : t :=
  match d with
  | [] => [(k, v)]
  | (k', v') :: d' =>
      if String.eqb k k' then (k', v) :: d' else (k', v') :: set k v d'
  end.

Definition keys (d : t) : list string := map fst d.
Definition values (d : t) : list V := map snd d.
End Dict.
Arguments t : clear implicits.
End PyDict.

(* ===================================================================== *)
(** ** config.py *)
(* ===================================================================== *)

Module Config.
Import PyStr.

Definition KEYWORD_CATEGORIES : PyDict.t (list string) :=
  [ ("Cell/Battery Tester",
      [ "Battery Tester"; "Battery Cycler"; "Battery Capacity Tester";
        "Battery Aging Machine"; "Battery Charger-Discharger";
        "Computer Operated Battery Cycler"; "Computer Operated Battery Tester";
        "Cell Tester"; "Cell Cycler"; "Cell Capacity Tester";
        "Cell Aging Machine"; "Cell Charger Discharger";
        "Computer Operated Cell Cycler"; "Computer Operated Cell Tester";
        "Cell Grading Machine" ]);
    ("BESS",
      [ "BESS"; "Battery Energy Storage System"; "GWH battery";
        "Battery Pack Assembly Plant"; "BESS Manufacturing Plant";
        "Power Conversion System"; "PCS battery"; "C&I BESS"; "C&I ESS";
        "ESS for Data Centers" ]);
    ("Cell Assembly Line",
      [ "Lithium ion cell assembly line"; "Battery cell manufacturing";
        "Pouch cell line"; "Cylindrical cell line"; "Prismatic cell assembly";
        "Battery formation ageing"; "Cell formation system";
        "Formation testing equipment"; "Environmental chamber battery";
        "Advanced chemistry cell manufacturing"; "Cell Manufacturing Plant" ]);
    ("Cell Chemistries",
      [ "Sodium Ion battery"; "Metal Air battery"; "Aluminum Air battery";
        "Sodium Silicate battery"; "Agnostic Chemistry battery";
        "Lead Acid battery"; "Ni Cd battery"; "Nickel Cadmium battery" ]);
    ("Competition",
      [ "RePower battery"; "Neware battery"; "Chroma battery tester";
        "Bitrode battery"; "Arbin battery"; "ACEY battery"; "Sinexcel";
        "Nebula Electronics battery"; "SEMCO battery";
        "DNA Technologies battery"; "Encore Systems battery";
        "Indygreen Technologies" ]) ].

Record SearchConfig := {
  serpapi_key : string;
  max_results_per_category : Z;
  recency_days : Z;
  time_filter : string;
  site_filter : string;
}.

(** [SearchConfig()]: every field at its default; the key is read from
    the environment variable SERPAPI_KEY, empty when unset. *)
Definition SearchConfig_default (environ : gmap string string) : SearchConfig :=
  {| serpapi_key := default "" (environ !! "SERPAPI_KEY");
     max_results_per_category := 10;
     recency_days := 7;
     time_filter := "qdr:w";
     site_filter := "site:linkedin.com/posts OR site:linkedin.com/feed/update" |}.

Definition with_site_filter (sf : string) (c : SearchConfig) : SearchConfig :=
  {| serpapi_key := serpapi_key c;
     max_results_per_category := max_results_per_category c;
     recency_days := recency_days c;
     time_filter := time_filter c;
     site_filter := sf |}.

Record ScreenshotConfig := {
  viewport_width : Z;
  viewport_height : Z;
  wait_seconds : Z;
  timeout_seconds : Z;
  output_dir : string;
}.

(** [ScreenshotConfig()]; [project_dir] is the directory two levels above
    config.py. *)
Definition ScreenshotConfig_default (project_dir : string) : ScreenshotConfig :=
  {| viewport_width := 1280;
     viewport_height := 900;
     wait_seconds := 5;
     timeout_seconds := 30;
     output_dir := path_join project_dir "screenshots" |}.

(** [f'"{kw}"'] *)
Definition quote (kw : string) : string :=
  String dquote kw +:+ String dquote "".

Definition site_clause : string :=
  "(site:linkedin.com/posts OR site:linkedin.com/feed/update)".

Definition build_search_query (category : string) (keywords : list string) : string :=
  let quoted := map quote keywords in
  let keyword_clause := join " OR " quoted in
  "(" +:+ keyword_clause +:+ ") " +:+ site_clause.

End Config.

(* ===================================================================== *)
(** ** The outside world and the monad of effects *)
(* ===================================================================== *)

Module Effects.

(** A Python exception (an instance of [Exception]), kept as the text
    that [str(e)] gives. *)
Definition PyException := string.

Inductive Outcome (A : Type) : Type :=
| Returned (a : A)
| Raised (e : PyException).
Arguments Returned {A} a.
Arguments Raised {A} e.

Inductive Level := INFO | WARNING | ERROR.

(** The parameters of one SerpAPI request, as [search_category] fills
    them. *)
Record SerpParams := {
  engine : string;
  q : string;
  api_key : string;
  num : Z;
  tbs : string;
  hl : string;
  gl : string;
}.

(** One raw hit is a JSON object; the code reads its keys with
    [item.get]. *)
Abbreviation Item := (gmap string string).

(** The dictionary [search.get_dict()] returns; only the key
    organic_results is read, and it can be missing. *)
Record SerpResults := { organic_results : option (list Item) }.

(** The Playwright calls of [capture_screenshot], with their arguments;
    the first is the import of [playwright.async_api] at the head of the
    function. *)
Inductive PlaywrightCall :=
| ImportAsyncApi
| AsyncPlaywrightEnter
| ChromiumLaunch (headless : bool)
| NewContext (width height : Z) (user_agent : string)
| NewPage
| Goto (url wait_until : string) (timeout_ms : Z)
| WaitForTimeout (ms : Z)
| IsVisible (selector : string) (timeout_ms : Z)
| Click (selector : string)
| Screenshot (path : string) (full_page : bool)
| BrowserClose
| AsyncPlaywrightExit.

(** What a run leaves behind, in the order it happened: log records, the
    requests sent to the search provider, the browser calls with the way
    each one ended, and the directories asked for. *)
Inductive Event :=
| Logged (lvl : Level) (msg : string)
| Requested (p : SerpParams)
| Drove (c : PlaywrightCall) (o : Outcome bool)
| MadeDirs (path : string).

(** The collaborators of the pipeline.  Each call answers from the
    current world and yields the next one; a call can raise. *)
Class Externals (World : Type) := {
  environ : World -> gmap string string;
  project_dir : string;
  utcnow_isoformat : World -> string * World;
  serp_get_dict : SerpParams -> World -> Outcome SerpResults * World;
  playwright : PlaywrightCall -> World -> Outcome bool * World;
  os_makedirs : string -> World -> Outcome unit * World;
}.

Section Monad.
Context {World : Type} `{Externals World}.

Record State := { world : World; trace : list Event }.

Definition M (A : Type) : Type := State -> Outcome A * State.

Definition run {A} (m : M A) (st : State) : Outcome A * State := m st.

Definition ret {A} (a : A) : M A := fun st => (Returned a, st).

Definition bind {A B} (m : M A) (k : A -> M B) : M B :=
  fun st =>
    match m st with
    | (Returned a, st') => k a st'
    | (Raised e, st') => (Raised e, st')
    end.

Definition raise {A} (e : PyException) : M A := fun st => (Raised e, st).

(** [try: m  except Exception as e: ...]: the outcome of [m] as a
    value; nothing escapes. *)
Definition attempt {A} (m : M A) : M (Outcome A) :=
  fun st => let '(o, st') := m st in (Returned o, st').

Definition emit (ev : Event) : M unit :=
  fun st => (Returned tt, {| world := world st; trace := trace st ++ [ev] |}).

Definition log (lvl : Level) (msg : string) : M unit := emit (Logged lvl msg).

(** An oracle call: the world answers, and the call is recorded with its
    outcome. *)
Definition external {A} (ev : Outcome A -> Event) (f : World -> Outcome A * World)
    : M A :=
  fun st =>
    let '(o, w') := f (world st) in
    (o, {| world := w'; trace := trace st ++ [ev o] |}).

Definition utcnow : M string :=
  fun st => let '(s, w') := utcnow_isoformat (world st) in
            (Returned s, {| world := w'; trace := trace st |}).

Definition getenv : M (gmap string string) :=
  fun st => (Returned (environ (world st)), st).

End Monad.

Arguments State : clear implicits.

#[global] Instance M_ret {World} : MRet (@M World) := @ret World.
#[global] Instance M_bind {World} : MBind (@M World) :=
  fun A B k m => @bind World A B m k.

End Effects.

(* ===================================================================== *)
(** ** search.py *)
(* ===================================================================== *)

Module Search.
Import PyStr Config Effects.

Record SearchResult := {
  title : string;
  url : string;
  snippet : string;
  category : string;
  found_at : string;
}.

(** The dictionary [search_all_categories] returns. *)
Abbreviation ResultSet := (PyDict.t (list SearchResult)).

Definition _clean_linkedin_url (url : string) : string :=
  if contains "linkedin.com" url then split_head qmark url else url.

Section WithWorld.
Context {World : Type} `{Externals World}.

(** The loop [for item in organic] with its accumulator [parsed]. *)
Fixpoint parse_organic (category : string) (organic : list Item)
    (parsed : list SearchResult) : M (list SearchResult) :=
  match organic with
  | [] => mret parsed
  | item :: rest =>
      let url := _clean_linkedin_url (default "" (item !! "link")) in
      if negb (contains "linkedin.com" url) then
        parse_organic category rest parsed
      else
        now ← utcnow;
        parse_organic category rest
          (parsed ++ [ {| title := default "Untitled Post" (item !! "title");
                          url := url;
                          snippet := default "" (item !! "snippet");
                          category := category;
                          found_at := now |} ])
  end.

Definition search_params (query : string) (config : SearchConfig) : SerpParams :=
  {| engine := "google";
     q := query;
     api_key := serpapi_key config;
     num := max_results_per_category config;
     tbs := time_filter config;
     hl := "en";
     gl := "in" |}.

Definition search_category (category : string) (keywords : list string)
    (config : SearchConfig) : M (list SearchResult) :=
  let query := build_search_query category keywords in
  log INFO ("[" +:+ category +:+ "] Searching: " +:+ slice_to 120 query +:+ "...");;
  let params := search_params query config in
  r ← attempt (external (fun _ => Requested params) (serp_get_dict params));
  match r with
  | Raised e =>
      log ERROR ("[" +:+ category +:+ "] SerpAPI request failed: " +:+ e);;
      mret []
  | Returned results =>
      let organic := default [] (organic_results results) in
      log INFO ("[" +:+ category +:+ "] Found " +:+ pretty (length organic) +:+ " results");;
      parse_organic category organic []
  end.

(** The loop [for r in results] of the deduplication, with the running
    set of seen URLs and the accumulator [unique]. *)
Fixpoint dedup (results : list SearchResult) (seen_urls : gset string)
    (unique : list SearchResult) : gset string * list SearchResult :=
  match results with
  | [] => (seen_urls, unique)
  | r :: rest =>
      if decide (url r ∈ seen_urls) then dedup rest seen_urls unique
      else dedup rest ({[ url r ]} ∪ seen_urls) (unique ++ [r])
  end.

(** The loop [for cat_name in target_categories]. *)
Fixpoint category_loop (target_categories : list string) (config : SearchConfig)
    (all_results : ResultSet) (seen_urls : gset string)
    : M (ResultSet * gset string) :=
  match target_categories with
  | [] => mret (all_results, seen_urls)
  | cat_name :: rest =>
      match PyDict.get cat_name KEYWORD_CATEGORIES with
      | None =>
          log WARNING ("Unknown category: " +:+ cat_name +:+ ", skipping.");;
          category_loop rest config all_results seen_urls
      | Some keywords =>
          results ← search_category cat_name keywords config;
          let '(seen_urls', unique) := dedup results seen_urls [] in
          let all_results' := PyDict.set cat_name unique all_results in
          log INFO ("[" +:+ cat_name +:+ "] " +:+ pretty (length unique)
                    +:+ " unique results ("
                    +:+ pretty (length results - length unique)
                    +:+ " duplicates removed)");;
          category_loop rest config all_results' seen_urls'
      end
  end.

(** [sum(len(v) for v in all_results.values())] *)
Definition total_results (all_results : ResultSet) : nat :=
  list_sum (map (@length SearchResult) (PyDict.values all_results)).

Definition missing_key_diagnostic : string :=
  "SERPAPI_KEY not set. Export it as an environment variable.".

Definition search_all_categories (config : option SearchConfig)
    (categories : option (list string)) : M ResultSet :=
  config ← match config with
           | None => env ← getenv; mret (SearchConfig_default env)
           | Some c => mret c
           end;
  if String.eqb (serpapi_key config) "" then
    log ERROR missing_key_diagnostic;;
    mret []
  else
    (* [categories or list(KEYWORD_CATEGORIES.keys())]: an empty list
       is falsy, like None *)
    let target_categories :=
      match categories with
      | Some (c :: cs) => c :: cs
      | _ => PyDict.keys KEYWORD_CATEGORIES
      end in
    '(all_results, _) ← category_loop target_categories config [] ∅;
    let total := total_results all_results in
    log INFO ("Total unique results across all categories: " +:+ pretty total);;
    mret all_results.

End WithWorld.
End Search.

(* ===================================================================== *)
(** ** screenshot.py *)
(* ===================================================================== *)

Module Screenshot.
Import PyStr Config Effects Search.

Definition USER_AGENT : string :=
  "Mozilla/5.0 (Windows NT 10.0; Win64; x64) "
  +:+ "AppleWebKit/537.36 (KHTML, like Gecko) "
  +:+ "Chrome/120.0.0.0 Safari/537.36".

(** The selectors of the popups that are dismissed, in the order they are
    probed. *)
Definition DISMISS_SELECTORS : list string :=
  [ "button[aria-label=" +:+ quote "Dismiss" +:+ "]";
    "button.modal__dismiss";
    "[data-tracking-control-name=" +:+ quote "public_post_feed-secondary-cta" +:+ "]";
    "button.contextual-sign-in-modal__modal-dismiss-btn" ].

(** The dictionary [capture_all_screenshots] returns: a path, or [None]
    for a capture that failed. *)
Abbreviation CaptureOutcome := (gmap string (option string)).

Section WithWorld.
Context {World : Type} `{Externals World}.

Definition call (c : PlaywrightCall) : M bool :=
  external (Drove c) (playwright c).

(** The loop [for selector in [...]] that closes popups. *)
Fixpoint dismiss_popups (selectors : list string) : M unit :=
  match selectors with
  | [] => mret tt
  | selector :: rest =>
      visible ← call (IsVisible selector 2000);
      (if (visible : bool) then
         call (Click selector);;
         call (WaitForTimeout 500);;
         mret tt
       else mret tt : M unit);;
      dismiss_popups rest
  end.

(** [async with async_playwright() as p: body]: the exit runs on every
    way out of the body, then the body's outcome stands. *)
Definition with_async_playwright {A} (body : M A) : M A :=
  call AsyncPlaywrightEnter;;
  o ← attempt body;
  call AsyncPlaywrightExit;;
  match o with
  | Returned a => mret a
  | Raised e => raise e
  end.

(** The import at the head of the function stands outside the [try]:
    when it raises, the capture raises. *)
Definition capture_screenshot (url output_path : string)
    (config : ScreenshotConfig) : M bool :=
  call ImportAsyncApi;;
  o ← attempt
        (with_async_playwright
           (call (ChromiumLaunch true);;
            call (NewContext (viewport_width config) (viewport_height config)
                    USER_AGENT);;
            call NewPage;;
            call (Goto url "networkidle" (timeout_seconds config * 1000));;
            call (WaitForTimeout (wait_seconds config * 1000));;
            (* [try: ... except Exception: pass] around the whole loop *)
            attempt (dismiss_popups DISMISS_SELECTORS);;
            call (Screenshot output_path false);;
            call BrowserClose;;
            log INFO ("Screenshot saved: " +:+ output_path);;
            mret true));
  match o with
  | Returned b => mret b
  | Raised e =>
      log WARNING ("Failed to screenshot " +:+ url +:+ ": " +:+ e);;
      mret false
  end.

(** The inner loop [for post in posts]; [idx] is the running counter. *)
Fixpoint capture_posts (posts : list SearchResult) (config : ScreenshotConfig)
    (screenshots : CaptureOutcome) (idx : nat) : M (CaptureOutcome * nat) :=
  match posts with
  | [] => mret (screenshots, idx)
  | post :: rest =>
      let idx := S idx in
      let safe_name := "post_" +:+ format_03d idx +:+ ".png" in
      let output_path := path_join (output_dir config) safe_name in
      success ← capture_screenshot (url post) output_path config;
      let screenshots :=
        <[ url post := if (success : bool) then Some output_path else None ]> screenshots in
      capture_posts rest config screenshots idx
  end.

(** The outer loop [for category, posts in results.items()]. *)
Fixpoint capture_categories (results : ResultSet) (config : ScreenshotConfig)
    (screenshots : CaptureOutcome) (idx : nat) : M (CaptureOutcome * nat) :=
  match results with
  | [] => mret (screenshots, idx)
  | (category, posts) :: rest =>
      '(screenshots, idx) ← capture_posts posts config screenshots idx;
      capture_categories rest config screenshots idx
  end.

(** [sum(1 for v in screenshots.values() if v is not None)] *)
Definition captured_count (screenshots : CaptureOutcome) : nat :=
  length (filter (fun kv => is_Some (snd kv)) (map_to_list screenshots)).

Definition capture_all_screenshots (results : ResultSet)
    (config : option ScreenshotConfig) : M CaptureOutcome :=
  let config := default (ScreenshotConfig_default project_dir) config in
  external (fun _ => MadeDirs (output_dir config))
         (os_makedirs (output_dir config));;
  '(screenshots, _) ← capture_categories results config ∅ 0;
  let captured := captured_count screenshots in
  log INFO ("Screenshots captured: " +:+ pretty captured +:+ "/"
            +:+ pretty (size screenshots) +:+ " posts");;
  mret screenshots.

End WithWorld.
End Screenshot.

(* ===================================================================== *)
(** ** Vocabulary for the statements *)
(* ===================================================================== *)

Module Spec.
Import PyStr Config Effects Search Screenshot.

(** The link of a raw hit, as the parser reads it. *)
Definition link_of (item : Item) : string := default "" (item !! "link").

(** A link with its query-string portion removed. *)
Definition strip_query (link : string) : string := split_head qmark link.

(** Membership in the target site, decided the way the code decides it: the
    text linkedin.com occurs in the link. *)
Definition on_site (link : string) : bool := contains "linkedin.com" link.

(** The specification speaks of links that belong to the target site.
    Read as a statement about the host of the link, that is: the host, the
    text between the scheme separator and the next slash, question mark or
    hash, is linkedin.com or ends with .linkedin.com. *)
Fixpoint after_scheme (s : string) : string :=
  match s with
  | EmptyString => EmptyString
  | String _ s' =>
      if startswith "://" s then
        match s' with String _ (String _ rest) => rest | _ => EmptyString end
      else after_scheme s'
  end.

Fixpoint authority (s : string) : string :=
  match s with
  | EmptyString => EmptyString
  | String c s' =>
      if Ascii.eqb c "/" || Ascii.eqb c "?" || Ascii.eqb c "#" then EmptyString
      else String c (authority s')
  end.

Fixpoint endswith (suffix s : string) : bool :=
  String.eqb s suffix
  || match s with
     | EmptyString => false
     | String _ s' => endswith suffix s'
     end.

Definition host_of (link : string) : string := authority (after_scheme link).

Definition host_on_site (link : string) : bool :=
  String.eqb (host_of link) "linkedin.com" || endswith ".linkedin.com" (host_of link).

(** Every post of a ResultSet, in iteration order, and their URLs. *)
Definition all_posts (rs : ResultSet) : list SearchResult :=
  concat (map snd rs).

Definition all_urls (rs : ResultSet) : list string := url <$> all_posts rs.

Definition known (c : string) : bool := PyDict.mem c KEYWORD_CATEGORIES.

(** The provider requests among some events. *)
Definition requests_of (evs : list Event) : list SerpParams :=
  omap (fun ev => match ev with Requested p => Some p | _ => None end) evs.

(** The request [search_category] sends for a configured category. *)
Definition request_for (config : SearchConfig) (c : string) : option SerpParams :=
  match PyDict.get c KEYWORD_CATEGORIES with
  | Some keywords => Some (search_params (build_search_query c keywords) config)
  | None => None
  end.

(** The log records of [search_category]. *)
Definition searching_msg (category : string) (keywords : list string) : string :=
  "[" +:+ category +:+ "] Searching: "
  +:+ slice_to 120 (build_search_query category keywords) +:+ "...".

Definition failed_msg (category : string) (e : PyException) : string :=
  "[" +:+ category +:+ "] SerpAPI request failed: " +:+ e.

Definition found_msg (category : string) (n : nat) : string :=
  "[" +:+ category +:+ "] Found " +:+ pretty n +:+ " results".

Definition total_msg (rs : ResultSet) : string :=
  "Total unique results across all categories: " +:+ pretty (total_results rs).

(** An event other than the record of the missing key. *)
Definition quiet (ev : Event) : Prop := ev <> Logged ERROR missing_key_diagnostic.

(** [categories or list(KEYWORD_CATEGORIES.keys())] *)
Definition target_categories (categories : option (list string)) : list string :=
  match categories with
  | Some (c :: cs) => c :: cs
  | _ => PyDict.keys KEYWORD_CATEGORIES
  end.

(** What the deduplication loop maintains: no URL twice in the ResultSet,
    and every URL of the ResultSet in the running set. *)
Definition Deduplicated (all_results : ResultSet) (seen_urls : gset string) : Prop :=
  NoDup (all_urls all_results) /\ forall u, u ∈ all_urls all_results -> u ∈ seen_urls.

Definition after_log {World} (st : State World) (lvl : Level) (msg : string)
    : State World :=
  {| world := world st; trace := trace st ++ [Logged lvl msg] |}.

(** The deduplication of a run with the effects taken out: the raw lists
    in the order they came back, folded into the ResultSet. *)
Fixpoint merge (raws : list (string * list SearchResult)) (all_results : ResultSet)
    (seen_urls : gset string) : ResultSet * gset string :=
  match raws with
  | [] => (all_results, seen_urls)
  | (cat_name, results) :: rest =>
      let '(seen_urls', unique) := dedup results seen_urls [] in
      merge rest (PyDict.set cat_name unique all_results) seen_urls'
  end.

(** The file assigned to the post with counter [idx]. *)
Definition output_path (config : ScreenshotConfig) (idx : nat) : string :=
  path_join (output_dir config) ("post_" +:+ format_03d idx +:+ ".png").

(** The browser calls whose exceptions the popup loop swallows. *)
Definition tolerated (c : PlaywrightCall) : Prop :=
  match c with
  | IsVisible _ _ | Click _ => True
  | WaitForTimeout ms => ms = 500%Z
  | _ => False
  end.

(** An event that is not a raised browser call outside the popup loop. *)
Definition clean (ev : Event) : Prop :=
  match ev with
  | Drove c (Raised _) => tolerated c
  | _ => True
  end.

(** [screenshots[k] = v] for each pair of a list, in order. *)
Definition assign_all (entries : list (string * option string))
    (screenshots : CaptureOutcome) : CaptureOutcome :=
  foldl (fun m kv => <[ kv.1 := kv.2 ]> m) screenshots entries.

Section WithWorld.
Context {World : Type} `{Externals World}.

(** The configuration a call works with: the one given, or the defaults
    with the key of the environment. *)
Definition effective_config (config : option SearchConfig) (st : State World)
    : SearchConfig :=
  match config with
  | Some c => c
  | None => SearchConfig_default (environ (world st))
  end.

(** [Searched config targets st raws st']: going through [targets] from
    state [st], the searches of the configured names returned the lists
    [raws], in this order, and left the state [st']. *)
Inductive Searched (config : SearchConfig)
  : list string -> State World -> list (string * list SearchResult) -> State World -> Prop :=
| Searched_nil st : Searched config [] st [] st
| Searched_unknown c rest st raws st' :
    PyDict.get c KEYWORD_CATEGORIES = None ->
    Searched config rest
      (after_log st WARNING ("Unknown category: " +:+ c +:+ ", skipping.")) raws st' ->
    Searched config (c :: rest) st raws st'
| Searched_known c keywords rest st results st1 msg raws st' :
    PyDict.get c KEYWORD_CATEGORIES = Some keywords ->
    run (search_category c keywords config) st = (Returned results, st1) ->
    Searched config rest (after_log st1 INFO msg) raws st' ->
    Searched config (c :: rest) st ((c, results) :: raws) st'.

(** A computation all of whose events are clean, however it ends. *)
Definition harmless {A} (m : M A) : Prop :=
  forall st : State World,
    exists evs, trace (run m st).2 = trace st ++ evs /\ Forall clean evs.

(** A computation that can only return after clean events. *)
Definition careful {A} (m : M A) : Prop :=
  forall st : State World,
    exists evs, trace (run m st).2 = trace st ++ evs
                /\ forall a, (run m st).1 = Returned a -> Forall clean evs.

(** The configuration a batch of captures works with. *)
Definition effective_shots (config : option ScreenshotConfig) : ScreenshotConfig :=
  default (ScreenshotConfig_default project_dir) config.

(** A capture from its [try] on: what follows the import. *)
Definition guarded_capture (u output_path : string) (config : ScreenshotConfig)
    : M bool :=
  o ← attempt
        (with_async_playwright
           (call (ChromiumLaunch true);;
            call (NewContext (viewport_width config) (viewport_height config)
                    USER_AGENT);;
            call NewPage;;
            call (Goto u "networkidle" (timeout_seconds config * 1000));;
            call (WaitForTimeout (wait_seconds config * 1000));;
            attempt (dismiss_popups DISMISS_SELECTORS);;
            call (Screenshot output_path false);;
            call BrowserClose;;
            log INFO ("Screenshot saved: " +:+ output_path);;
            mret true));
  match o with
  | Returned b => mret b
  | Raised e =>
      log WARNING ("Failed to screenshot " +:+ u +:+ ": " +:+ e);;
      mret false
  end.

(** Playwright can be imported, whatever the state of the world. *)
Definition installed : Prop :=
  forall w : World, exists x, (playwright ImportAsyncApi w).1 = Returned x.

(** The state a capture is in once it has tried the import. *)
Definition after_import (st : State World) : State World :=
  {| world := (playwright ImportAsyncApi (world st)).2;
     trace := trace st
              ++ [Drove ImportAsyncApi (playwright ImportAsyncApi (world st)).1] |}.

(** The entry a capture leaves in the dictionary: the path when it returned
    True, the absence marker otherwise. *)
Definition entry_of (output_path : string) (r : Outcome bool * State World)
    : option string :=
  match r.1 with
  | Returned true => Some output_path
  | _ => None
  end.

(** The captures of a list of posts, one after the other from state [st]
    with the counter at [idx]: the entry each one leaves, and the state
    after the last. *)
Fixpoint attempts (posts : list SearchResult) (config : ScreenshotConfig)
    (idx : nat) (st : State World) : list (string * option string) * State World :=
  match posts with
  | [] => ([], st)
  | post :: rest =>
      let r := run (capture_screenshot (url post) (output_path config (S idx)) config) st in
      let later := attempts rest config (S idx) r.2 in
      ((url post, entry_of (output_path config (S idx)) r) :: later.1, later.2)
  end.

End WithWorld.
End Spec.

(* ===================================================================== *)
(** ** A scripted world for concrete runs *)
(* ===================================================================== *)

Module Scripted.
Import PyStr Config Effects Search Screenshot Spec.

(** The provider answers the requests, and the browser the calls, in the
    order they are made, from two prepared lists; when the provider list
    runs out the connection is refused, when the browser list runs out
    every call succeeds and no popup is visible.  Playwright is installed:
    the import succeeds and takes nothing from the lists. *)
Record Script := {
  env : gmap string string;
  replies : list (Outcome SerpResults);
  answers : list (Outcome bool);
}.

#[global] Instance scripted : Externals Script := {|
  environ w := env w;
  project_dir := "/srv/monitor";
  utcnow_isoformat w := ("2024-05-01T09:00:00", w);
  serp_get_dict _ w :=
    match replies w with
    | r :: rs => (r, {| env := env w; replies := rs; answers := answers w |})
    | [] => (Raised "connection refused", w)
    end;
  playwright c w :=
    match c, answers w with
    | ImportAsyncApi, _ => (Returned true, w)
    | _, a :: rest => (a, {| env := env w; replies := replies w; answers := rest |})
    | _, [] => (Returned false, w)
    end;
  os_makedirs _ w := (Returned tt, w);
|}.

(** The same machine without the playwright package: the import raises,
    everything else is as scripted. *)
Record Uninstalled := { machine : Script }.

Definition MISSING_MODULE : PyException := "No module named 'playwright'".

#[global] Instance uninstalled : Externals Uninstalled := {|
  environ u := env (machine u);
  project_dir := "/srv/monitor";
  utcnow_isoformat u := ("2024-05-01T09:00:00", u);
  serp_get_dict p u :=
    ((serp_get_dict p (machine u)).1, {| machine := (serp_get_dict p (machine u)).2 |});
  playwright c u :=
    match c with
    | ImportAsyncApi => (Raised MISSING_MODULE, u)
    | _ => ((playwright c (machine u)).1, {| machine := (playwright c (machine u)).2 |})
    end;
  os_makedirs _ u := (Returned tt, u);
|}.

Definition hit (link : string) : Item := {[ "link" := link ]}.

Definition found (links : list string) : Outcome SerpResults :=
  Returned {| organic_results := Some (hit <$> links) |}.

Definition start (w : Script) : State Script := {| world := w; trace := [] |}.

Definition with_key : SearchConfig :=
  {| serpapi_key := "0123abcd";
     max_results_per_category := 10;
     recency_days := 7;
     time_filter := "qdr:w";
     site_filter := "site:linkedin.com/posts OR site:linkedin.com/feed/update" |}.

Definition shots : ScreenshotConfig :=
  {| viewport_width := 1280;
     viewport_height := 900;
     wait_seconds := 5;
     timeout_seconds := 30;
     output_dir := "/srv/monitor/screenshots" |}.

Definition post (u : string) : SearchResult :=
  {| title := "Untitled Post"; url := u; snippet := ""; category := "BESS";
     found_at := "2024-05-01T09:00:00" |}.

(** The URLs a search returned. *)
Definition urls_found (r : Outcome (list SearchResult) * State Script)
    : option (list string) :=
  match r.1 with
  | Returned rs => Some (url <$> rs)
  | Raised _ => None
  end.

(** The URLs of a returned ResultSet, category by category. *)
Definition urls_by_category (r : Outcome ResultSet * State Script)
    : option (list (string * list string)) :=
  match r.1 with
  | Returned rs =>
      Some (map (fun kv : string * list SearchResult => (kv.1, url <$> kv.2)) rs)
  | Raised _ => None
  end.

Definition two_posts : ResultSet :=
  [("BESS", [post "https://www.linkedin.com/posts/one"]);
   ("Competition", [post "https://www.linkedin.com/posts/two"])].

Definition first_times_out : State Script :=
  start {| env := ∅; replies := [];
           answers := [Returned true; Returned true; Returned true; Returned true;
                       Raised "Timeout 30000ms exceeded."] |}.


Definition bess_keywords : list string :=
  default [] (PyDict.get "BESS" KEYWORD_CATEGORIES).

End Scripted.

(* ===================================================================== *)
(** ** email_sender.py, with [EmailConfig] of config.py *)
(* ===================================================================== *)

Module Mail.
Import PyStr Config Effects Search Screenshot.

Record EmailConfig := {
  smtp_server : string;
  smtp_port : Z;
  sender_email : string;
  sender_password : string;
  recipient_email : string;
  subject_prefix : string;
}.

(** [EmailConfig()]: the sender and the password come from GMAIL_ADDRESS and
    GMAIL_APP_PASSWORD, the recipient from RECIPIENT_EMAIL and, when that
    variable is not set, from GMAIL_ADDRESS. *)
Definition EmailConfig_default (environ : gmap string string) : EmailConfig :=
  {| smtp_server := "smtp.gmail.com";
     smtp_port := 587;
     sender_email := default "" (environ !! "GMAIL_ADDRESS");
     sender_password := default "" (environ !! "GMAIL_APP_PASSWORD");
     recipient_email :=
       default (default "" (environ !! "GMAIL_ADDRESS")) (environ !! "RECIPIENT_EMAIL");
     subject_prefix := "[ADOR Digatron] LinkedIn Keyword Monitor" |}.

(** The parts of the message, as [send_email] builds them: the HTML body, an
    inline PNG with its Content-ID and file name, a base64 attachment with
    its file name. *)
Inductive Part :=
| MIMEText (text subtype : string)
| MIMEImage (data subtype content_id filename : string)
| MIMEBase (data filename : string).

Record Message := {
  msg_from : string;
  msg_to : string;
  msg_subject : string;
  msg_parts : list Part;
}.

(** What smtplib can raise, by the class the handlers of [send_email] and of
    the SMTP context manager tell apart. *)
Inductive SmtpError :=
| SMTPAuthenticationError (text : string)
| SMTPServerDisconnected (text : string)
| OtherException (text : string).

Definition error_text (e : SmtpError) : string :=
  match e with
  | SMTPAuthenticationError t | SMTPServerDisconnected t | OtherException t => t
  end.

Inductive SmtpCall :=
| Connect (server : string) (port : Z)
| Ehlo
| Starttls
| Login (user password : string)
| Sendmail (from_addr to_addr : string) (msg : Message)
| Quit.

(** What the delivery side of a run leaves behind: lines printed, files
    read, SMTP commands with their outcome. *)
Inductive Effect :=
| Printed (text : string)
| ReadFile (path : string) (o : Outcome string)
| Smtp (c : SmtpCall) (r : option SmtpError).

(** The further collaborators of the delivery side: the clock with a format,
    the file system, the SMTP server, and two library functions that only
    format their argument. *)
Class Office (World : Type) := {
  utcnow_strftime : string -> World -> string * World;
  os_path_exists : string -> World -> bool;
  read_binary : string -> World -> Outcome string * World;
  smtplib : SmtpCall -> World -> option SmtpError * World;
  repr_list : list string -> string;
  json_dumps : list (string * list (string * string * string)) -> string;
}.

(** A world together with the journal of its delivery side. *)
Record Desk (World : Type) := { office : World; journal : list Effect }.
Arguments office {World} d.
Arguments journal {World} d.

(** The collaborators of the search and capture side act on the world of a
    desk and leave its journal alone. *)
Definition desk_externals {World : Type} `{Externals World} : Externals (Desk World) :=
  {| environ d := environ (office d);
     project_dir := project_dir;
     utcnow_isoformat d :=
       ((utcnow_isoformat (office d)).1,
        {| office := (utcnow_isoformat (office d)).2; journal := journal d |});
     serp_get_dict p d :=
       ((serp_get_dict p (office d)).1,
        {| office := (serp_get_dict p (office d)).2; journal := journal d |});
     playwright c d :=
       ((playwright c (office d)).1,
        {| office := (playwright c (office d)).2; journal := journal d |});
     os_makedirs path d :=
       ((os_makedirs path (office d)).1,
        {| office := (os_makedirs path (office d)).2; journal := journal d |}) |}.

(** The text with a double quote between every two consecutive pieces. *)
Definition dq (pieces : list string) : string := join (String dquote "") pieces.

(** [os.path.basename(p)]: what follows the last slash. *)
Fixpoint basename (p : string) : string :=
  match p with
  | EmptyString => EmptyString
  | String _ p' => if has_char "/" p then basename p' else p
  end.

(** The page up to the number of posts: the style sheet and the header. *)
Definition PAGE_OPEN : string :=
  dq [ "
    <html>
    <head>
        <style>
            body {
                font-family: 'Segoe UI', Arial, sans-serif;
                background-color: #f4f4f4;
                margin: 0;
                padding: 20px;
            }
            .container {
                max-width: 800px;
                margin: 0 auto;
                background: #ffffff;
                border-radius: 12px;
                overflow: hidden;
                box-shadow: 0 2px 8px rgba(0,0,0,0.1);
            }
            .header {
                background: linear-gradient(135deg, #0077B5, #00A0DC);
                color: white;
                padding: 24px 32px;
            }
            .header h1 {
                margin: 0;
                font-size: 22px;
                font-weight: 600;
            }
            .header p {
                margin: 8px 0 0;
                opacity: 0.9;
                font-size: 14px;
            }
            .content {
                padding: 24px 32px;
            }
            .category {
                margin-bottom: 32px;
            }
            .category h2 {
                color: #0077B5;
                font-size: 18px;
                border-bottom: 2px solid #e8e8e8;
                padding-bottom: 8px;
                margin-bottom: 16px;
            }
            .post-card {
                border: 1px solid #e8e8e8;
                border-radius: 8px;
                margin-bottom: 16px;
                overflow: hidden;
            }
            .post-info {
                padding: 16px;
            }
            .post-title {
                font-size: 15px;
                font-weight: 600;
                color: #333;
                margin: 0 0 8px;
            }
            .post-title a {
                color: #0077B5;
                text-decoration: none;
            }
            .post-title a:hover {
                text-decoration: underline;
            }
            .post-snippet {
                font-size: 13px;
                color: #666;
                line-height: 1.5;
                margin: 0;
            }
            .post-screenshot {
                padding: 0 16px 16px;
            }
            .post-screenshot img {
                width: 100%;
                border-radius: 4px;
                border: 1px solid #e8e8e8;
            }
            .footer {
                background: #f9f9f9;
                padding: 16px 32px;
                text-align: center;
                color: #999;
                font-size: 12px;
            }
            .badge {
                display: inline-block;
                background: #e7f3ff;
                color: #0077B5;
                padding: 2px 10px;
                border-radius: 12px;
                font-size: 12px;
                font-weight: 600;
                margin-bottom: 8px;
            }
            .no-results {
                color: #999;
                font-style: italic;
                padding: 8px 0;
            }
        </style>
    </head>
    <body>
        <div class=";
       "container";
       ">
            <div class=";
       "header";
       ">
                <h1>🔍 LinkedIn Keyword Monitor</h1>
                <p>ADOR Digatron — " ].

Definition PAGE_FOUND_ON : string :=
  " posts found on ".

Definition CONTENT_OPEN : string :=
  dq [ "</p>
            </div>
            <div class=";
       "content";
       ">
    " ].

(** The paragraph of a digest without posts. *)
Definition NO_RESULTS : string :=
  dq [ "
            <p class=";
       "no-results";
       ">
                No new LinkedIn posts found matching your keywords this period.
                This can happen when posts are not publicly visible or 
                the search didn't return results for the current time window.
            </p>
        " ].

(** A category section around its name. *)
Definition CATEGORY_OPEN : string :=
  dq [ "
                <div class=";
       "category";
       ">
                    <h2>" ].

Definition CATEGORY_TITLE_CLOSE : string :=
  "</h2>
            ".

Definition NO_POSTS_IN_CATEGORY : string :=
  dq [ "<p class=";
       "no-results";
       ">No posts found in this category.</p>" ].

(** A post card around the category, the URL, the title and the snippet. *)
Definition CARD_OPEN : string :=
  dq [ "
                    <div class=";
       "post-card";
       ">
                        <div class=";
       "post-info";
       ">
                            <span class=";
       "badge";
       ">" ].

Definition CARD_HREF : string :=
  dq [ "</span>
                            <p class=";
       "post-title";
       ">
                                <a href=";
       "" ].

Definition CARD_TITLE : string :=
  dq [ "";
       " target=";
       "_blank";
       ">
                                    " ].

Definition CARD_SNIPPET : string :=
  dq [ "
                                </a>
                            </p>
                            <p class=";
       "post-snippet";
       ">" ].

Definition CARD_INFO_CLOSE : string :=
  "</p>
                        </div>
                    ".

(** The image of a post around its content id. *)
Definition SHOT_OPEN : string :=
  dq [ "
                        <div class=";
       "post-screenshot";
       ">
                            <img src=";
       "cid:" ].

Definition SHOT_CLOSE : string :=
  dq [ "";
       " alt=";
       "Post screenshot";
       " />
                        </div>
                        " ].

Definition DIV_CLOSE : string :=
  "</div>".

(** The footer and the end of the page. *)
Definition PAGE_CLOSE : string :=
  dq [ "
            </div>
            <div class=";
       "footer";
       ">
                Automated by LinkedIn Keyword Monitor for ADOR Digatron<br/>
                Powered by GitHub Actions • 
                <a href=";
       "https://adordigatron.com";
       " style=";
       "color: #0077B5;";
       ">
                    adordigatron.com
                </a>
            </div>
        </div>
    </body>
    </html>
    " ].

Section WithWorld.
Context {World : Type} `{Externals World} `{Office World}.
#[local] Existing Instance desk_externals.

(** An office call that cannot raise: the world of the desk answers, and the
    journal takes what [note] makes of the answer. *)
Definition consult {A} (note : A -> list Effect) (f : World -> A * World)
    : M (World := Desk World) A :=
  fun st =>
    let d := world st in
    (Returned (f (office d)).1,
     {| world := {| office := (f (office d)).2;
                    journal := journal d ++ note (f (office d)).1 |};
        trace := trace st |}).

(** [print(text)]; standard output takes any text. *)
Definition print (text : string) : M (World := Desk World) unit :=
  consult (fun _ => [Printed text]) (fun w => (tt, w)).

(** [datetime.utcnow().strftime(format)] *)
Definition strftime (format : string) : M (World := Desk World) string :=
  consult (fun _ => []) (utcnow_strftime format).

(** [os.path.exists(path)] *)
Definition exists_ (path : string) : M (World := Desk World) bool :=
  consult (fun _ => []) (fun w => (os_path_exists path w, w)).

(** One SMTP command; its failure comes back as a value. *)
Definition smtp (c : SmtpCall) : M (World := Desk World) (option SmtpError) :=
  consult (fun r => [Smtp c r]) (smtplib c).

(** [with open(path, "rb") as f: f.read()]; this one raises. *)
Definition open_read (path : string) : M (World := Desk World) string :=
  fun st =>
    let d := world st in
    ((read_binary path (office d)).1,
     {| world := {| office := (read_binary path (office d)).2;
                    journal := journal d ++ [ReadFile path (read_binary path (office d)).1] |};
        trace := trace st |}).

(** The loop [for post in posts] of the body, with the page so far, the
    inline images so far and the image counter. *)
Fixpoint render_posts (category : string) (posts : list SearchResult)
    (screenshots : CaptureOutcome) (html : string)
    (inline_images : list (string * string)) (img_idx : nat)
    : M (World := Desk World) (string * list (string * string) * nat) :=
  match posts with
  | [] => mret (html, inline_images, img_idx)
  | post :: rest =>
      let html := html +:+ (CARD_OPEN +:+ category +:+ CARD_HREF +:+ url post
                            +:+ CARD_TITLE +:+ title post +:+ CARD_SNIPPET
                            +:+ snippet post +:+ CARD_INFO_CLOSE) in
      (* [screenshots.get(post.url)]; None and the empty path are falsy *)
      let screenshot_path := default None (screenshots !! url post) in
      available ← match screenshot_path with
                  | Some path => if String.eqb path "" then mret false else exists_ path
                  | None => mret false
                  end;
      match screenshot_path, (available : bool) with
      | Some path, true =>
          let cid := "screenshot_" +:+ pretty img_idx in
          render_posts category rest screenshots
            ((html +:+ (SHOT_OPEN +:+ cid +:+ SHOT_CLOSE)) +:+ DIV_CLOSE)
            (inline_images ++ [(cid, path)]) (S img_idx)
      | _, _ =>
          render_posts category rest screenshots (html +:+ DIV_CLOSE)
            inline_images img_idx
      end
  end.

(** The loop [for category, posts in results.items()] of the body. *)
Fixpoint render_categories (results : ResultSet) (screenshots : CaptureOutcome)
    (html : string) (inline_images : list (string * string)) (img_idx : nat)
    : M (World := Desk World) (string * list (string * string) * nat) :=
  match results with
  | [] => mret (html, inline_images, img_idx)
  | (category, posts) :: rest =>
      let html := html +:+ (CATEGORY_OPEN +:+ category +:+ CATEGORY_TITLE_CLOSE) in
      '(html, inline_images, img_idx) ←
        match posts with
        | [] => mret (html +:+ NO_POSTS_IN_CATEGORY, inline_images, img_idx)
        | _ => render_posts category posts screenshots html inline_images img_idx
        end;
      render_categories rest screenshots (html +:+ DIV_CLOSE) inline_images img_idx
  end.

Definition _build_html_body (results : ResultSet) (screenshots : CaptureOutcome)
    : M (World := Desk World) (string * list (string * string)) :=
  let total_posts := total_results results in
  now ← strftime "%B %d, %Y";
  let html := PAGE_OPEN +:+ pretty total_posts +:+ PAGE_FOUND_ON +:+ now
              +:+ CONTENT_OPEN in
  '(html, inline_images, _) ←
    (if Nat.eqb total_posts 0 then mret (html +:+ NO_RESULTS, [], 0)
     else render_categories results screenshots html [] 0);
  mret (html +:+ PAGE_CLOSE, inline_images).

(** The first loop over the inline images: each file that can be read
    becomes an inline PNG; one that cannot costs a warning. *)
Fixpoint attach_inline (inline_images : list (string * string)) (parts : list Part)
    : M (World := Desk World) (list Part) :=
  match inline_images with
  | [] => mret parts
  | (cid, filepath) :: rest =>
      o ← attempt (open_read filepath);
      match o with
      | Returned data =>
          attach_inline rest
            (parts ++ [MIMEImage data "png" ("<" +:+ cid +:+ ">") (basename filepath)])
      | Raised e =>
          log WARNING ("Could not attach screenshot " +:+ filepath +:+ ": " +:+ e);;
          attach_inline rest parts
      end
  end.

(** The second loop: the same files again as attachments; one that cannot
    be read is passed over in silence. *)
Fixpoint attach_files (inline_images : list (string * string)) (parts : list Part)
    : M (World := Desk World) (list Part) :=
  match inline_images with
  | [] => mret parts
  | (cid, filepath) :: rest =>
      o ← attempt (open_read filepath);
      match o with
      | Returned data => attach_files rest (parts ++ [MIMEBase data (basename filepath)])
      | Raised _ => attach_files rest parts
      end
  end.

(** Two SMTP steps in a row: the second runs when the first did not fail. *)
Definition and_then (a b : M (World := Desk World) (option SmtpError))
    : M (World := Desk World) (option SmtpError) :=
  r ← a;
  match r with
  | None => b
  | Some e => mret (Some e)
  end.

(** [with smtplib.SMTP(server, port) as server: ...]: opening the connection
    can fail; once it is open the commands run up to the first failure and
    QUIT is sent on every way out.  A QUIT that finds the server gone is
    passed over, any other failure of QUIT is the failure of the block. *)
Definition smtp_session (config : EmailConfig) (msg : Message)
    : M (World := Desk World) (option SmtpError) :=
  opened ← smtp (Connect (smtp_server config) (smtp_port config));
  match opened with
  | Some e => mret (Some e)
  | None =>
      body ← and_then (smtp Ehlo)
               (and_then (smtp Starttls)
                  (and_then (smtp Ehlo)
                     (and_then (smtp (Login (sender_email config) (sender_password config)))
                        (smtp (Sendmail (sender_email config) (recipient_email config)
                                 msg)))));
      closed ← smtp Quit;
      match closed with
      | None | Some (SMTPServerDisconnected _) => mret body
      | Some e => mret (Some e)
      end
  end.

Definition NO_CREDENTIALS : string :=
  "Email credentials not configured. "
  +:+ "Set GMAIL_ADDRESS and GMAIL_APP_PASSWORD environment variables.".

Definition AUTH_FAILED : string :=
  "Gmail authentication failed. "
  +:+ "Make sure you're using an App Password (not your regular password). "
  +:+ "Enable 2FA on your Google account and create an App Password at: "
  +:+ "https://myaccount.google.com/apppasswords".

Definition send_email (results : ResultSet) (screenshots : CaptureOutcome)
    (config : option EmailConfig) : M (World := Desk World) bool :=
  config ← match config with
           | None => env ← getenv; mret (EmailConfig_default env)
           | Some c => mret c
           end;
  if String.eqb (sender_email config) "" || String.eqb (sender_password config) "" then
    log ERROR NO_CREDENTIALS;;
    mret false
  else if String.eqb (recipient_email config) "" then
    log ERROR "RECIPIENT_EMAIL not set.";;
    mret false
  else
    let total := total_results results in
    today ← strftime "%Y-%m-%d";
    let subject := subject_prefix config +:+ " — " +:+ pretty total
                   +:+ " posts found (" +:+ today +:+ ")" in
    '(html_body, inline_images) ← _build_html_body results screenshots;
    parts ← attach_inline inline_images [MIMEText html_body "html"];
    parts ← attach_files inline_images parts;
    let msg := {| msg_from := sender_email config;
                  msg_to := recipient_email config;
                  msg_subject := subject;
                  msg_parts := parts |} in
    log INFO ("Sending email to " +:+ recipient_email config +:+ "...");;
    r ← smtp_session config msg;
    match r with
    | None =>
        log INFO "Email sent successfully! ✅";;
        mret true
    | Some (SMTPAuthenticationError _) =>
        log ERROR AUTH_FAILED;;
        mret false
    | Some e =>
        log ERROR ("Failed to send email: " +:+ error_text e);;
        mret false
    end.

End WithWorld.
End Mail.

(* ===================================================================== *)
(** ** main.py *)
(* ===================================================================== *)

Module Main.
Import PyStr Config Effects Search Screenshot Mail.

(** The namespace [parse_args] returns. *)
Record Args := {
  categories : option (list string);
  dry_run : bool;
  no_screenshots : bool;
  max_results : Z;
  time_filter_arg : string;
}.

Definition NL : string := String "010"%char "".

(** [s * n] *)
Definition times (s : string) (n : nat) : string := String.concat "" (replicate n s).

(** [f"{n:>3}"]: decimal, right-aligned in a width of three. *)
Definition format_r3 (n : nat) : string :=
  times " " (3 - String.length (pretty n)) +:+ pretty n.

(** [str(b)] *)
Definition str_bool (b : bool) : string := if b then "True" else "False".

Section WithWorld.
Context {World : Type} `{Externals World} `{Office World}.
#[local] Existing Instance desk_externals.

(** The loop [for i, post in enumerate(posts, 1)] of the summary. *)
Fixpoint print_posts (posts : list SearchResult) (i : nat)
    : M (World := Desk World) unit :=
  match posts with
  | [] => mret tt
  | post :: rest =>
      print ("  " +:+ format_r3 i +:+ ". " +:+ slice_to 60 (title post));;
      print ("       🔗 " +:+ url post);;
      (if String.eqb (snippet post) "" then mret tt
       else
         let snippet :=
           slice_to 100 (snippet post)
           +:+ (if Nat.ltb 100 (len (snippet post)) then "..." else "") in
         print ("       💬 " +:+ snippet));;
      print "";;
      print_posts rest (S i)
  end.

(** The loop [for category, posts in results.items()] of the summary. *)
Fixpoint print_categories (results : ResultSet) : M (World := Desk World) unit :=
  match results with
  | [] => mret tt
  | (category, posts) :: rest =>
      print (NL +:+ "  📁 " +:+ category +:+ " (" +:+ pretty (length posts) +:+ " posts)");;
      print ("  " +:+ times "-" 50);;
      (match posts with
       | [] => print "     No posts found."
       | _ => mret tt
       end);;
      print_posts posts 1;;
      print_categories rest
  end.

Definition print_results_summary (results : ResultSet) : M (World := Desk World) unit :=
  let total := total_results results in
  print (NL +:+ times "=" 70);;
  print ("  📊 LinkedIn Keyword Monitor — " +:+ pretty total +:+ " posts found");;
  now ← strftime "%B %d, %Y at %H:%M UTC";
  print ("  📅 " +:+ now);;
  print (times "=" 70);;
  print_categories results.

(** The dictionary the dry run prints: title, URL and snippet of every post,
    category by category. *)
Definition json_results (results : ResultSet)
    : list (string * list (string * string * string)) :=
  map (fun kv => (kv.1, map (fun p => (title p, url p, snippet p)) kv.2)) results.

Definition main_async (args : Args) : M (World := Desk World) Z :=
  log INFO "🚀 LinkedIn Keyword Monitor starting...";;
  log INFO ("   Categories: " +:+ match categories args with
                                   | Some (c :: cs) => repr_list (c :: cs)
                                   | _ => "ALL"
                                   end);;
  log INFO ("   Dry run: " +:+ str_bool (dry_run args));;
  log INFO ("   Screenshots: "
            +:+ str_bool (negb (no_screenshots args) && negb (dry_run args)));;
  log INFO (times "=" 50);;
  log INFO "STEP 1/3 — Searching Google for LinkedIn posts...";;
  log INFO (times "=" 50);;
  env ← getenv;
  let search_config :=
    {| serpapi_key := serpapi_key (SearchConfig_default env);
       max_results_per_category := max_results args;
       recency_days := recency_days (SearchConfig_default env);
       time_filter := time_filter_arg args;
       site_filter := site_filter (SearchConfig_default env) |} in
  results ← search_all_categories (Some search_config) (categories args);
  let total := total_results results in
  if Nat.eqb total 0 then
    log WARNING "No posts found. Exiting.";;
    print_results_summary results;;
    mret 0%Z
  else
    print_results_summary results;;
    if dry_run args then
      log INFO "Dry-run mode — skipping screenshots and email.";;
      print (NL +:+ "📄 JSON Output:");;
      print (json_dumps (json_results results));;
      mret 0%Z
    else
      screenshots ←
        (if no_screenshots args then
           log INFO "Skipping screenshots (--no-screenshots flag).";;
           mret (∅ : CaptureOutcome)
         else
           log INFO (times "=" 50);;
           log INFO "STEP 2/3 — Capturing screenshots...";;
           log INFO (times "=" 50);;
           capture_all_screenshots results
             (Some (ScreenshotConfig_default project_dir)));
      log INFO (times "=" 50);;
      log INFO "STEP 3/3 — Sending email digest...";;
      log INFO (times "=" 50);;
      env ← getenv;
      success ← send_email results screenshots (Some (EmailConfig_default env));
      if (success : bool) then
        log INFO "✅ Pipeline complete! Email sent.";;
        mret 0%Z
      else
        log ERROR "❌ Pipeline failed at email step.";;
        mret 1%Z.

End WithWorld.
End Main.

(* ===================================================================== *)
(** ** A scripted world with files and a mail server *)
(* ===================================================================== *)

Module Bureau.
Import PyStr Config Effects Search Screenshot Mail Main Scripted.

(** The scripted world of the search and capture side, the files that exist
    with their content, the files that exist but cannot be read, and the
    answers of the mail server in the order of the commands. *)
Record Site := {
  script : Script;
  files : gmap string string;
  locked : gset string;
  server : list (option SmtpError);
}.

Definition on_script (f : Script -> Script) (s : Site) : Site :=
  {| script := f (script s); files := files s; locked := locked s; server := server s |}.

#[global] Instance site_externals : Externals Site := {|
  environ s := environ (script s);
  project_dir := "/srv/monitor";
  utcnow_isoformat s := ("2024-05-01T09:00:00", s);
  serp_get_dict p s :=
    ((serp_get_dict p (script s)).1, on_script (fun w => (serp_get_dict p w).2) s);
  playwright c s :=
    ((playwright c (script s)).1, on_script (fun w => (playwright c w).2) s);
  os_makedirs path s := (Returned tt, s);
|}.

#[global] Instance site_office : Office Site := {|
  utcnow_strftime format s :=
    (if String.eqb format "%Y-%m-%d" then "2024-05-01" else "May 01, 2024", s);
  os_path_exists path s :=
    bool_decide (path ∈ dom (files s)) || bool_decide (path ∈ locked s);
  read_binary path s :=
    (match files s !! path with
     | Some data => Returned data
     | None => Raised ("[Errno 13] Permission denied: '" +:+ path +:+ "'")
     end, s);
  smtplib c s :=
    match server s with
    | r :: rest =>
        (r, {| script := script s; files := files s; locked := locked s; server := rest |})
    | [] => (None, s)
    end;
  repr_list l := "[" +:+ join ", " (map (fun x => "'" +:+ x +:+ "'") l) +:+ "]";
  json_dumps _ := "{}";
|}.

Definition open_desk (s : Site) : State (Desk Site) :=
  {| world := {| office := s; journal := [] |}; trace := [] |}.

Definition gmail : EmailConfig :=
  {| smtp_server := "smtp.gmail.com";
     smtp_port := 587;
     sender_email := "monitor@example.com";
     sender_password := "app-password";
     recipient_email := "team@example.com";
     subject_prefix := "[ADOR Digatron] LinkedIn Keyword Monitor" |}.

Definition gmail_env : gmap string string :=
  {[ "SERPAPI_KEY" := "0123abcd";
     "GMAIL_ADDRESS" := "monitor@example.com";
     "GMAIL_APP_PASSWORD" := "app-password" ]}.

End Bureau.

(* ===================================================================== *)
(** ** Vocabulary for the further statements *)
(* ===================================================================== *)

Module Notions.
Import PyStr Config Effects Search Screenshot Mail Main Spec.

(** A computation that, from any state, moves the world along [R] and adds
    to the trace only events in [P]. *)
Definition keeps {World : Type} (R : World -> World -> Prop) (P : Event -> Prop)
    {A : Type} (m : M (World := World) A) : Prop :=
  forall st : State World,
    R (world st) (world (run m st).2)
    /\ exists evs, trace (run m st).2 = trace st ++ evs /\ Forall P evs.

(** A computation that cannot return unless the browser call [c] was made
    and returned. *)
Definition sure {World : Type} (c : PlaywrightCall) {A : Type}
    (m : M (World := World) A) : Prop :=
  forall st : State World,
    exists evs, trace (run m st).2 = trace st ++ evs
                /\ forall a, (run m st).1 = Returned a ->
                             exists x, Drove c (Returned x) ∈ evs.

(** A computation that never raises. *)
Definition total {World : Type} {A : Type} (m : M (World := World) A) : Prop :=
  forall st : State World, exists a, (run m st).1 = Returned a.

Definition anywhere {World : Type} (w w' : World) : Prop := True.

Definition is_log (ev : Event) : Prop :=
  match ev with Logged _ _ => True | _ => False end.

(** An event of the search side: a log record or a provider request. *)
Definition search_event (ev : Event) : Prop :=
  match ev with Logged _ _ | Requested _ => True | _ => False end.


(** A browser call that is neither the import, nor the entry into
    Playwright, nor the exit from it; or any other event. *)
Definition inside_session (ev : Event) : Prop :=
  match ev with
  | Drove ImportAsyncApi _ | Drove AsyncPlaywrightEnter _
  | Drove AsyncPlaywrightExit _ => False
  | _ => True
  end.

(** An event other than an import that raised. *)
Definition sound_import (ev : Event) : Prop :=
  match ev with
  | Drove ImportAsyncApi (Raised _) => False
  | _ => True
  end.

(** A computation that raises only what an import raised, and at once:
    when it returns no import has raised, and when it raises the last
    event is the import that raised. *)
Definition stops_at_import {World : Type} {A : Type} (m : M (World := World) A)
    : Prop :=
  forall st : State World,
    exists evs,
      trace (run m st).2 = trace st ++ evs
      /\ match (run m st).1 with
         | Returned _ => Forall sound_import evs
         | Raised e =>
             exists before,
               evs = before ++ [Drove ImportAsyncApi (Raised e)]
               /\ Forall sound_import before
         end.

(** The browser calls a capture makes outside the popup loop, between the
    entry into Playwright and the exit from it. *)
Definition capture_steps (u output_path : string) (config : ScreenshotConfig)
    : list PlaywrightCall :=
  [ ChromiumLaunch true;
    NewContext (viewport_width config) (viewport_height config) USER_AGENT;
    NewPage;
    Goto u "networkidle" (timeout_seconds config * 1000);
    WaitForTimeout (wait_seconds config * 1000);
    Screenshot output_path false;
    BrowserClose ].

(** A string without its leading zeros. *)
Fixpoint strip_zeros (s : string) : string :=
  match s with
  | String c s' => if Ascii.eqb c "0" then strip_zeros s' else s
  | EmptyString => EmptyString
  end.

(** The record a hit is parsed into, but for the time stamp. *)
Definition parsed_as (cat : string) (r : SearchResult) (item : Item) : Prop :=
  title r = default "Untitled Post" (item !! "title")
  /\ url r = strip_query (link_of item)
  /\ snippet r = default "" (item !! "snippet")
  /\ category r = cat.

(** The hits the parser keeps. *)
Definition accepted (organic : list Item) : list Item :=
  filter (fun item => on_site (strip_query (link_of item)) = true) organic.

(** Two desks whose journals agree, up to entries in [Q] added to the
    second. *)
Definition journal_grows {World : Type} (Q : Effect -> Prop) (d d' : Desk World) : Prop :=
  exists es, journal d' = journal d ++ es /\ Forall Q es.


Definition is_read (e : Effect) : Prop :=
  match e with ReadFile _ _ => True | _ => False end.

Definition is_smtp (e : Effect) : Prop :=
  match e with Smtp _ _ => True | _ => False end.


Definition any_effect (e : Effect) : Prop := True.

Definition is_image (p : Part) : Prop :=
  match p with MIMEImage _ _ _ _ => True | _ => False end.

Definition is_attachment (p : Part) : Prop :=
  match p with MIMEBase _ _ => True | _ => False end.

(** The content id under which the body shows the image number [k]. *)
Definition cid_of (k : nat) : string := "screenshot_" +:+ pretty k.

(** The path under which the body shows the screenshot of a post, when it
    shows one: the entry of its URL, when that is a path, not empty, of a
    file that exists. *)
Definition shown_path {World : Type} `{Office World} (w : World)
    (screenshots : CaptureOutcome) (post : SearchResult) : option string :=
  match default None (screenshots !! url post) with
  | Some path =>
      if String.eqb path "" then None
      else if os_path_exists path w then Some path else None
  | None => None
  end.

(** The inline images of a body: the paths shown, numbered from [k]. *)
Fixpoint number_from (k : nat) (paths : list string) : list (string * string) :=
  match paths with
  | [] => []
  | path :: rest => (cid_of k, path) :: number_from (S k) rest
  end.

(** The image of a post in the body. *)
Definition shot (cid : string) : string := SHOT_OPEN +:+ cid +:+ SHOT_CLOSE.

(** An inline image part made from one of the inline images of a body. *)
Definition image_of (inline_images : list (string * string)) (p : Part) : Prop :=
  exists cid path data,
    (cid, path) ∈ inline_images
    /\ p = MIMEImage data "png" ("<" +:+ cid +:+ ">") (basename path).

(** An attachment made from one of the inline images of a body. *)
Definition attachment_of (inline_images : list (string * string)) (p : Part) : Prop :=
  exists cid path data,
    (cid, path) ∈ inline_images /\ p = MIMEBase data (basename path).

Definition read_or_smtp (e : Effect) : Prop :=
  match e with ReadFile _ _ | Smtp _ _ => True | Printed _ => False end.

(** A computation on a desk that, from any state, only adds to the journal
    and to the trace, and whose outcome, with what it added, is in [phi]. *)
Definition adds {World : Type} {A : Type} (m : M (World := Desk World) A)
    (phi : Outcome A -> list Effect -> list Event -> Prop) : Prop :=
  forall st : State (Desk World),
    exists es evs,
      journal (world (run m st).2) = journal (world st) ++ es
      /\ trace (run m st).2 = trace st ++ evs
      /\ phi (run m st).1 es evs.


(** The server took a message and no command failed, but for a QUIT that
    found the server gone. *)
Definition delivered (es : list Effect) : Prop :=
  (exists from_addr to_addr msg, Smtp (Sendmail from_addr to_addr msg) None ∈ es)
  /\ forall c e, Smtp c (Some e) ∈ es ->
                 c = Quit /\ exists text, e = SMTPServerDisconnected text.

Definition not_smtp (e : Effect) : Prop :=
  match e with Smtp _ _ => False | _ => True end.

(** The inline PNG of the image number [k] of a body that shows it. *)
Definition inline_png (html : string) (p : Part) : Prop :=
  exists data k path,
    p = MIMEImage data "png" ("<" +:+ cid_of k +:+ ">") (basename path)
    /\ Substring (shot (cid_of k)) html.

(** The card of a post up to its image. *)
Definition card (category : string) (post : SearchResult) : string :=
  CARD_OPEN +:+ category +:+ CARD_HREF +:+ url post +:+ CARD_TITLE +:+ title post
  +:+ CARD_SNIPPET +:+ snippet post +:+ CARD_INFO_CLOSE.

Section WithWorld.
Context {World : Type} `{Externals World} `{Office World}.
#[local] Existing Instance desk_externals.

(** What a capture does between the entry into Playwright and the exit. *)
Definition session_body (u output_path : string) (config : ScreenshotConfig)
    : M (World := World) bool :=
  call (ChromiumLaunch true);;
  call (NewContext (viewport_width config) (viewport_height config) USER_AGENT);;
  call NewPage;;
  call (Goto u "networkidle" (timeout_seconds config * 1000));;
  call (WaitForTimeout (wait_seconds config * 1000));;
  attempt (dismiss_popups DISMISS_SELECTORS);;
  call (Screenshot output_path false);;
  call BrowserClose;;
  log INFO ("Screenshot saved: " +:+ output_path);;
  mret true.

(** The configuration a call of [send_email] works with. *)
Definition effective_email (config : option EmailConfig) (st : State (Desk World))
    : EmailConfig :=
  match config with
  | Some c => c
  | None => EmailConfig_default (environ (world st))
  end.




End WithWorld.
End Notions.
(* ===================================================================== *)
(** ** Facts about the string operations *)
(* ===================================================================== *)

Module PyStrFacts.
Import PyStr.

Lemma str_app_nil_l (s : string) : "" +:+ s = s.
Proof. reflexivity. Qed.

Lemma str_app_cons (a : ascii) (s t : string) : String a s +:+ t = String a (s +:+ t).
Proof. reflexivity. Qed.

Ltac unapp := repeat (rewrite str_app_cons in * || rewrite str_app_nil_l in * ).

Lemma str_app_assoc (a b c : string) : (a +:+ b) +:+ c = a +:+ (b +:+ c).
Proof. induction a as [|x a IH]; unapp; [reflexivity | now rewrite IH]. Qed.

Lemma str_app_empty_r (a : string) : a +:+ "" = a.
Proof. induction a as [|x a IH]; unapp; [reflexivity | now rewrite IH]. Qed.

Lemma startswith_app (p t : string) : startswith p (p +:+ t) = true.
Proof.
  induction p as [|a p IH]; unapp; simpl; [reflexivity|].
  now rewrite Ascii.eqb_refl.
Qed.

Lemma startswith_inv (p s : string) :
  startswith p s = true -> exists t, s = p +:+ t.
Proof.
  revert s; induction p as [|a p IH]; intros s Hs; simpl in *.
  - now exists s.
  - destruct s as [|b s]; [discriminate|].
    destruct (Ascii.eqb_spec a b) as [->|]; [|discriminate].
    destruct (IH _ Hs) as [t ->]. now exists t.
Qed.

Lemma contains_intro (sub pre post : string) :
  contains sub (pre +:+ sub +:+ post) = true.
Proof.
  induction pre as [|a pre IH]; unapp; simpl.
  - destruct (sub +:+ post) as [|b r] eqn:E.
    + destruct sub; [reflexivity | discriminate].
    + simpl contains. rewrite <- E, startswith_app. reflexivity.
  - rewrite IH. apply orb_true_r.
Qed.

Lemma contains_inv (sub s : string) :
  contains sub s = true -> Substring sub s.
Proof.
  induction s as [|a s IH]; simpl; intros Hc.
  - destruct (startswith_inv _ _ Hc) as [t Ht]. now exists "", t.
  - apply orb_true_iff in Hc as [Hp | Hc].
    + destruct (startswith_inv _ _ Hp) as [t Ht]. now exists "", t.
    + destruct (IH Hc) as (pre & post & ->). now exists (String a pre), post.
Qed.

(** [contains] decides the substring relation. *)
Lemma contains_spec (sub s : string) :
  contains sub s = true <-> Substring sub s.
Proof.
  split; [apply contains_inv|].
  intros (pre & post & ->). apply contains_intro.
Qed.

(** The part before the first separator holds no separator. *)
Lemma split_head_no_sep (c : ascii) (s : string) :
  has_char c (split_head c s) = false.
Proof.
  induction s as [|a s IH]; simpl; [reflexivity|].
  destruct (Ascii.eqb a c) eqn:E; simpl; [reflexivity|].
  now rewrite E, IH.
Qed.

(** ... and is a prefix of the string it is cut from: either nothing was
    cut, or what was cut starts with the separator. *)
Lemma split_head_prefix (c : ascii) (s : string) :
  split_head c s = s \/ exists rest, s = split_head c s +:+ String c rest.
Proof.
  induction s as [|a s IH]; simpl; [now left|].
  destruct (Ascii.eqb_spec a c) as [->|Hne].
  - right. now exists s.
  - destruct IH as [-> | [rest Hr]]; [now left|].
    right. exists rest. unapp. now rewrite <- Hr.
Qed.

Lemma split_head_id (c : ascii) (s : string) :
  has_char c s = false -> split_head c s = s.
Proof.
  induction s as [|a s IH]; simpl; [reflexivity|].
  destruct (Ascii.eqb a c); simpl; [discriminate|].
  intros Hs. now rewrite IH.
Qed.

(** What occurs in the part before the separator occurs in the whole. *)
Lemma contains_split_head (sub : string) (c : ascii) (s : string) :
  contains sub (split_head c s) = true -> contains sub s = true.
Proof.
  destruct (split_head_prefix c s) as [-> | [rest Hr]]; [tauto|].
  intros Hc. apply contains_inv in Hc as (pre & post & Hp).
  rewrite Hr, Hp, !str_app_assoc. apply contains_intro.
Qed.

Lemma Substring_app_l (sub a b : string) : Substring sub a -> Substring sub (a +:+ b).
Proof.
  intros (pre & post & ->). exists pre, (post +:+ b). now rewrite !str_app_assoc.
Qed.

Lemma Substring_app_r (sub a b : string) : Substring sub b -> Substring sub (a +:+ b).
Proof.
  intros (pre & post & ->). exists (a +:+ pre), post. now rewrite !str_app_assoc.
Qed.

Lemma Substring_refl (s : string) : Substring s s.
Proof. exists "", "". now rewrite str_app_nil_l, str_app_empty_r. Qed.

(** [join] on a list with a head: the head, then every other part behind
    a separator. *)
Lemma join_cons (sep p : string) (rest : list string) :
  join sep (p :: rest) = p +:+ foldr (fun x acc => sep +:+ x +:+ acc) "" rest.
Proof.
  revert p; induction rest as [|r rest IH]; intros p.
  - simpl. now rewrite str_app_empty_r.
  - change (join sep (p :: r :: rest)) with (p +:+ sep +:+ join sep (r :: rest)).
    rewrite IH. reflexivity.
Qed.

Lemma join_Substring (sep p : string) (parts : list string) :
  In p parts -> Substring p (join sep parts).
Proof.
  induction parts as [|a parts IH]; [intros []|].
  intros [-> | Hin].
  - rewrite join_cons. apply Substring_app_l, Substring_refl.
  - destruct parts as [|b parts]; [destruct Hin|].
    change (join sep (a :: b :: parts)) with (a +:+ sep +:+ join sep (b :: parts)).
    apply Substring_app_r, Substring_app_r, IH, Hin.
Qed.

(** Slices and lengths count code points, not bytes. *)
Example slice_to_code_points :
  slice_to 2 "héllo" = "hé" /\ len "héllo" = 5 /\ String.length "héllo" = 6
  /\ slice_to 3 "🔗ab—c" = "🔗ab" /\ slice_to 0 "é" = "" /\ slice_to 9 "ab" = "ab".
Proof. vm_compute. repeat split; reflexivity. Qed.

End PyStrFacts.

(* ===================================================================== *)
(** ** Running monadic code *)
(* ===================================================================== *)

Module RunFacts.
Import Effects.

Section WithWorld.
Context {World : Type} `{Externals World}.

Lemma run_ret {A} (a : A) (st : State World) : run (mret a) st = (Returned a, st).
Proof. reflexivity. Qed.

Lemma run_bind {A B} (m : M A) (k : A -> M B) (st : State World) :
  run (m ≫= k) st =
  match run m st with
  | (Returned a, st') => run (k a) st'
  | (Raised e, st') => (Raised e, st')
  end.
Proof. reflexivity. Qed.

Lemma run_log (lvl : Level) (msg : string) (st : State World) :
  run (log lvl msg) st =
  (Returned tt, {| world := world st; trace := trace st ++ [Logged lvl msg] |}).
Proof. reflexivity. Qed.

Lemma run_attempt {A} (m : M A) (st : State World) :
  run (attempt m) st = (Returned (run m st).1, (run m st).2).
Proof. unfold run, attempt. now destruct (m st). Qed.

Lemma run_external {A} (ev : Outcome A -> Event) (f : World -> Outcome A * World)
    (st : State World) :
  run (external ev f) st =
  ((f (world st)).1,
   {| world := (f (world st)).2; trace := trace st ++ [ev (f (world st)).1] |}).
Proof. unfold run, external. now destruct (f (world st)). Qed.

End WithWorld.
End RunFacts.


Module SearchFacts.
Import PyStr PyStrFacts Config Effects RunFacts Search Spec.

(** The cleaned link passes the site test exactly when the link without
    its query string is on the site, and then it is that link. *)
Lemma clean_on_site (link : string) :
  contains "linkedin.com" (_clean_linkedin_url link) = on_site (strip_query link).
Proof.
  unfold _clean_linkedin_url, on_site, strip_query.
  destruct (contains "linkedin.com" link) eqn:E; [reflexivity|].
  destruct (contains "linkedin.com" (split_head qmark link)) eqn:E'; [|exact E].
  apply contains_split_head in E'. congruence.
Qed.

Lemma clean_accepted (link : string) :
  on_site (strip_query link) = true -> _clean_linkedin_url link = strip_query link.
Proof.
  unfold _clean_linkedin_url, on_site, strip_query. intros Hs.
  now rewrite (contains_split_head _ _ _ Hs).
Qed.

Lemma on_site_strip_query (link : string) :
  on_site (strip_query link) = true -> on_site link = true.
Proof. apply contains_split_head. Qed.

(** *** The deduplication loop *)

Lemma dedup_acc (results : list SearchResult) (seen : gset string)
    (unique : list SearchResult) :
  dedup results seen unique
  = ((dedup results seen []).1, (unique ++ (dedup results seen []).2)%list).
Proof.
  revert seen unique; induction results as [|r rest IH]; intros seen unique; simpl.
  - now rewrite app_nil_r.
  - destruct (decide (url r ∈ seen)); [apply IH|].
    rewrite (IH _ (unique ++ [r])%list), (IH _ [r]). simpl.
    now rewrite <- List.app_assoc.
Qed.

Lemma dedup_cons (r : SearchResult) (rest : list SearchResult) (seen : gset string) :
  dedup (r :: rest) seen []
  = if decide (url r ∈ seen) then dedup rest seen []
    else ((dedup rest ({[ url r ]} ∪ seen) []).1,
          r :: (dedup rest ({[ url r ]} ∪ seen) []).2).
Proof.
  simpl. destruct (decide (url r ∈ seen)); [reflexivity|].
  now rewrite dedup_acc.
Qed.

(** After the loop the running set holds what it held plus every URL of
    the list. *)
Lemma dedup_seen (results : list SearchResult) (seen : gset string) :
  (dedup results seen []).1 = list_to_set (url <$> results) ∪ seen.
Proof.
  revert seen; induction results as [|r rest IH]; intros seen.
  - simpl. set_solver.
  - rewrite dedup_cons. destruct (decide (url r ∈ seen)); cbn [fst].
    + rewrite IH. set_solver.
    + rewrite IH. set_solver.
Qed.

(** The URLs kept are those of the list that were not seen before ... *)
Lemma dedup_elem_of (results : list SearchResult) (seen : gset string) (u : string) :
  u ∈ url <$> (dedup results seen []).2 <-> u ∈ url <$> results /\ u ∉ seen.
Proof.
  revert seen; induction results as [|r rest IH]; intros seen.
  - simpl. rewrite elem_of_nil. tauto.
  - rewrite dedup_cons. destruct (decide (url r ∈ seen)) as [Hin|Hnin]; cbn [snd].
    + rewrite IH, fmap_cons, elem_of_cons. naive_solver.
    + rewrite !fmap_cons, !elem_of_cons, IH, not_elem_of_union, not_elem_of_singleton.
      split; [intros [->|(?&?&?)]; auto | intros [[->|?] ?]; auto].
      destruct (decide (u = url r)); auto.
Qed.

(** ... each of them once ... *)
Lemma dedup_NoDup (results : list SearchResult) (seen : gset string) :
  NoDup (url <$> (dedup results seen []).2).
Proof.
  revert seen; induction results as [|r rest IH]; intros seen.
  - constructor.
  - rewrite dedup_cons. destruct (decide (url r ∈ seen)); cbn [snd]; [apply IH|].
    rewrite fmap_cons. apply NoDup_cons. split; [|apply IH].
    rewrite dedup_elem_of. set_solver.
Qed.

(** ... and the posts kept are posts of the list, in the order of the list. *)
Lemma dedup_sublist (results : list SearchResult) (seen : gset string) :
  sublist (dedup results seen []).2 results.
Proof.
  revert seen; induction results as [|r rest IH]; intros seen.
  - constructor.
  - rewrite dedup_cons. destruct (decide (url r ∈ seen)); cbn [snd].
    + apply sublist_cons, IH.
    + apply sublist_skip, IH.
Qed.

(** Of the posts with a URL not seen before, the first is the one kept. *)
Lemma dedup_first (results : list SearchResult) (seen : gset string) (i : nat)
    (r : SearchResult) :
  results !! i = Some r ->
  url r ∉ seen ->
  url r ∉ url <$> take i results ->
  r ∈ (dedup results seen []).2.
Proof.
  revert seen i; induction results as [|r0 rest IH]; intros seen i Hi Hseen Hearlier;
    [discriminate|].
  rewrite dedup_cons. destruct i as [|i].
  - injection Hi as ->. destruct (decide (url r ∈ seen)); [contradiction|].
    apply list_elem_of_here.
  - cbn [take fmap list_fmap] in Hearlier. apply not_elem_of_cons in Hearlier as [Hne Hearlier].
    destruct (decide (url r0 ∈ seen)); cbn [snd].
    + apply (IH seen i); assumption.
    + apply list_elem_of_further, (IH _ i); [exact Hi | | exact Hearlier].
      rewrite not_elem_of_union, not_elem_of_singleton. now split.
Qed.

Section WithWorld.
Context {World : Type} `{Externals World}.

(** Parsing never raises and leaves the trace alone (it only reads the
    clock); it keeps the hits whose stripped link is on the site, in order,
    each under its stripped link and the category searched. *)
Lemma parse_organic_run (cat : string) (organic : list Item)
    (parsed : list SearchResult) (st : State World) :
  exists rs w',
    run (parse_organic cat organic parsed) st
    = (Returned (parsed ++ rs)%list, {| world := w'; trace := trace st |})
    /\ map url rs
       = map strip_query (filter (fun l => on_site (strip_query l) = true)
                            (map link_of organic))
    /\ Forall (fun r => category r = cat) rs.
Proof.
  revert parsed st; induction organic as [|item rest IH]; intros parsed st.
  - exists [], (world st). rewrite app_nil_r. destruct st. now repeat split.
  - simpl parse_organic. fold (link_of item). rewrite clean_on_site.
    simpl map. rewrite filter_cons.
    destruct (decide (on_site (strip_query (link_of item)) = true)) as [Hs|Hs].
    + rewrite Hs. simpl negb. cbv iota. rewrite run_bind.
      unfold utcnow at 1, run at 1.
      destruct (utcnow_isoformat (world st)) as [now w1].
      match goal with
      | |- context [parse_organic cat rest ?p] =>
          destruct (IH p {| world := w1; trace := trace st |})
            as (rs & w' & Hrun & Hurls & Hcat)
      end.
      eexists (_ :: rs), w'. rewrite Hrun. split; [|split].
      * now rewrite <- List.app_assoc.
      * simpl. rewrite Hurls. f_equal. now apply clean_accepted.
      * constructor; [reflexivity | exact Hcat].
    + apply not_true_is_false in Hs. rewrite Hs. simpl negb. cbv iota.
      apply IH.
Qed.

(** One search, step by step: the announcement, the request, and then
    either the failure record and an empty list, or the count record and the
    parsed hits. *)
Lemma search_category_run (cat : string) (keywords : list string)
    (config : SearchConfig) (st : State World) :
  let params := search_params (build_search_query cat keywords) config in
  let reply := serp_get_dict params (world st) in
  let sent := (trace st ++ [Logged INFO (searching_msg cat keywords);
                            Requested params])%list in
  match reply.1 with
  | Raised e =>
      run (search_category cat keywords config) st
      = (Returned [],
         {| world := reply.2;
            trace := (sent ++ [Logged ERROR (failed_msg cat e)])%list |})
  | Returned results =>
      let organic := default [] (organic_results results) in
      exists rs w',
        run (search_category cat keywords config) st
        = (Returned rs,
           {| world := w';
              trace := (sent ++ [Logged INFO (found_msg cat (length organic))])%list |})
        /\ map url rs
           = map strip_query (filter (fun l => on_site (strip_query l) = true)
                                (map link_of organic))
        /\ Forall (fun r => category r = cat) rs
  end.
Proof.
  intros params reply sent.
  unfold search_category. fold params.
  rewrite run_bind, run_log, run_bind, run_attempt, run_external.
  cbn [world trace fst snd]. fold reply.
  destruct reply as [[results | e] w1]; cbn [fst snd].
  - rewrite run_bind, run_log.
    destruct (parse_organic_run cat (default [] (organic_results results)) []
                {| world := w1;
                   trace := ((trace st ++ [Logged INFO (searching_msg cat keywords)])
                             ++ [Requested params])
                            ++ [Logged INFO
                                  (found_msg cat
                                     (length (default [] (organic_results results))))]
                |}%list) as (rs & w' & Hrun & Hurls & Hcat).
    exists rs, w'. split; [|split]; [|exact Hurls|exact Hcat].
    cbn [world trace]. unfold found_msg, searching_msg in *.
    rewrite Hrun. cbn [trace app]. unfold sent.
    now rewrite <- !List.app_assoc.
  - rewrite run_bind, run_log. unfold sent, failed_msg, searching_msg.
    rewrite run_ret. cbn [world trace]. now rewrite <- !List.app_assoc.
Qed.

(** A search never raises. *)
Lemma search_category_total (cat : string) (keywords : list string)
    (config : SearchConfig) (st : State World) :
  exists rs st', run (search_category cat keywords config) st = (Returned rs, st').
Proof.
  pose proof (search_category_run cat keywords config st) as Hrun.
  cbv zeta in Hrun.
  destruct (serp_get_dict _ (world st)) as [[results | e] w1]; cbn [fst snd] in Hrun.
  - destruct Hrun as (rs & w' & -> & _). eauto.
  - rewrite Hrun. eauto.
Qed.

End WithWorld.
End SearchFacts.

Module DictFacts.
Import Search Spec.

Section Dict.
Context {V : Type}.
Implicit Types (d : PyDict.t V) (k : string) (v : V).

Lemma get_set_eq k v d : PyDict.get k (PyDict.set k v d) = Some v.
Proof.
  induction d as [|[k' v'] d IH]; simpl.
  - now rewrite String.eqb_refl.
  - destruct (String.eqb k k') eqn:E; simpl; rewrite E; [reflexivity | exact IH].
Qed.

Lemma get_set_ne k k' v d :
  k <> k' -> PyDict.get k' (PyDict.set k v d) = PyDict.get k' d.
Proof.
  intros Hne. induction d as [|[k0 v0] d IH]; simpl.
  - apply String.eqb_neq in Hne. now rewrite String.eqb_sym, Hne.
  - destruct (String.eqb_spec k k0) as [->|Hk]; simpl.
    + apply String.eqb_neq in Hne. now rewrite String.eqb_sym, Hne.
    + now rewrite IH.
Qed.

Lemma mem_set k k' v d :
  PyDict.mem k' (PyDict.set k v d) = String.eqb k k' || PyDict.mem k' d.
Proof.
  unfold PyDict.mem. destruct (String.eqb_spec k k') as [->|Hne]; simpl.
  - now rewrite get_set_eq.
  - now rewrite get_set_ne.
Qed.

(** Setting a key that is not there appends the entry. *)
Lemma set_fresh k v d :
  PyDict.get k d = None -> PyDict.set k v d = (d ++ [(k, v)])%list.
Proof.
  induction d as [|[k' v'] d IH]; simpl; [reflexivity|].
  destruct (String.eqb k k'); [discriminate|].
  intros Hd. now rewrite IH.
Qed.

Lemma get_app_l k d d' :
  PyDict.get k (d ++ d')%list
  = match PyDict.get k d with Some v => Some v | None => PyDict.get k d' end.
Proof.
  induction d as [|[k' v'] d IH]; simpl; [reflexivity|].
  now destruct (String.eqb k k').
Qed.

Lemma get_None_keys k d : PyDict.get k d = None <-> k ∉ PyDict.keys d.
Proof.
  unfold PyDict.keys. induction d as [|[k' v'] d IH]; simpl.
  - split; [intros _; apply not_elem_of_nil | reflexivity].
  - rewrite not_elem_of_cons. destruct (String.eqb_spec k k') as [->|Hne].
    + split; [discriminate | intros [[] _]; reflexivity].
    + rewrite IH. tauto.
Qed.

End Dict.

(** The posts of a ResultSet after an assignment come from the list
    assigned or were there before. *)
Lemma all_posts_set (k : string) (v : list SearchResult) (d : ResultSet)
    (p : SearchResult) :
  p ∈ all_posts (PyDict.set k v d) -> p ∈ v \/ p ∈ all_posts d.
Proof.
  unfold all_posts. induction d as [|[k' v'] d IH]; simpl.
  - rewrite app_nil_r. tauto.
  - destruct (String.eqb k k'); simpl; rewrite !elem_of_app; [tauto|].
    intros [?|Hp]; [tauto|]. destruct (IH Hp); tauto.
Qed.

Lemma all_urls_set (k : string) (v : list SearchResult) (d : ResultSet) (u : string) :
  u ∈ all_urls (PyDict.set k v d) -> u ∈ url <$> v \/ u ∈ all_urls d.
Proof.
  unfold all_urls. rewrite !list_elem_of_fmap.
  intros (p & -> & Hp). apply all_posts_set in Hp as [Hp|Hp]; eauto.
Qed.

(** Assigning a list of fresh, pairwise different URLs keeps the URLs of
    the ResultSet pairwise different. *)
Lemma all_urls_set_NoDup (k : string) (v : list SearchResult) (d : ResultSet) :
  NoDup (all_urls d) -> NoDup (url <$> v) ->
  (forall u, u ∈ url <$> v -> u ∉ all_urls d) ->
  NoDup (all_urls (PyDict.set k v d)).
Proof.
  unfold all_urls, all_posts. induction d as [|[k' v'] d IH]; simpl.
  - intros _ Hv _. now rewrite app_nil_r.
  - rewrite !fmap_app. intros Hd Hv Hfresh.
    apply NoDup_app in Hd as (Hv' & Hdisj & Hd).
    destruct (String.eqb k k'); simpl; rewrite fmap_app; apply NoDup_app.
    + split; [exact Hv|]. split; [|exact Hd].
      intros u Hu Hu'. apply (Hfresh u Hu). apply elem_of_app. now right.
    + split; [exact Hv'|]. split.
      * intros u Hu Hu'. apply all_urls_set in Hu' as [Hu'|Hu'].
        -- apply (Hfresh u Hu'). apply elem_of_app. now left.
        -- exact (Hdisj u Hu Hu').
      * apply IH; [exact Hd | exact Hv |].
        intros u Hu Hu'. apply (Hfresh u Hu). apply elem_of_app. now right.
Qed.

End DictFacts.

Module LoopFacts.
Import PyStr PyStrFacts Config Effects RunFacts Search Spec SearchFacts DictFacts.

(** *** The pure fold *)

Lemma Deduplicated_empty : Deduplicated [] ∅.
Proof. split; [constructor | intros u Hu; inversion Hu]. Qed.

Lemma Deduplicated_step (c : string) (results : list SearchResult)
    (all_results : ResultSet) (seen_urls : gset string) :
  Deduplicated all_results seen_urls ->
  Deduplicated (PyDict.set c (dedup results seen_urls []).2 all_results)
               (dedup results seen_urls []).1.
Proof.
  intros [Hnd Hseen]. split.
  - apply all_urls_set_NoDup; [exact Hnd | apply dedup_NoDup |].
    intros u Hu Hall. apply dedup_elem_of in Hu as [_ Hu]. auto.
  - intros u Hu. rewrite dedup_seen.
    apply all_urls_set in Hu as [Hu|Hu].
    + apply dedup_elem_of in Hu as [Hu _].
      apply elem_of_union_l, elem_of_list_to_set, Hu.
    + apply elem_of_union_r, Hseen, Hu.
Qed.

Lemma merge_cons (c : string) (results : list SearchResult)
    (raws : list (string * list SearchResult)) (all_results : ResultSet)
    (seen_urls : gset string) :
  merge ((c, results) :: raws) all_results seen_urls
  = merge raws (PyDict.set c (dedup results seen_urls []).2 all_results)
      (dedup results seen_urls []).1.
Proof. simpl. now destruct (dedup results seen_urls []). Qed.

Lemma merge_Deduplicated (raws : list (string * list SearchResult))
    (all_results : ResultSet) (seen_urls : gset string) :
  Deduplicated all_results seen_urls ->
  Deduplicated (merge raws all_results seen_urls).1 (merge raws all_results seen_urls).2.
Proof.
  revert all_results seen_urls; induction raws as [|[c results] raws IH];
    intros all_results seen_urls Hd; [exact Hd|].
  rewrite merge_cons. apply IH, Deduplicated_step, Hd.
Qed.

(** Every name searched has an entry afterwards, and no entry is lost. *)
Lemma merge_mem (raws : list (string * list SearchResult))
    (all_results : ResultSet) (seen_urls : gset string) (c : string) :
  PyDict.mem c (merge raws all_results seen_urls).1
  = bool_decide (c ∈ raws.*1) || PyDict.mem c all_results.
Proof.
  revert all_results seen_urls; induction raws as [|[c' results] raws IH];
    intros all_results seen_urls; [reflexivity|].
  rewrite merge_cons, IH, mem_set, fmap_cons. cbn [fst].
  destruct (String.eqb_spec c' c) as [->|Hne].
  - rewrite (bool_decide_eq_true_2 (c ∈ c :: raws.*1)) by apply list_elem_of_here.
    now rewrite orb_true_r.
  - simpl. f_equal. apply bool_decide_ext. rewrite elem_of_cons. naive_solver.
Qed.

Lemma merge_app (pre post : list (string * list SearchResult))
    (all_results : ResultSet) (seen_urls : gset string) :
  merge (pre ++ post) all_results seen_urls
  = merge post (merge pre all_results seen_urls).1 (merge pre all_results seen_urls).2.
Proof.
  revert all_results seen_urls; induction pre as [|[c results] pre IH];
    intros all_results seen_urls; [reflexivity|].
  rewrite <- app_comm_cons, !merge_cons. apply IH.
Qed.

(** The running set only grows, by the URLs of the lists folded in. *)
Lemma merge_seen (raws : list (string * list SearchResult))
    (all_results : ResultSet) (seen_urls : gset string) (u : string) :
  u ∈ (merge raws all_results seen_urls).2
  <-> u ∈ seen_urls \/ exists c results, (c, results) ∈ raws /\ u ∈ url <$> results.
Proof.
  revert all_results seen_urls; induction raws as [|[c results] raws IH];
    intros all_results seen_urls.
  - simpl. split; [tauto|]. intros [?|(c & results & Hin & _)]; [assumption|].
    inversion Hin.
  - rewrite merge_cons, IH, dedup_seen, elem_of_union, elem_of_list_to_set.
    split.
    + intros [[Hu|Hu]|(c' & r' & Hin & Hu)].
      * right. exists c, results. split; [apply list_elem_of_here | exact Hu].
      * now left.
      * right. exists c', r'. split; [now apply list_elem_of_further | exact Hu].
    + intros [Hu|(c' & r' & Hin & Hu)]; [tauto|].
      apply elem_of_cons in Hin as [Heq|Hin].
      * injection Heq as -> ->. tauto.
      * right. eauto.
Qed.

(** A name that is not searched again keeps its entry. *)
Lemma merge_get_other (raws : list (string * list SearchResult))
    (all_results : ResultSet) (seen_urls : gset string) (c : string) :
  c ∉ raws.*1 ->
  PyDict.get c (merge raws all_results seen_urls).1 = PyDict.get c all_results.
Proof.
  revert all_results seen_urls; induction raws as [|[c' results] raws IH];
    intros all_results seen_urls Hc; [reflexivity|].
  rewrite fmap_cons in Hc. apply not_elem_of_cons in Hc as [Hne Hc].
  rewrite merge_cons, IH by exact Hc. apply get_set_ne. cbn [fst] in Hne. congruence.
Qed.

(** An entry of the result was there from the start, or every URL in it was
    unseen at the start and came back from a search under that name. *)
Lemma merge_get_new (raws : list (string * list SearchResult))
    (all_results : ResultSet) (seen_urls : gset string) (c : string)
    (posts : list SearchResult) :
  PyDict.get c (merge raws all_results seen_urls).1 = Some posts ->
  PyDict.get c all_results = Some posts
  \/ (forall u, u ∈ (url <$> posts) ->
        (u ∉ seen_urls) /\ exists results, (c, results) ∈ raws /\ u ∈ url <$> results).
Proof.
  revert all_results seen_urls; induction raws as [|[c' results] raws IH];
    intros all_results seen_urls Hget; [now left|].
  rewrite merge_cons in Hget. apply IH in Hget as [Hget|Hnew].
  - destruct (decide (c' = c)) as [->|Hne].
    + rewrite get_set_eq in Hget. injection Hget as <-. right.
      intros u Hu. apply dedup_elem_of in Hu as [Hu Hfresh].
      split; [exact Hfresh|]. exists results. split; [apply list_elem_of_here | exact Hu].
    + rewrite get_set_ne in Hget by exact Hne. now left.
  - right. intros u Hu. destruct (Hnew u Hu) as (Hfresh & results' & Hin & Hu').
    split.
    + intros Hseen. apply Hfresh. rewrite dedup_seen. now apply elem_of_union_r.
    + exists results'. split; [now apply list_elem_of_further | exact Hu'].
Qed.

(** First occurrence wins: when no name is searched twice, a URL stays
    with the first name whose search returned it, once, and with no other
    name. *)
Lemma merge_first_wins (pre post : list (string * list SearchResult))
    (c u : string) (results : list SearchResult) :
  NoDup (pre ++ (c, results) :: post).*1 ->
  u ∈ url <$> results ->
  (forall c' results', (c', results') ∈ pre -> u ∉ url <$> results') ->
  let rs := (merge (pre ++ (c, results) :: post) [] ∅).1 in
  (exists kept, PyDict.get c rs = Some kept
                /\ u ∈ url <$> kept /\ NoDup (url <$> kept))
  /\ forall c' posts, c' <> c -> PyDict.get c' rs = Some posts -> u ∉ url <$> posts.
Proof.
  intros Hnd Hu Hpre rs. unfold rs. rewrite merge_app, merge_cons.
  set (all1 := (merge pre [] ∅).1). set (seen1 := (merge pre [] ∅).2).
  rewrite fmap_app, fmap_cons in Hnd. apply NoDup_app in Hnd as (_ & _ & Hnd).
  apply NoDup_cons in Hnd as [Hc _]. cbn [fst] in Hc.
  assert (Hfresh : u ∉ seen1).
  { unfold seen1. rewrite merge_seen. intros [Hu'|(c' & r' & Hin & Hu')].
    - inversion Hu'.
    - exact (Hpre c' r' Hin Hu'). }
  split.
  - exists (dedup results seen1 []).2.
    rewrite merge_get_other by exact Hc. rewrite get_set_eq.
    split; [reflexivity|]. split; [|apply dedup_NoDup].
    apply dedup_elem_of. tauto.
  - intros c' posts Hne Hget. apply merge_get_new in Hget as [Hget|Hnew].
    + rewrite get_set_ne in Hget by congruence.
      unfold all1 in Hget. apply merge_get_new in Hget as [Hget|Hnew]; [discriminate|].
      intros Hu'. destruct (Hnew u Hu') as (_ & r' & Hin & Hu'').
      exact (Hpre c' r' Hin Hu'').
    + intros Hu'. destruct (Hnew u Hu') as (Hnot & _). apply Hnot.
      rewrite dedup_seen. apply elem_of_union_l, elem_of_list_to_set, Hu.
Qed.

Section WithWorld.
Context {World : Type} `{Externals World}.

(** *** The loop over the categories *)

Lemma category_loop_cons (c : string) (rest : list string) (config : SearchConfig)
    (all_results : ResultSet) (seen_urls : gset string) :
  category_loop (c :: rest) config all_results seen_urls
  = match PyDict.get c KEYWORD_CATEGORIES with
    | None =>
        log WARNING ("Unknown category: " +:+ c +:+ ", skipping.");;
        category_loop rest config all_results seen_urls
    | Some keywords =>
        results ← search_category c keywords config;
        let '(seen_urls', unique) := dedup results seen_urls [] in
        log INFO ("[" +:+ c +:+ "] " +:+ pretty (length unique)
                  +:+ " unique results ("
                  +:+ pretty (length results - length unique)
                  +:+ " duplicates removed)");;
        category_loop rest config (PyDict.set c unique all_results) seen_urls'
    end.
Proof. reflexivity. Qed.

(** The loop never raises, and its result is the fold of the lists the
    searches returned. *)
Lemma category_loop_run (targets : list string) (config : SearchConfig)
    (all_results : ResultSet) (seen_urls : gset string) (st : State World) :
  exists raws st',
    Searched config targets st raws st'
    /\ run (category_loop targets config all_results seen_urls) st
       = (Returned (merge raws all_results seen_urls), st').
Proof.
  revert all_results seen_urls st;
    induction targets as [|c rest IH]; intros all_results seen_urls st.
  - exists [], st. split; [constructor | reflexivity].
  - rewrite category_loop_cons.
    destruct (PyDict.get c KEYWORD_CATEGORIES) as [keywords|] eqn:Hc.
    + rewrite run_bind.
      destruct (search_category_total c keywords config st) as (results & st1 & Hrun).
      rewrite Hrun.
      destruct (dedup results seen_urls []) as [seen' unique] eqn:Hd.
      cbv beta iota. rewrite run_bind, run_log.
      match goal with
      | |- context [run (category_loop rest config ?a ?s) ?t] =>
          destruct (IH a s t) as (raws & st' & Hs & Hloop)
      end.
      exists ((c, results) :: raws), st'. split.
      * eapply Searched_known; [exact Hc | exact Hrun | exact Hs].
      * rewrite Hloop, merge_cons, Hd. reflexivity.
    + rewrite run_bind, run_log.
      match goal with
      | |- context [run (category_loop rest config ?a ?s) ?t] =>
          destruct (IH a s t) as (raws & st' & Hs & Hloop)
      end.
      exists raws, st'. split; [|exact Hloop].
      apply Searched_unknown; [exact Hc | exact Hs].
Qed.

(** The searches of the configured names of the list, in its order. *)
Lemma Searched_names (config : SearchConfig) (targets : list string)
    (st st' : State World) (raws : list (string * list SearchResult)) :
  Searched config targets st raws st' ->
  raws.*1 = filter (fun c => known c = true) targets.
Proof.
  induction 1 as [st | c rest st raws st' Hc _ IH
                 | c keywords rest st results st1 msg raws st' Hc _ _ IH].
  - reflexivity.
  - rewrite filter_cons_False; [exact IH|].
    unfold known, PyDict.mem. now rewrite Hc.
  - rewrite filter_cons_True; [now rewrite fmap_cons, IH|].
    unfold known, PyDict.mem. now rewrite Hc.
Qed.

(** What a search adds to the trace. *)
Lemma search_category_trace (cat : string) (keywords : list string)
    (config : SearchConfig) (st st1 : State World) (rs : list SearchResult) :
  run (search_category cat keywords config) st = (Returned rs, st1) ->
  exists evs,
    trace st1 = (trace st ++ evs)%list
    /\ requests_of evs = [search_params (build_search_query cat keywords) config]
    /\ Forall quiet evs.
Proof.
  intros Hrun. pose proof (search_category_run cat keywords config st) as Hstep.
  cbv zeta in Hstep.
  destruct (serp_get_dict _ (world st)) as [[results | e] w1]; cbn [fst snd] in Hstep.
  - destruct Hstep as (rs' & w' & Hrun' & _). rewrite Hrun in Hrun'.
    injection Hrun' as _ ->. eexists. cbn [trace].
    rewrite <- List.app_assoc. split; [reflexivity|]. split; [reflexivity|].
    repeat constructor; discriminate.
  - rewrite Hrun in Hstep. injection Hstep as _ ->. eexists. cbn [trace].
    rewrite <- List.app_assoc. split; [reflexivity|]. split; [reflexivity|].
    repeat constructor; discriminate.
Qed.

Lemma omap_cons_step {A B} (f : A -> option B) (x : A) (l : list A) :
  omap f (x :: l)
  = match f x with Some y => y :: omap f l | None => omap f l end.
Proof. reflexivity. Qed.

Lemma requests_of_app (evs evs' : list Event) :
  requests_of (evs ++ evs') = (requests_of evs ++ requests_of evs')%list.
Proof. apply omap_app. Qed.

(** What the loop adds to the trace: one request for each configured name
    of the list, in order, and never the record of the missing key. *)
Lemma Searched_trace (config : SearchConfig) (targets : list string)
    (st st' : State World) (raws : list (string * list SearchResult)) :
  Searched config targets st raws st' ->
  exists evs,
    trace st' = (trace st ++ evs)%list
    /\ requests_of evs = omap (request_for config) targets
    /\ Forall quiet evs.
Proof.
  induction 1 as [st | c rest st raws st' Hc _ IH
                 | c keywords rest st results st1 msg raws st' Hc Hrun _ IH].
  - exists []. now rewrite app_nil_r.
  - destruct IH as (evs & Htr & Hreq & Hq). cbn [after_log trace] in Htr.
    eexists (_ :: evs). rewrite Htr, <- List.app_assoc.
    split; [reflexivity|]. split.
    + rewrite omap_cons_step.
      unfold request_for at 1. rewrite Hc. exact Hreq.
    + constructor; [discriminate | exact Hq].
  - destruct IH as (evs & Htr & Hreq & Hq). cbn [after_log trace] in Htr.
    destruct (search_category_trace _ _ _ _ _ _ Hrun) as (evs1 & Htr1 & Hreq1 & Hq1).
    exists (evs1 ++ Logged INFO msg :: evs)%list.
    rewrite Htr, Htr1, <- !List.app_assoc. split; [reflexivity|]. split.
    + rewrite requests_of_app, Hreq1, omap_cons_step.
      unfold request_for at 1. rewrite Hc. exact (f_equal _ Hreq).
    + apply Forall_app. split; [exact Hq1|]. constructor; [discriminate | exact Hq].
Qed.

(** *** The whole run *)

(** Either the key is missing and the call stops at once, or the loop runs
    over the target list and its ResultSet is returned. *)
Lemma search_all_categories_run (config : option SearchConfig)
    (categories : option (list string)) (st : State World) :
  let cfg := effective_config config st in
  if String.eqb (serpapi_key cfg) "" then
    run (search_all_categories config categories) st
    = (Returned [], after_log st ERROR missing_key_diagnostic)
  else
    exists raws st',
      Searched cfg (target_categories categories) st raws st'
      /\ run (search_all_categories config categories) st
         = (Returned (merge raws [] ∅).1,
            after_log st' INFO (total_msg (merge raws [] ∅).1)).
Proof.
  intros cfg. unfold search_all_categories. rewrite run_bind.
  assert (Hcfg : run (match config with
                      | Some c => mret c
                      | None => env ← getenv; mret (SearchConfig_default env)
                      end) st = (Returned cfg, st)).
  { unfold cfg, effective_config. now destruct config. }
  rewrite Hcfg. destruct (String.eqb (serpapi_key cfg) "") eqn:Hkey.
  - rewrite run_bind, run_log. reflexivity.
  - fold (target_categories categories). rewrite run_bind.
    destruct (category_loop_run (target_categories categories) cfg [] ∅ st)
      as (raws & st' & Hs & Hloop).
    exists raws, st'. split; [exact Hs|]. rewrite Hloop.
    destruct (merge raws [] ∅) as [rs seen]. cbv beta iota.
    rewrite run_bind, run_log. reflexivity.
Qed.

End WithWorld.
End LoopFacts.

(* ===================================================================== *)
(** ** The capture engine *)
(* ===================================================================== *)

Module CaptureFacts.
Import PyStr PyStrFacts Config Effects RunFacts Search Screenshot Spec.

Section WithWorld.
Context {World : Type} `{Externals World}.

Lemma careful_ret {A} (a : A) : careful (World := World) (mret a).
Proof. intros st. exists []. rewrite run_ret, app_nil_r. split; [reflexivity | constructor]. Qed.

Lemma careful_bind {A B} (m : M A) (k : A -> M B) :
  careful (World := World) m -> (forall a, careful (World := World) (k a)) -> careful (World := World) (m ≫= k).
Proof.
  intros Hm Hk st. rewrite run_bind.
  destruct (Hm st) as (evs1 & Htr1 & Hc1).
  destruct (run m st) as [[a|e] st1]; cbn [fst snd] in *.
  - destruct (Hk a st1) as (evs2 & Htr2 & Hc2).
    exists (evs1 ++ evs2). rewrite Htr2, Htr1, <- List.app_assoc.
    split; [reflexivity|]. intros b Hb. apply Forall_app. split; eauto.
  - exists evs1. split; [exact Htr1 | discriminate].
Qed.

Lemma careful_log (lvl : Level) (msg : string) :
  careful (World := World) (log lvl msg).
Proof.
  intros st. exists [Logged lvl msg]. rewrite run_log.
  split; [reflexivity|]. intros _ _. repeat constructor.
Qed.

Lemma run_call (c : PlaywrightCall) (st : State World) :
  run (call c) st
  = ((playwright c (world st)).1,
     {| world := (playwright c (world st)).2;
        trace := trace st ++ [Drove c (playwright c (world st)).1] |}).
Proof. unfold call. apply run_external. Qed.

Lemma careful_call (c : PlaywrightCall) : careful (World := World) (call c).
Proof.
  intros st. rewrite run_call. eexists. split; [reflexivity|].
  cbn [fst]. intros b ->. repeat constructor.
Qed.

Lemma harmless_ret {A} (a : A) : harmless (World := World) (mret a).
Proof. intros st. exists []. rewrite run_ret, app_nil_r. split; [reflexivity | constructor]. Qed.

Lemma harmless_bind {A B} (m : M A) (k : A -> M B) :
  harmless (World := World) m -> (forall a, harmless (World := World) (k a)) ->
  harmless (World := World) (m ≫= k).
Proof.
  intros Hm Hk st. rewrite run_bind.
  destruct (Hm st) as (evs1 & Htr1 & Hc1).
  destruct (run m st) as [[a|e] st1]; cbn [fst snd] in *.
  - destruct (Hk a st1) as (evs2 & Htr2 & Hc2).
    exists (evs1 ++ evs2). rewrite Htr2, Htr1, <- List.app_assoc.
    split; [reflexivity|]. apply Forall_app. now split.
  - now exists evs1.
Qed.

Lemma harmless_call (c : PlaywrightCall) :
  tolerated c -> harmless (World := World) (call c).
Proof.
  intros Hc st. rewrite run_call. eexists. split; [reflexivity|].
  cbn [fst]. constructor; [|constructor].
  destruct (playwright c (world st)).1; [exact I | exact Hc].
Qed.

(** Whatever happens in the popup loop, its events are clean: the only
    calls it makes are tolerated ones. *)
Lemma dismiss_popups_harmless (selectors : list string) :
  harmless (World := World) (dismiss_popups selectors).
Proof.
  induction selectors as [|selector rest IH]; [apply harmless_ret|].
  cbn [dismiss_popups]. apply harmless_bind; [now apply harmless_call|].
  intros visible. apply harmless_bind; [|intros _; exact IH].
  destruct visible; [|apply harmless_ret].
  apply harmless_bind; [now apply harmless_call|]. intros _.
  apply harmless_bind; [now apply harmless_call|]. intros _.
  apply harmless_ret.
Qed.

Lemma careful_dismiss (selectors : list string) :
  careful (World := World) (attempt (dismiss_popups selectors)).
Proof.
  intros st. rewrite run_attempt. cbn [fst snd].
  destruct (dismiss_popups_harmless selectors st) as (evs & Htr & Hc).
  exists evs. split; [exact Htr | intros _ _; exact Hc].
Qed.

Lemma careful_with_async_playwright {A} (body : M A) :
  careful (World := World) body -> careful (World := World) (with_async_playwright body).
Proof.
  intros Hbody st. unfold with_async_playwright.
  rewrite run_bind, run_call.
  destruct (playwright AsyncPlaywrightEnter (world st)) as [[?|e] w1]; cbn [fst snd].
  - rewrite run_bind, run_attempt.
    match goal with |- context [run body ?s] =>
      destruct (Hbody s) as (evs & Htr & Hc); destruct (run body s) as [o st2] end.
    cbn [fst snd trace] in *. rewrite run_bind, run_call.
    destruct (playwright AsyncPlaywrightExit (world st2)) as [[?|e] w3]; cbn [fst snd].
    + destruct o as [res|exn]; cbn [fst snd trace].
      * eexists ([_] ++ evs ++ [_]). rewrite Htr, <- !List.app_assoc.
        split; [reflexivity|]. intros _ _.
        repeat constructor. apply Forall_app. split; [eauto | repeat constructor].
      * eexists ([_] ++ evs ++ [_]). rewrite Htr, <- !List.app_assoc.
        split; [reflexivity | discriminate].
    + eexists ([_] ++ evs ++ [_]). rewrite Htr, <- !List.app_assoc.
      split; [reflexivity | discriminate].
  - eexists [_]. split; [reflexivity | discriminate].
Qed.

(** The capture is the import and then the guarded part. *)
Lemma capture_screenshot_import (u output_path : string) (config : ScreenshotConfig) :
  capture_screenshot u output_path config
  = (call ImportAsyncApi;; guarded_capture u output_path config).
Proof. reflexivity. Qed.

(** When the import raises the capture raises what it raised, and when it
    returns the guarded part runs. *)
Lemma capture_screenshot_step (u output_path : string) (config : ScreenshotConfig)
    (st : State World) :
  run (capture_screenshot u output_path config) st
  = match (playwright ImportAsyncApi (world st)).1 with
    | Returned _ => run (guarded_capture u output_path config) (after_import st)
    | Raised e => (Raised e, after_import st)
    end.
Proof.
  rewrite capture_screenshot_import, run_bind, run_call. unfold after_import.
  now destruct (playwright ImportAsyncApi (world st)) as [[x|e] w].
Qed.

(** The guarded part never raises, and it returns True only after clean
    events: a browser call that raised outside the popup loop makes it
    return False. *)
Lemma guarded_capture_run (u output_path : string) (config : ScreenshotConfig)
    (st : State World) :
  exists b st' evs,
    run (guarded_capture u output_path config) st = (Returned b, st')
    /\ trace st' = trace st ++ evs
    /\ (b = true -> Forall clean evs).
Proof.
  unfold guarded_capture. rewrite run_bind, run_attempt.
  match goal with |- context [run (with_async_playwright ?body) st] =>
    assert (Hbody : careful (World := World) (with_async_playwright body)) end.
  { apply careful_with_async_playwright.
    repeat (apply careful_bind; [first [apply careful_call | apply careful_dismiss
                                        | apply careful_log] | intros ?]).
    apply careful_ret. }
  destruct (Hbody st) as (evs & Htr & Hc).
  destruct (run (with_async_playwright _) st) as [[b|e] st1]; cbn [fst snd] in *.
  - exists b, st1, evs. rewrite run_ret. split; [reflexivity|].
    split; [exact Htr | intros _; eauto].
  - rewrite run_bind, run_log, run_ret. eexists false, _, (evs ++ [_]).
    split; [reflexivity|]. cbn [trace]. rewrite Htr, <- List.app_assoc.
    split; [reflexivity | discriminate].
Qed.


(** From here on Playwright is installed. *)
Hypothesis Hinstalled : installed (World := World).

(** One capture then never raises, and it returns True only after clean
    events. *)
Lemma capture_screenshot_run (u output_path : string) (config : ScreenshotConfig)
    (st : State World) :
  exists b st' evs,
    run (capture_screenshot u output_path config) st = (Returned b, st')
    /\ trace st' = trace st ++ evs
    /\ (b = true -> Forall clean evs).
Proof.
  destruct (Hinstalled (world st)) as [x Hx].
  rewrite capture_screenshot_step, Hx.
  destruct (guarded_capture_run u output_path config (after_import st))
    as (b & st' & evs & Hrun & Htr & Hc).
  exists b, st', (Drove ImportAsyncApi (Returned x) :: evs).
  split; [exact Hrun|]. split.
  - rewrite Htr. unfold after_import. cbn [trace]. rewrite Hx, <- List.app_assoc.
    reflexivity.
  - intros Hb. constructor; [exact I | auto].
Qed.

Lemma capture_screenshot_total (u output_path : string) (config : ScreenshotConfig)
    (st : State World) :
  exists b, run (capture_screenshot u output_path config) st
            = (Returned b, (run (capture_screenshot u output_path config) st).2).
Proof.
  destruct (capture_screenshot_run u output_path config st) as (b & st' & _ & -> & _).
  now exists b.
Qed.

(** *** The loops over the posts *)

Lemma entry_of_Returned (output_path : string) (b : bool) (st : State World) :
  entry_of output_path (Returned b, st) = if b then Some output_path else None.
Proof. reflexivity. Qed.

(** The inner loop never raises; it assigns, in order, the entries its
    captures leave, and moves the counter on by the number of posts. *)
Lemma capture_posts_run (posts : list SearchResult) (config : ScreenshotConfig)
    (screenshots : CaptureOutcome) (idx : nat) (st : State World) :
  run (capture_posts posts config screenshots idx) st
  = (Returned (assign_all (attempts posts config idx st).1 screenshots,
               idx + length posts),
     (attempts posts config idx st).2).
Proof.
  revert screenshots idx st; induction posts as [|post rest IH];
    intros screenshots idx st.
  - simpl. now rewrite Nat.add_0_r.
  - cbn [capture_posts attempts]. rewrite run_bind. fold (output_path config (S idx)).
    destruct (capture_screenshot_total (url post) (output_path config (S idx)) config st)
      as (b & Hrun).
    rewrite Hrun at 1. rewrite IH. cbn [fst snd length assign_all foldl].
    rewrite Hrun at 3. rewrite entry_of_Returned.
    now rewrite Nat.add_succ_r.
Qed.

Lemma attempts_app (l1 l2 : list SearchResult) (config : ScreenshotConfig)
    (idx : nat) (st : State World) :
  attempts (l1 ++ l2) config idx st
  = ((attempts l1 config idx st).1
       ++ (attempts l2 config (idx + length l1) (attempts l1 config idx st).2).1,
     (attempts l2 config (idx + length l1) (attempts l1 config idx st).2).2).
Proof.
  revert idx st; induction l1 as [|post rest IH]; intros idx st.
  - simpl. rewrite Nat.add_0_r. now destruct (attempts l2 config idx st).
  - cbn [app attempts fst snd length]. rewrite IH. cbn [fst snd].
    now rewrite Nat.add_succ_r.
Qed.

Lemma assign_all_app (l1 l2 : list (string * option string)) (m : CaptureOutcome) :
  assign_all (l1 ++ l2) m = assign_all l2 (assign_all l1 m).
Proof. apply foldl_app. Qed.

(** The outer loop is the inner loop over all posts in iteration order. *)
Lemma capture_categories_run (results : ResultSet) (config : ScreenshotConfig)
    (screenshots : CaptureOutcome) (idx : nat) (st : State World) :
  run (capture_categories results config screenshots idx) st
  = (Returned (assign_all (attempts (all_posts results) config idx st).1 screenshots,
               idx + length (all_posts results)),
     (attempts (all_posts results) config idx st).2).
Proof.
  revert screenshots idx st; induction results as [|[cat posts] rest IH];
    intros screenshots idx st.
  - simpl. now rewrite Nat.add_0_r.
  - cbn [capture_categories]. rewrite run_bind, capture_posts_run. cbv beta iota.
    rewrite IH. unfold all_posts. cbn [map concat snd].
    rewrite attempts_app. cbn [fst snd].
    rewrite assign_all_app, length_app. now rewrite Nat.add_assoc.
Qed.

(** Every post gets its attempt, under its own URL. *)
Lemma attempts_urls (posts : list SearchResult) (config : ScreenshotConfig)
    (idx : nat) (st : State World) :
  (attempts posts config idx st).1.*1 = url <$> posts.
Proof.
  revert idx st; induction posts as [|post rest IH]; intros idx st; [reflexivity|].
  cbn [attempts fst]. rewrite !fmap_cons, IH. reflexivity.
Qed.

(** The attempt of the post at position [i] starts in the state the first
    [i] attempts leave, with the counter [idx + i + 1]. *)
Lemma attempts_lookup (posts : list SearchResult) (config : ScreenshotConfig)
    (idx : nat) (st : State World) (i : nat) (post : SearchResult) :
  posts !! i = Some post ->
  (attempts posts config idx st).1 !! i
  = Some (url post,
          entry_of (output_path config (S (idx + i)))
            (run (capture_screenshot (url post) (output_path config (S (idx + i))) config)
               (attempts (take i posts) config idx st).2)).
Proof.
  revert idx st i; induction posts as [|p rest IH]; intros idx st i Hi; [discriminate|].
  destruct i as [|i].
  - injection Hi as ->. cbn [attempts fst take snd]. now rewrite Nat.add_0_r.
  - cbn [attempts fst take snd]. rewrite lookup_cons_ne_0 by discriminate. cbn [pred].
    rewrite (IH _ _ _ Hi). now rewrite Nat.add_succ_r.
Qed.

End WithWorld.

(** *** Assigning entries *)

Lemma assign_all_lookup_notin (entries : list (string * option string))
    (m : CaptureOutcome) (k : string) :
  k ∉ entries.*1 -> assign_all entries m !! k = m !! k.
Proof.
  revert m; induction entries as [|[k' e] entries IH]; intros m Hk; [reflexivity|].
  rewrite fmap_cons in Hk. apply not_elem_of_cons in Hk as [Hne Hk].
  cbn [assign_all foldl fst snd]. fold (assign_all entries (<[k':=e]> m)).
  rewrite IH by exact Hk. apply lookup_insert_ne. cbn [fst] in Hne. congruence.
Qed.

(** The entry of a key is the one assigned to it last. *)
Lemma assign_all_lookup_last (entries : list (string * option string))
    (m : CaptureOutcome) (i : nat) (k : string) (e : option string) :
  entries !! i = Some (k, e) ->
  k ∉ (drop (S i) entries).*1 ->
  assign_all entries m !! k = Some e.
Proof.
  revert m i; induction entries as [|[k' e'] entries IH]; intros m i Hi Hk;
    [discriminate|].
  cbn [assign_all foldl fst snd]. fold (assign_all entries (<[k':=e']> m)).
  destruct i as [|i].
  - injection Hi as -> ->. rewrite skipn_cons, drop_0 in Hk.
    rewrite assign_all_lookup_notin by exact Hk. apply lookup_insert_eq.
  - apply (IH _ i); [exact Hi | exact Hk].
Qed.

Lemma assign_all_dom (entries : list (string * option string)) (m : CaptureOutcome) :
  dom (assign_all entries m) = list_to_set entries.*1 ∪ dom m.
Proof.
  revert m; induction entries as [|[k e] entries IH]; intros m.
  - simpl. set_solver.
  - cbn [assign_all foldl fst snd]. fold (assign_all entries (<[k:=e]> m)).
    rewrite IH, dom_insert_L, fmap_cons. set_solver.
Qed.

End CaptureFacts.

(* ===================================================================== *)
(** ** The query builder *)
(* ===================================================================== *)

Module QueryTheorems.
Import PyStr PyStrFacts Config Effects RunFacts Search Spec LoopFacts Scripted.

Lemma foldr_map {A B C} (f : B -> C -> C) (g : A -> B) (c : C) (l : list A) :
  foldr f c (map g l) = foldr (fun x acc => f (g x) acc) c l.
Proof. induction l as [|x l IH]; [reflexivity|]. simpl. now rewrite IH. Qed.

(** C9.  For a keyword list that is not empty the query is an opening
    parenthesis, the first keyword between two double quote characters
    (code 34), every further keyword between two double quote characters
    behind the word OR, a closing parenthesis, a space and the site clause.
    So every keyword occurs in it as a quoted phrase, and so does the site
    clause, which restricts to linkedin.com.  The builder is a function of
    its arguments alone: it lives outside the monad of effects, so it logs
    nothing and calls nothing. *)
Theorem build_search_query_shape (category : string) (keywords : list string) :
  let q := String "034"%char "" in
  let site := "(site:linkedin.com/posts OR site:linkedin.com/feed/update)" in
  keywords <> [] ->
  (forall kw, kw ∈ keywords ->
     Substring (q +:+ kw +:+ q) (build_search_query category keywords))
  /\ (exists kw rest,
        keywords = kw :: rest
        /\ build_search_query category keywords
           = "(" +:+ ((q +:+ kw +:+ q)
                      +:+ foldr (fun k acc => " OR " +:+ (q +:+ k +:+ q) +:+ acc) "" rest)
             +:+ ") " +:+ site)
  /\ Substring site (build_search_query category keywords)
  /\ Substring "site:linkedin.com" site.
Proof.
  intros q site Hne.
  assert (Hquote : forall kw, quote kw = q +:+ kw +:+ q) by reflexivity.
  unfold build_search_query. split; [|split; [|split]].
  - intros kw Hkw. rewrite <- Hquote. apply Substring_app_r, Substring_app_l.
    apply join_Substring, in_map, list_elem_of_In, Hkw.
  - destruct keywords as [|kw rest]; [contradiction|].
    exists kw, rest. split; [reflexivity|].
    rewrite map_cons, join_cons, foldr_map. reflexivity.
  - apply Substring_app_r, Substring_app_r, Substring_app_r, Substring_refl.
  - apply contains_spec. reflexivity.
Qed.

Lemma build_search_query_shape_witness :
  let q := String "034"%char "" in
  ["Battery Tester"; "Battery Cycler"] <> []
  /\ Substring (q +:+ "Battery Cycler" +:+ q)
       (build_search_query "Cell/Battery Tester" ["Battery Tester"; "Battery Cycler"])
  /\ Substring "(site:linkedin.com/posts OR site:linkedin.com/feed/update)"
       (build_search_query "Cell/Battery Tester" ["Battery Tester"; "Battery Cycler"]).
Proof.
  intros q.
  assert (Hne : ["Battery Tester"; "Battery Cycler"] <> []) by discriminate.
  split; [exact Hne|].
  destruct (build_search_query_shape "Cell/Battery Tester"
              ["Battery Tester"; "Battery Cycler"] Hne) as (Hkw & _ & Hsite & _).
  split; [|exact Hsite].
  apply Hkw. apply list_elem_of_further, list_elem_of_here.
Defined.

(** The example of the docstring, with both site restrictions. *)
Example build_search_query_docstring :
  build_search_query "Cell/Battery Tester" ["Battery Tester"; "Battery Cycler"]
  = "(" +:+ quote "Battery Tester" +:+ " OR " +:+ quote "Battery Cycler"
    +:+ ") (site:linkedin.com/posts OR site:linkedin.com/feed/update)".
Proof. reflexivity. Qed.

Section WithWorld.
Context {World : Type} `{Externals World}.

Lemma category_loop_site_filter (sf : string) (config : SearchConfig)
    (targets : list string) (all_results : ResultSet) (seen_urls : gset string)
    (st : State World) :
  run (category_loop targets (with_site_filter sf config) all_results seen_urls) st
  = run (category_loop targets config all_results seen_urls) st.
Proof.
  revert all_results seen_urls st; induction targets as [|c rest IH];
    intros all_results seen_urls st; [reflexivity|].
  rewrite !category_loop_cons. destruct (PyDict.get c KEYWORD_CATEGORIES) as [keywords|].
  - rewrite !run_bind.
    change (search_category c keywords (with_site_filter sf config))
      with (search_category c keywords config).
    destruct (run (search_category c keywords config) st) as [[results|e] st1];
      [|reflexivity].
    destruct (dedup results seen_urls []) as [seen' unique]. cbv beta iota.
    rewrite !run_bind, !run_log. apply IH.
  - rewrite !run_bind, !run_log. apply IH.
Qed.

(** C10.  The category name does not enter the query, and the site clause
    of every query is one fixed text.  The field [site_filter] of the
    configuration is read nowhere: changing it changes neither the request
    parameters nor anything a run of the search returns, sends or logs. *)
Theorem query_ignores_category_and_site_filter :
  (forall c1 c2 keywords, build_search_query c1 keywords = build_search_query c2 keywords)
  /\ (forall c keywords,
        exists keyword_clause,
          build_search_query c keywords
          = "(" +:+ keyword_clause
            +:+ ") (site:linkedin.com/posts OR site:linkedin.com/feed/update)")
  /\ (forall sf query config,
        search_params query (with_site_filter sf config) = search_params query config)
  /\ (forall sf config c keywords (st : State World),
        run (search_category c keywords (with_site_filter sf config)) st
        = run (search_category c keywords config) st)
  /\ (forall sf config categories (st : State World),
        run (search_all_categories (Some (with_site_filter sf config)) categories) st
        = run (search_all_categories (Some config) categories) st).
Proof.
  split; [reflexivity|]. split; [|split; [reflexivity|split; [reflexivity|]]].
  - intros c keywords. eexists. reflexivity.
  - intros sf config categories st. unfold search_all_categories.
    rewrite !run_bind, !run_ret.
    change (serpapi_key (with_site_filter sf config)) with (serpapi_key config).
    destruct (String.eqb (serpapi_key config) ""); [reflexivity|].
    rewrite !run_bind, category_loop_site_filter. reflexivity.
Qed.

End WithWorld.
End QueryTheorems.

(* ===================================================================== *)
(** ** The search client and the deduplicator *)
(* ===================================================================== *)

Module SearchTheorems.
Import PyStr PyStrFacts Config Effects RunFacts Search Spec SearchFacts DictFacts
  LoopFacts Scripted.

(** C1, on the list BESS, Competition, BESS.  Every one of the three
    searches returns the same post.  The first pass over BESS keeps it; the
    second pass finds it seen already and assigns the empty list to the same
    key, so the ResultSet returned holds the post nowhere. *)
Theorem repeated_category_loses_first_occurrence :
  let a := "https://www.linkedin.com/posts/acme_bess-launch" in
  let st := start {| env := ∅; replies := [found [a]; found [a]; found [a]];
                     answers := [] |} in
  urls_found (run (search_category "BESS" bess_keywords with_key) st) = Some [a]
  /\ urls_by_category
       (run (search_all_categories (Some with_key) (Some ["BESS"; "Competition"; "BESS"])) st)
     = Some [("BESS", []); ("Competition", [])].
Proof. vm_compute. split; reflexivity. Qed.

(** The scenario of the specification: A returns url1, url2 and B returns
    url2, url3; url2 stays with A. *)
Example first_category_keeps_shared_url :
  let u1 := "https://www.linkedin.com/posts/one" in
  let u2 := "https://www.linkedin.com/posts/two" in
  let u3 := "https://www.linkedin.com/posts/three" in
  let st := start {| env := ∅; replies := [found [u1; u2]; found [u2; u3]];
                     answers := [] |} in
  urls_by_category
    (run (search_all_categories (Some with_key) (Some ["BESS"; "Competition"])) st)
  = Some [("BESS", [u1; u2]); ("Competition", [u3])].
Proof. vm_compute. reflexivity. Qed.

(** C2 fails: one category, two raw hits that differ only in their query
    string.  The search returns the URL twice, the ResultSet holds it
    once. *)
Lemma duplicate_within_category_is_dropped :
  let a := "https://www.linkedin.com/posts/acme_bess-launch" in
  let st := start {| env := ∅;
                     replies := [found [a +:+ "?utm_source=share"; a +:+ "?trk=feed"]];
                     answers := [] |} in
  urls_found (run (search_category "BESS" bess_keywords with_key) st) = Some [a; a]
  /\ urls_by_category (run (search_all_categories (Some with_key) (Some ["BESS"])) st)
     = Some [("BESS", [a])].
Proof. vm_compute. split; reflexivity. Qed.

(** C4 fails when site membership is read as a statement about the host:
    the site test of the parser is textual, so a hit of another host whose
    path carries the text linkedin.com is kept, under a URL that is not on
    the site. *)
Lemma off_site_host_is_accepted :
  let link := "https://example.org/linkedin.com-news" in
  let st := start {| env := ∅; replies := [found [link]]; answers := [] |} in
  host_of link = "example.org"
  /\ host_on_site link = false
  /\ urls_found (run (search_category "BESS" bess_keywords with_key) st) = Some [link].
Proof. vm_compute. repeat split; reflexivity. Qed.

Example host_on_site_examples :
  host_on_site "https://www.linkedin.com/posts/acme_bess-launch?utm_source=share" = true
  /\ host_on_site "https://linkedin.com/feed/update/urn:li:activity:1" = true
  /\ host_on_site "https://notlinkedin.com/posts/x" = false
  /\ host_on_site "https://example.org/?ref=linkedin.com" = false.
Proof. vm_compute. repeat split; reflexivity. Qed.

(** C3 fails for the empty list: it is replaced by all configured
    categories, and what they find is returned. *)
Lemma empty_category_list_searches_all :
  let a := "https://www.linkedin.com/posts/acme_bess-launch" in
  let st := start {| env := ∅;
                     replies := [found [a]; found []; found []; found []; found []];
                     answers := [] |} in
  exists rs st',
    run (search_all_categories (Some with_key) (Some [])) st = (Returned rs, st')
    /\ total_results rs = 1
    /\ PyDict.keys rs = PyDict.keys KEYWORD_CATEGORIES.
Proof. vm_compute. eexists _, _. split; [reflexivity|]. split; reflexivity. Qed.

Section WithWorld.
Context {World : Type} `{Externals World}.

(** C2, as the code has it.  The running set takes a URL the moment a
    result is kept, so a repeat inside one raw list is dropped like a repeat
    from another category.  What the loop keeps of a list are posts of the
    list in its order, with no URL twice; a URL of the list is kept exactly
    when it was not seen before, and the post kept for it is the first of
    the list that carries it.  In every ResultSet that
    [search_all_categories] returns no URL occurs twice, neither in two
    categories nor twice in one list. *)
Theorem result_set_urls_unique (config : option SearchConfig)
    (categories : option (list string)) (st : State World) :
  (forall (results : list SearchResult) (seen_urls : gset string),
      NoDup (url <$> (dedup results seen_urls []).2)
      /\ sublist (dedup results seen_urls []).2 results
      /\ (forall u, u ∈ url <$> (dedup results seen_urls []).2
                    <-> u ∈ url <$> results /\ u ∉ seen_urls)
      /\ (forall i r,
            results !! i = Some r ->
            url r ∉ seen_urls ->
            url r ∉ url <$> take i results ->
            r ∈ (dedup results seen_urls []).2))
  /\ exists rs st',
       run (search_all_categories config categories) st = (Returned rs, st')
       /\ NoDup (all_urls rs)
       /\ forall c posts, PyDict.get c rs = Some posts -> NoDup (url <$> posts).
Proof.
  split.
  { intros results seen_urls. split; [apply dedup_NoDup|]. split; [apply dedup_sublist|].
    split; [intros u; apply dedup_elem_of | intros i r; apply dedup_first]. }
  pose proof (search_all_categories_run config categories st) as Hrun.
  cbv zeta in Hrun.
  assert (Hlists : forall rs : ResultSet, NoDup (all_urls rs) ->
            forall c posts, PyDict.get c rs = Some posts -> NoDup (url <$> posts)).
  { intros rs. unfold all_urls, all_posts.
    induction rs as [|[k v] rs IH]; simpl; intros Hnd c posts Hget; [discriminate|].
    rewrite fmap_app in Hnd. apply NoDup_app in Hnd as (Hv & _ & Hrs).
    destruct (String.eqb c k); [now injection Hget as <- | eauto]. }
  destruct (String.eqb _ "").
  - eexists _, _. split; [exact Hrun|]. split; [constructor | discriminate].
  - destruct Hrun as (raws & st' & _ & Hrun).
    eexists _, _. split; [exact Hrun|].
    pose proof (merge_Deduplicated raws [] ∅ Deduplicated_empty) as [Hnd _].
    split; [exact Hnd | exact (Hlists _ Hnd)].
Qed.

(** Going through names that are all unknown searches nothing: no list
    comes back, the world stays, and only warnings are written. *)
Lemma Searched_unknown_only (config : SearchConfig) (targets : list string)
    (st st' : State World) (raws : list (string * list SearchResult)) :
  Searched config targets st raws st' ->
  Forall (fun c => known c = false) targets ->
  raws = [] /\ world st' = world st
  /\ exists evs, trace st' = (trace st ++ evs)%list /\ requests_of evs = [].
Proof.
  induction 1 as [st | c rest st raws st' Hc _ IH
                 | c keywords rest st results st1 msg raws st' Hc _ _ _];
    intros Hunknown.
  - repeat split. exists []. now rewrite app_nil_r.
  - apply Forall_cons in Hunknown as [_ Hrest].
    destruct (IH Hrest) as (-> & Hw & evs & Htr & Hreq).
    repeat split; [exact Hw|]. eexists (_ :: evs). cbn [after_log trace] in Htr.
    rewrite Htr, <- List.app_assoc. split; [reflexivity | exact Hreq].
  - apply Forall_cons in Hunknown as [Hk _].
    unfold known, PyDict.mem in Hk. now rewrite Hc in Hk.
Qed.

(** C3, as the code has it.  A list that is not empty and names no
    configured category yields the empty ResultSet, so zero results; nothing
    is raised, no request goes out, and the world is as it was.  An empty
    list does not belong here: it stands for all configured categories,
    like no list at all.  An unknown name anywhere in a list costs one
    warning and the loop goes on with the rest. *)
Theorem unknown_categories_yield_nothing (config : option SearchConfig)
    (categories : list string) (st : State World) :
  categories <> [] ->
  Forall (fun c => known c = false) categories ->
  (exists st' evs,
      run (search_all_categories config (Some categories)) st = (Returned [], st')
      /\ total_results [] = 0
      /\ world st' = world st
      /\ trace st' = (trace st ++ evs)%list
      /\ requests_of evs = [])
  /\ search_all_categories config (Some []) = search_all_categories config None
  /\ (forall cfg c rest all_results seen_urls,
        known c = false ->
        category_loop (c :: rest) cfg all_results seen_urls
        = (log WARNING ("Unknown category: " +:+ c +:+ ", skipping.");;
           category_loop rest cfg all_results seen_urls)).
Proof.
  intros Hne Hunknown. split; [|split; [reflexivity|]]; cycle 1.
  { intros cfg c rest all_results seen_urls Hc. rewrite category_loop_cons.
    unfold known, PyDict.mem in Hc.
    destruct (PyDict.get c KEYWORD_CATEGORIES); [discriminate | reflexivity]. }
  pose proof (search_all_categories_run config (Some categories) st) as Hrun.
  cbv zeta in Hrun. destruct (String.eqb _ "").
  - eexists _, [_]. split; [exact Hrun|]. now repeat split.
  - destruct Hrun as (raws & st' & Hs & Hrun).
    assert (Htargets : target_categories (Some categories) = categories)
      by (destruct categories; [contradiction | reflexivity]).
    rewrite Htargets in Hs.
    pose proof (Searched_unknown_only _ _ _ _ _ Hs Hunknown) as Hnone.
    destruct Hnone as (-> & Hw & evs & Htr & Hreq).
    eexists _, (evs ++ [_])%list. split; [exact Hrun|].
    split; [reflexivity|]. split; [exact Hw|]. cbn [after_log trace]. split.
    + now rewrite Htr, <- List.app_assoc.
    + rewrite requests_of_app, Hreq. reflexivity.
Qed.

(** C4, as the code has it.  A search never raises.  Every result it
    returns has a URL that contains the text linkedin.com and no question
    mark.  When the provider answered, the results are, in order, the hits
    whose link without its query string contains the text linkedin.com, each
    under that stripped link; every hit kept has the text in its link, so a
    hit without it is skipped. *)
Theorem search_category_results_on_site (cat : string) (keywords : list string)
    (config : SearchConfig) (st : State World) :
  exists rs st',
    run (search_category cat keywords config) st = (Returned rs, st')
    /\ Forall (fun r => on_site (url r) = true /\ has_char qmark (url r) = false) rs
    /\ forall results w1,
         serp_get_dict (search_params (build_search_query cat keywords) config) (world st)
         = (Returned results, w1) ->
         exists kept,
           kept = filter (fun l => on_site (strip_query l) = true)
                    (map link_of (default [] (organic_results results)))
           /\ map url rs = map strip_query kept
           /\ Forall (fun l => on_site l = true) kept.
Proof.
  pose proof (search_category_run cat keywords config st) as Hrun.
  cbv zeta in Hrun.
  destruct (serp_get_dict _ (world st)) as [[results | e] w1]; cbn [fst snd] in Hrun.
  - destruct Hrun as (rs & w' & Hrun & Hurls & _).
    eexists rs, _. split; [exact Hrun|].
    set (kept := filter _ _) in Hurls.
    assert (Hkept : Forall (fun l => on_site (strip_query l) = true) kept).
    { apply Forall_forall. intros l Hl. unfold kept in Hl.
      apply list_elem_of_filter in Hl as [Hl _]. exact Hl. }
    split.
    + apply Forall_map with (f := url)
        (P := fun u => on_site u = true /\ has_char qmark u = false).
      rewrite Hurls. apply Forall_map. eapply Forall_impl; [exact Hkept|].
      intros l Hl. split; [exact Hl | apply split_head_no_sep].
    + intros results' w1' Heq. injection Heq as <- <-.
      exists kept. split; [reflexivity|]. split; [exact Hurls|].
      eapply Forall_impl; [exact Hkept|]. intros l. apply on_site_strip_query.
  - eexists [], _. split; [exact Hrun|]. split; [constructor | discriminate].
Qed.

(** C5.  With an empty key the call returns the empty ResultSet at once:
    the world is untouched, and the only thing it leaves is the error
    record.  With any other key that record is never written, the loop runs
    to its end without raising, one request goes out for each configured
    name of the target list, in order, and each of these names has an entry
    in the ResultSet returned. *)
Theorem missing_key_is_the_only_abort (config : option SearchConfig)
    (categories : option (list string)) (st : State World) :
  let cfg := effective_config config st in
  (serpapi_key cfg = "" ->
     run (search_all_categories config categories) st
     = (Returned [],
        {| world := world st;
           trace := (trace st ++ [Logged ERROR missing_key_diagnostic])%list |}))
  /\ (serpapi_key cfg <> "" ->
      exists rs st' evs,
        run (search_all_categories config categories) st = (Returned rs, st')
        /\ trace st' = (trace st ++ evs)%list
        /\ Forall quiet evs
        /\ requests_of evs = omap (request_for cfg) (target_categories categories)
        /\ forall c, c ∈ target_categories categories -> known c = true ->
                     PyDict.mem c rs = true).
Proof.
  intros cfg.
  pose proof (search_all_categories_run config categories st) as Hrun.
  cbv zeta in Hrun. fold cfg in Hrun.
  destruct (String.eqb_spec (serpapi_key cfg) "") as [Hkey|Hkey].
  - split; [intros _; exact Hrun | contradiction].
  - split; [contradiction | intros _].
    destruct Hrun as (raws & st' & Hs & Hrun).
    destruct (Searched_trace _ _ _ _ _ Hs) as (evs & Htr & Hreq & Hq).
    eexists _, _, (evs ++ [_])%list. split; [exact Hrun|]. cbn [after_log trace].
    split; [now rewrite Htr, <- List.app_assoc|]. split; [|split].
    + apply Forall_app. split; [exact Hq|]. constructor; [discriminate | constructor].
    + rewrite requests_of_app, Hreq. cbn. now rewrite app_nil_r.
    + intros c Hc Hk. rewrite merge_mem, (Searched_names _ _ _ _ _ Hs).
      rewrite bool_decide_eq_true_2; [reflexivity|].
      apply list_elem_of_filter. split; [exact Hk | exact Hc].
Qed.

(** C6.  When the provider raises on the request of a category, the search
    of that category does not raise: it writes the error record and returns
    the empty list.  In the loop the category then gets the empty list, the
    set of seen URLs stays as it was, and the rest of the list is processed
    from there; a search never raises whatever the provider does, and
    neither does the whole run. *)
Theorem provider_failure_is_contained (cat : string) (keywords : list string)
    (config : SearchConfig) (st : State World) (e : PyException) (w1 : World) :
  let params := search_params (build_search_query cat keywords) config in
  let failed :=
    {| world := w1;
       trace := (trace st ++ [Logged INFO (searching_msg cat keywords);
                              Requested params;
                              Logged ERROR (failed_msg cat e)])%list |} in
  serp_get_dict params (world st) = (Raised e, w1) ->
  run (search_category cat keywords config) st = (Returned [], failed)
  /\ (forall rest all_results seen_urls,
        PyDict.get cat KEYWORD_CATEGORIES = Some keywords ->
        exists msg,
          run (category_loop (cat :: rest) config all_results seen_urls) st
          = run (category_loop rest config (PyDict.set cat [] all_results) seen_urls)
              (after_log failed INFO msg))
  /\ (forall cat' keywords' st0, exists rs st',
        run (search_category cat' keywords' config) st0 = (Returned rs, st'))
  /\ (forall categories st0, exists rs st',
        run (search_all_categories (Some config) categories) st0 = (Returned rs, st')).
Proof.
  intros params failed Hfail.
  pose proof (search_category_run cat keywords config st) as Hrun.
  cbv zeta in Hrun. fold params in Hrun. rewrite Hfail in Hrun. cbn [fst snd] in Hrun.
  split; [|split; [|split]].
  - rewrite Hrun. unfold failed. now rewrite <- List.app_assoc.
  - intros rest all_results seen_urls Hc. eexists.
    rewrite category_loop_cons, Hc, run_bind, Hrun. simpl dedup. cbv beta iota.
    rewrite run_bind, run_log. unfold after_log, failed. cbn [world trace].
    now rewrite <- !List.app_assoc.
  - intros cat' keywords' st0. apply search_category_total.
  - intros categories st0.
    pose proof (search_all_categories_run (Some config) categories st0) as Hall.
    cbv zeta in Hall. destruct (String.eqb _ "").
    + eauto.
    + destruct Hall as (raws & st' & _ & Hall). eauto.
Qed.

(** X1.  First occurrence wins, for the lists the code is written for:
    when the key is set and no configured category is named twice, a URL
    that the searches of several categories returned stays with the first
    of them, once, and with no other. *)
Lemma first_category_keeps_url (config : option SearchConfig)
    (categories : option (list string)) (st : State World) :
  let cfg := effective_config config st in
  serpapi_key cfg <> "" ->
  NoDup (filter (fun c => known c = true) (target_categories categories)) ->
  exists raws st1 rs st',
    Searched cfg (target_categories categories) st raws st1
    /\ run (search_all_categories config categories) st = (Returned rs, st')
    /\ forall pre c results post u,
         raws = pre ++ (c, results) :: post ->
         u ∈ url <$> results ->
         (forall c' results', (c', results') ∈ pre -> u ∉ url <$> results') ->
         (exists kept, PyDict.get c rs = Some kept
                       /\ u ∈ url <$> kept /\ NoDup (url <$> kept))
         /\ forall c' posts, c' <> c -> PyDict.get c' rs = Some posts ->
                             u ∉ url <$> posts.
Proof.
  intros cfg Hkey Hnd.
  pose proof (search_all_categories_run config categories st) as Hrun.
  cbv zeta in Hrun. fold cfg in Hrun.
  apply String.eqb_neq in Hkey. rewrite Hkey in Hrun.
  destruct Hrun as (raws & st1 & Hs & Hrun).
  exists raws, st1. eexists _, _. split; [exact Hs|]. split; [exact Hrun|].
  intros pre c results post u -> Hu Hpre.
  apply merge_first_wins; [|exact Hu|exact Hpre].
  now rewrite (Searched_names _ _ _ _ _ Hs).
Qed.

End WithWorld.

(** *** The theorems at work on scripted runs *)

Lemma unknown_categories_yield_nothing_witness :
  let st := start {| env := ∅; replies := [found ["https://www.linkedin.com/posts/x"]];
                     answers := [] |} in
  ["Solar"; "Wind"] <> []
  /\ Forall (fun c => known c = false) ["Solar"; "Wind"]
  /\ exists st', run (search_all_categories (Some with_key) (Some ["Solar"; "Wind"])) st
                 = (Returned [], st')
                 /\ world st' = world st.
Proof.
  intros st.
  assert (Hne : ["Solar"; "Wind"] <> []) by discriminate.
  assert (Hunknown : Forall (fun c => known c = false) ["Solar"; "Wind"])
    by (repeat constructor).
  split; [exact Hne|]. split; [exact Hunknown|].
  destruct (unknown_categories_yield_nothing (Some with_key) _ st Hne Hunknown)
    as ((st' & evs & Hrun & _ & Hw & _) & _).
  exists st'. split; [exact Hrun | exact Hw].
Defined.

Lemma search_category_results_on_site_witness :
  let a := "https://www.linkedin.com/posts/acme_bess-launch" in
  let st := start {| env := ∅;
                     replies := [found [a +:+ "?utm_source=share";
                                        "https://example.org/?ref=linkedin.com";
                                        "https://example.org/battery-news"]];
                     answers := [] |} in
  exists rs st',
    run (search_category "BESS" bess_keywords with_key) st = (Returned rs, st')
    /\ Forall (fun r => on_site (url r) = true /\ has_char qmark (url r) = false) rs
    /\ map url rs = [a].
Proof.
  intros a st.
  destruct (search_category_results_on_site "BESS" bess_keywords with_key st)
    as (rs & st' & Hrun & Hall & Hkept).
  destruct (Hkept _ _ eq_refl) as (kept & Hk & Hurls & _).
  exists rs, st'. split; [exact Hrun|]. split; [exact Hall|].
  rewrite Hurls, Hk. vm_compute. reflexivity.
Defined.

Lemma missing_key_is_the_only_abort_witness :
  let st := start {| env := {[ "SERPAPI_KEY" := "" ]};
                     replies := [found ["https://www.linkedin.com/posts/x"]];
                     answers := [] |} in
  run (search_all_categories None None) st
  = (Returned [], {| world := world st; trace := [Logged ERROR missing_key_diagnostic] |})
  /\ exists rs st' evs,
       run (search_all_categories (Some with_key) (Some ["BESS"; "Solar"])) st
       = (Returned rs, st')
       /\ trace st' = evs
       /\ Forall quiet evs
       /\ requests_of evs = [search_params (build_search_query "BESS" bess_keywords) with_key].
Proof.
  intros st. split.
  - apply (proj1 (missing_key_is_the_only_abort None None st)). reflexivity.
  - destruct (proj2 (missing_key_is_the_only_abort (Some with_key)
                       (Some ["BESS"; "Solar"]) st))
      as (rs & st' & evs & Hrun & Htr & Hq & Hreq & _); [discriminate|].
    exists rs, st', evs. split; [exact Hrun|]. split; [exact Htr|].
    split; [exact Hq | exact Hreq].
Defined.

Lemma provider_failure_is_contained_witness :
  let st := start {| env := ∅;
                     replies := [Raised "HTTPSConnectionPool: Max retries exceeded";
                                 found ["https://www.linkedin.com/posts/x"]];
                     answers := [] |} in
  let params := search_params (build_search_query "BESS" bess_keywords) with_key in
  serp_get_dict params (world st)
  = (Raised "HTTPSConnectionPool: Max retries exceeded",
     {| env := ∅; replies := [found ["https://www.linkedin.com/posts/x"]]; answers := [] |})
  /\ exists st', run (search_category "BESS" bess_keywords with_key) st = (Returned [], st')
                 /\ last (trace st')
                    = Some (Logged ERROR
                              (failed_msg "BESS" "HTTPSConnectionPool: Max retries exceeded")).
Proof.
  intros st params. split; [reflexivity|].
  eexists. split.
  - exact (proj1 (provider_failure_is_contained "BESS" bess_keywords with_key st
                    _ _ eq_refl)).
  - reflexivity.
Defined.

End SearchTheorems.

Module CaptureTheorems.
Import PyStr PyStrFacts Config Effects RunFacts Search Screenshot Spec CaptureFacts
  Scripted.

Section WithWorld.
Context {World : Type} `{Externals World}.

(** Once the output directory is there, the batch runs every capture and
    returns the dictionary of the entries they leave. *)
Lemma capture_all_screenshots_run (results : ResultSet)
    (config : option ScreenshotConfig) (st : State World) (w1 : World) :
  let cfg := effective_shots config in
  let st1 := {| world := w1; trace := trace st ++ [MadeDirs (output_dir cfg)] |} in
  installed (World := World) ->
  os_makedirs (output_dir cfg) (world st) = (Returned tt, w1) ->
  exists st',
    run (capture_all_screenshots results config) st
    = (Returned (assign_all (attempts (all_posts results) cfg 0 st1).1 ∅), st').
Proof.
  intros cfg st1 Hinst Hdir. unfold capture_all_screenshots.
  fold (effective_shots config).
  fold cfg. rewrite run_bind, run_external, Hdir. cbn [fst snd]. fold st1.
  rewrite run_bind, (capture_categories_run Hinst). cbv beta iota.
  rewrite run_bind, run_log. cbv beta iota. rewrite run_ret. eauto.
Qed.


Lemma NoDup_later {A} (l : list A) (i : nat) (x : A) :
  NoDup l -> l !! i = Some x -> x ∉ drop (S i) l.
Proof.
  intros Hnd Hi Hin. apply list_elem_of_lookup in Hin as [j Hj].
  rewrite lookup_drop in Hj. pose proof (NoDup_lookup _ _ _ _ Hnd Hi Hj). lia.
Qed.

(** The entry of a post that is not captured again later is the one its
    own capture leaves. *)
Lemma attempts_entry (posts : list SearchResult) (config : ScreenshotConfig)
    (st : State World) (i : nat) (post : SearchResult) :
  posts !! i = Some post ->
  url post ∉ url <$> drop (S i) posts ->
  assign_all (attempts posts config 0 st).1 ∅ !! url post
  = Some (entry_of (output_path config (S i))
            (run (capture_screenshot (url post) (output_path config (S i)) config)
               (attempts (take i posts) config 0 st).2)).
Proof.
  intros Hi Hlater. eapply assign_all_lookup_last.
  - rewrite (attempts_lookup _ _ _ _ _ _ Hi). reflexivity.
  - now rewrite fmap_drop, attempts_urls, <- fmap_drop.
Qed.


(** C8, as the code has it.  For a ResultSet without a repeated URL, with
    Playwright installed and once the output directory is there, the batch
    returns a dictionary whose keys are exactly the URLs of the ResultSet,
    one entry for each post; the entry of the post at position [i] is the
    path with counter [i + 1] when its capture returned True and the absence
    marker otherwise. *)
Theorem capture_all_one_entry_per_url (results : ResultSet)
    (config : option ScreenshotConfig) (st : State World) (w1 : World) :
  let cfg := effective_shots config in
  let st1 := {| world := w1; trace := trace st ++ [MadeDirs (output_dir cfg)] |} in
  NoDup (all_urls results) ->
  installed (World := World) ->
  os_makedirs (output_dir cfg) (world st) = (Returned tt, w1) ->
  exists m st',
    run (capture_all_screenshots results config) st = (Returned m, st')
    /\ dom m = list_to_set (all_urls results)
    /\ size m = length (all_posts results)
    /\ forall i post,
         all_posts results !! i = Some post ->
         let path := output_path cfg (S i) in
         let before := (attempts (take i (all_posts results)) cfg 0 st1).2 in
         exists b,
           (run (capture_screenshot (url post) path cfg) before).1 = Returned b
           /\ m !! url post = Some (if b then Some path else None).
Proof.
  intros cfg st1 Hnd Hinst Hdir.
  destruct (capture_all_screenshots_run results config st w1 Hinst Hdir)
    as (st' & Hrun).
  fold cfg st1 in Hrun. eexists _, st'. split; [exact Hrun|].
  assert (Hdom : dom (assign_all (attempts (all_posts results) cfg 0 st1).1 ∅)
                 = list_to_set (all_urls results)).
  { rewrite assign_all_dom, attempts_urls, dom_empty_L. unfold all_urls. set_solver. }
  split; [exact Hdom|]. split.
  - rewrite <- size_dom, Hdom, size_list_to_set by exact Hnd.
    unfold all_urls. apply length_fmap.
  - intros i post Hi path before.
    destruct (capture_screenshot_total Hinst (url post) path cfg before) as (b & Hb).
    exists b. split; [now rewrite Hb|].
    rewrite (attempts_entry _ _ _ _ _ Hi).
    + fold path before. rewrite Hb. reflexivity.
    + rewrite fmap_drop. apply NoDup_later; [exact Hnd|]. unfold all_urls.
      now rewrite list_lookup_fmap, Hi.
Qed.

End WithWorld.

(** *** The theorems at work on a scripted batch: the navigation of the
    first post times out, the second post is captured. *)



(** C8 fails without Playwright: the directory is made, the import of the
    first capture raises, and the batch raises with it; no dictionary comes
    back and the second post is never tried. *)
Lemma missing_playwright_aborts_batch :
  let st := {| world := {| machine := world first_times_out |}; trace := [] |} in
  NoDup (all_urls two_posts)
  /\ os_makedirs (output_dir shots) (world st) = (Returned tt, world st)
  /\ run (capture_all_screenshots two_posts (Some shots)) st
     = (Raised MISSING_MODULE,
        {| world := world st;
           trace := [MadeDirs "/srv/monitor/screenshots";
                     Drove ImportAsyncApi (Raised MISSING_MODULE)] |}).
Proof.
  cbv zeta. split; [|split; reflexivity].
  apply NoDup_cons. split; [|apply NoDup_singleton].
  intros Hin. apply list_elem_of_In in Hin. simpl in Hin.
  destruct Hin as [Heq|[]]. discriminate Heq.
Qed.


Lemma capture_all_one_entry_per_url_witness :
  NoDup (all_urls two_posts)
  /\ installed (World := Script)
  /\ os_makedirs (output_dir shots) (world first_times_out)
     = (Returned tt, world first_times_out)
  /\ exists m st',
       run (capture_all_screenshots two_posts (Some shots)) first_times_out
       = (Returned m, st')
       /\ size m = 2
       /\ dom m = {[ "https://www.linkedin.com/posts/one";
                     "https://www.linkedin.com/posts/two" ]}.
Proof.
  assert (Hnd : NoDup (all_urls two_posts)).
  { apply NoDup_cons. split; [|apply NoDup_singleton].
    intros Hin. apply list_elem_of_In in Hin. simpl in Hin.
    destruct Hin as [Heq|[]]. discriminate Heq. }
  assert (Hinst : installed (World := Script)) by (intros w; exists true; reflexivity).
  assert (Hdir : os_makedirs (output_dir shots) (world first_times_out)
                 = (Returned tt, world first_times_out)) by reflexivity.
  split; [exact Hnd|]. split; [exact Hinst|]. split; [exact Hdir|].
  destruct (capture_all_one_entry_per_url two_posts (Some shots) first_times_out
              (world first_times_out) Hnd Hinst Hdir)
    as (m & st' & Hrun & Hdom & Hsize & _).
  exists m, st'. split; [exact Hrun|]. split; [exact Hsize|].
  rewrite Hdom. unfold all_urls, two_posts, all_posts. simpl. set_solver.
Defined.

End CaptureTheorems.

(* ===================================================================== *)
(** ** What every computation keeps *)
(* ===================================================================== *)

Module KeepFacts.
Import PyStr PyStrFacts Config Effects RunFacts Search Screenshot Spec Notions.

Section Frame.
Context {World : Type} `{Externals World}.
Variable R : World -> World -> Prop.
Hypothesis R_refl : forall w, R w w.
Hypothesis R_trans : forall w1 w2 w3, R w1 w2 -> R w2 w3 -> R w1 w3.

Lemma keeps_ret (P : Event -> Prop) {A} (a : A) : keeps R P (mret a).
Proof.
  intros st. rewrite run_ret. split; [apply R_refl|].
  exists []. now rewrite app_nil_r.
Qed.

Lemma keeps_raise (P : Event -> Prop) {A} (e : PyException) : keeps R P (raise (A := A) e).
Proof.
  intros st. split; [apply R_refl|]. exists []. cbn. now rewrite app_nil_r.
Qed.

Lemma keeps_bind (P : Event -> Prop) {A B} (m : M A) (k : A -> M B) :
  keeps R P m -> (forall a, keeps R P (k a)) -> keeps R P (m ≫= k).
Proof.
  intros Hm Hk st. rewrite run_bind.
  destruct (Hm st) as (HR & evs1 & Htr1 & HP1).
  destruct (run m st) as [[a|e] st1]; cbn [fst snd] in *.
  - destruct (Hk a st1) as (HR2 & evs2 & Htr2 & HP2).
    split; [eapply R_trans; eassumption|].
    exists (evs1 ++ evs2). rewrite Htr2, Htr1, <- List.app_assoc.
    split; [reflexivity|]. apply Forall_app. now split.
  - split; [exact HR|]. now exists evs1.
Qed.

Lemma keeps_log (P : Event -> Prop) (lvl : Level) (msg : string) :
  P (Logged lvl msg) -> keeps R P (log lvl msg).
Proof.
  intros HP st. rewrite run_log. split; [apply R_refl|].
  exists [Logged lvl msg]. split; [reflexivity|]. now constructor.
Qed.

Lemma keeps_external (P : Event -> Prop) {A} (ev : Outcome A -> Event)
    (f : World -> Outcome A * World) :
  (forall w, R w (f w).2) -> (forall o, P (ev o)) -> keeps R P (external ev f).
Proof.
  intros Hf HP st. rewrite run_external. split; [apply Hf|].
  eexists [_]. split; [reflexivity|]. constructor; [apply HP | constructor].
Qed.

Lemma keeps_attempt (P : Event -> Prop) {A} (m : M A) :
  keeps R P m -> keeps R P (attempt m).
Proof. intros Hm st. rewrite run_attempt. exact (Hm st). Qed.


Lemma keeps_weaken (P P' : Event -> Prop) {A} (m : M A) :
  (forall ev, P ev -> P' ev) -> keeps R P m -> keeps R P' m.
Proof.
  intros Himp Hm st. destruct (Hm st) as (HR & evs & Htr & HP).
  split; [exact HR|]. exists evs. split; [exact Htr|].
  eapply Forall_impl; [exact HP | exact Himp].
Qed.

(** From here on the collaborators move the world along [R]. *)
Hypothesis R_clock : forall w, R w (utcnow_isoformat w).2.
Hypothesis R_serp : forall p w, R w (serp_get_dict p w).2.
Hypothesis R_playwright : forall c w, R w (playwright c w).2.
Hypothesis R_makedirs : forall path w, R w (os_makedirs path w).2.


(** *** The search side *)





(** *** The capture side *)

Lemma keeps_call (P : Event -> Prop) (c : PlaywrightCall) :
  (forall o, P (Drove c o)) -> keeps R P (call c).
Proof. intros HP. apply keeps_external; [apply R_playwright | exact HP]. Qed.

Lemma keeps_dismiss_popups (P : Event -> Prop) (selectors : list string) :
  (forall c o, inside_session (Drove c o) -> P (Drove c o)) ->
  keeps R P (dismiss_popups selectors).
Proof.
  intros HP. induction selectors as [|selector rest IH]; [apply keeps_ret|].
  cbn [dismiss_popups].
  apply keeps_bind; [apply keeps_call; intros o; now apply HP | intros visible].
  apply keeps_bind; [|intros _; exact IH].
  destruct visible; [|apply keeps_ret].
  apply keeps_bind; [apply keeps_call; intros o; now apply HP | intros _].
  apply keeps_bind; [apply keeps_call; intros o; now apply HP | intros _].
  apply keeps_ret.
Qed.

Lemma guarded_capture_unfold (u output_path : string) (config : ScreenshotConfig) :
  guarded_capture u output_path config
  = (o ← attempt (with_async_playwright (session_body u output_path config));
     match o with
     | Returned b => mret b
     | Raised e =>
         log WARNING ("Failed to screenshot " +:+ u +:+ ": " +:+ e);;
         mret false
     end).
Proof. reflexivity. Qed.

Lemma keeps_session_body (P : Event -> Prop) (u output_path : string)
    (config : ScreenshotConfig) :
  (forall lvl msg, P (Logged lvl msg)) ->
  (forall c o, inside_session (Drove c o) -> P (Drove c o)) ->
  keeps R P (session_body u output_path config).
Proof.
  intros Hlog HP. unfold session_body.
  repeat (apply keeps_bind;
          [first [ apply keeps_call; intros o; now apply HP
                 | apply keeps_attempt, keeps_dismiss_popups, HP
                 | apply keeps_log, Hlog ]
          | intros ? ]).
  apply keeps_ret.
Qed.

Lemma keeps_with_async_playwright (P : Event -> Prop) {A} (body : M A) :
  (forall o, P (Drove AsyncPlaywrightEnter o)) ->
  (forall o, P (Drove AsyncPlaywrightExit o)) ->
  keeps R P body -> keeps R P (with_async_playwright body).
Proof.
  intros Hin Hout Hbody. unfold with_async_playwright.
  apply keeps_bind; [now apply keeps_call | intros _].
  apply keeps_bind; [now apply keeps_attempt | intros o].
  apply keeps_bind; [now apply keeps_call | intros _].
  destruct o; [apply keeps_ret | apply keeps_raise].
Qed.

(** The guarded part of a capture adds log records and browser calls
    other than the import. *)
Lemma keeps_guarded_capture (P : Event -> Prop) (u output_path : string)
    (config : ScreenshotConfig) :
  (forall lvl msg, P (Logged lvl msg)) ->
  (forall c o, c <> ImportAsyncApi -> P (Drove c o)) ->
  keeps R P (guarded_capture u output_path config).
Proof.
  intros Hlog Hcall. rewrite guarded_capture_unfold. apply keeps_bind.
  - apply keeps_attempt, keeps_with_async_playwright;
      [intros o; now apply Hcall | intros o; now apply Hcall |].
    apply keeps_session_body; [exact Hlog|].
    intros c o Hc. apply Hcall. intros ->. exact Hc.
  - intros [b|e]; [apply keeps_ret|].
    apply keeps_bind; [apply keeps_log, Hlog | intros _; apply keeps_ret].
Qed.





End Frame.
End KeepFacts.

(* ===================================================================== *)
(** ** More about the search client *)
(* ===================================================================== *)

Module MoreSearch.
Import PyStr PyStrFacts Config Effects RunFacts Search Spec SearchFacts DictFacts
  LoopFacts Scripted Notions.

(** X2.  Cleaning a link is idempotent: a cleaned link is its own cleaned
    form, so the identity of a post does not change when a URL already
    cleaned comes back from the provider.  A cleaned link that contains the
    text linkedin.com holds no question mark. *)
Theorem clean_linkedin_url_idempotent (link : string) :
  _clean_linkedin_url (_clean_linkedin_url link) = _clean_linkedin_url link
  /\ (contains "linkedin.com" (_clean_linkedin_url link) = true ->
      has_char qmark (_clean_linkedin_url link) = false).
Proof.
  unfold _clean_linkedin_url.
  destruct (contains "linkedin.com" link) eqn:E.
  - split.
    + destruct (contains "linkedin.com" (split_head qmark link)); [|reflexivity].
      apply split_head_id, split_head_no_sep.
    + intros _. apply split_head_no_sep.
  - rewrite E. split; [reflexivity | discriminate].
Qed.

Lemma clean_linkedin_url_idempotent_witness :
  let link := "https://www.linkedin.com/posts/acme_bess-launch?utm_source=share" in
  contains "linkedin.com" (_clean_linkedin_url link) = true
  /\ has_char qmark (_clean_linkedin_url link) = false.
Proof.
  intros link.
  assert (Hc : contains "linkedin.com" (_clean_linkedin_url link) = true) by reflexivity.
  split; [exact Hc|].
  exact (proj2 (clean_linkedin_url_idempotent link) Hc).
Defined.

Section WithWorld.
Context {World : Type} `{Externals World}.

Lemma parse_organic_fields (cat : string) (organic : list Item)
    (parsed : list SearchResult) (st : State World) :
  exists rs st',
    run (parse_organic cat organic parsed) st = (Returned (parsed ++ rs), st')
    /\ Forall2 (parsed_as cat) rs (accepted organic).
Proof.
  revert parsed st; induction organic as [|item rest IH]; intros parsed st.
  - exists [], st. rewrite app_nil_r. split; [reflexivity | constructor].
  - cbn [parse_organic]. fold (link_of item). rewrite clean_on_site.
    unfold accepted. rewrite filter_cons.
    destruct (decide (on_site (strip_query (link_of item)) = true)) as [Hs|Hs].
    + rewrite Hs. cbn [negb]. cbv iota. rewrite run_bind.
      unfold utcnow at 1, run at 1.
      destruct (utcnow_isoformat (world st)) as [now w1].
      match goal with
      | |- context [parse_organic cat rest ?p] =>
          destruct (IH p {| world := w1; trace := trace st |}) as (rs & st' & Hrun & Hf)
      end.
      eexists (_ :: rs), st'. rewrite Hrun, <- List.app_assoc.
      split; [reflexivity|]. constructor; [|exact Hf].
      unfold parsed_as. cbn [title url snippet category].
      now rewrite (clean_accepted _ Hs).
    + apply not_true_is_false in Hs. rewrite Hs. cbn [negb]. cbv iota. apply IH.
Qed.

(** X3.  When the provider answers, the results of a search are the hits
    whose link without its query string contains the text linkedin.com, one
    record for each, in the order of the answer: the title is the title of
    the hit, or Untitled Post when the hit has none; the snippet is the
    snippet of the hit, or empty when it has none; the URL is the stripped
    link; the category is the one searched.  A hit without a link or a
    missing list of hits gives no record. *)
Theorem search_category_records (cat : string) (keywords : list string)
    (config : SearchConfig) (st : State World) (results : SerpResults) (w1 : World) :
  serp_get_dict (search_params (build_search_query cat keywords) config) (world st)
  = (Returned results, w1) ->
  exists rs st',
    run (search_category cat keywords config) st = (Returned rs, st')
    /\ Forall2 (parsed_as cat) rs (accepted (default [] (organic_results results)))
    /\ (organic_results results = None -> rs = [])
    /\ Forall (fun item => item !! "link" <> None)
         (accepted (default [] (organic_results results))).
Proof.
  intros Hreply. unfold search_category.
  rewrite run_bind, run_log, run_bind, run_attempt, run_external.
  cbn [world trace fst snd]. rewrite Hreply. cbn [fst snd].
  rewrite run_bind, run_log.
  match goal with
  | |- context [run (parse_organic cat ?o []) ?s] =>
      destruct (parse_organic_fields cat o [] s) as (rs & st' & Hrun & Hf)
  end.
  exists rs, st'. split; [exact Hrun|]. split; [exact Hf|]. split.
  - intros Hnone. rewrite Hnone in Hf. inversion Hf. reflexivity.
  - apply Forall_forall. intros item Hitem Hlink.
    apply list_elem_of_filter in Hitem as [Hon _].
    unfold link_of in Hon. rewrite Hlink in Hon. discriminate Hon.
Qed.

End WithWorld.

Lemma search_category_records_witness :
  let a := "https://www.linkedin.com/posts/acme_bess-launch" in
  let st := start {| env := ∅;
                     replies := [Returned {| organic_results :=
                                   Some [ {[ "link" := a +:+ "?trk=feed";
                                             "snippet" := "We are hiring" ]};
                                          {[ "title" := "No link" ]} ] |}];
                     answers := [] |} in
  exists rs st',
    run (search_category "BESS" bess_keywords with_key) st = (Returned rs, st')
    /\ map (fun r => (title r, url r, snippet r, category r)) rs
       = [("Untitled Post", a, "We are hiring", "BESS")].
Proof.
  intros a st.
  edestruct (search_category_records "BESS" bess_keywords with_key st)
    as (rs & st' & Hrun & Hf & _); [vm_compute; reflexivity|].
  exists rs, st'. split; [exact Hrun|].
  remember (accepted _) as kept eqn:Hkept in Hf. vm_compute in Hkept. subst kept.
  inversion Hf as [|r item rs' items Hr Hrest]; subst.
  inversion Hrest; subst.
  destruct Hr as (Ht & Hu & Hs & Hc). cbn [map].
  rewrite Ht, Hu, Hs, Hc. vm_compute. reflexivity.
Defined.

(** *** The keys of the ResultSet *)

Lemma keys_set {V} (k : string) (v : V) (d : PyDict.t V) :
  PyDict.keys (PyDict.set k v d)
  = if PyDict.mem k d then PyDict.keys d else PyDict.keys d ++ [k].
Proof.
  unfold PyDict.keys, PyDict.mem.
  induction d as [|[k' v'] d IH]; [reflexivity|]. simpl.
  destruct (String.eqb k k'); [reflexivity|]. simpl. rewrite IH.
  now destruct (PyDict.get k d).
Qed.

Lemma mem_keys {V} (k : string) (d : PyDict.t V) :
  PyDict.mem k d = true <-> k ∈ PyDict.keys d.
Proof.
  unfold PyDict.mem. pose proof (get_None_keys k d) as Hn.
  destruct (PyDict.get k d).
  - split; [intros _ | reflexivity].
    destruct (decide (k ∈ PyDict.keys d)) as [|Hk]; [assumption|].
    apply Hn in Hk. discriminate.
  - split; [discriminate|]. intros Hk. now apply Hn in Hk.
Qed.

Lemma merge_keys_NoDup (raws : list (string * list SearchResult))
    (all_results : ResultSet) (seen_urls : gset string) :
  NoDup (PyDict.keys all_results) ->
  NoDup (PyDict.keys (merge raws all_results seen_urls).1).
Proof.
  revert all_results seen_urls; induction raws as [|[c results] raws IH];
    intros all_results seen_urls Hnd; [exact Hnd|].
  rewrite merge_cons. apply IH. rewrite keys_set.
  destruct (PyDict.mem c all_results) eqn:Hm; [exact Hnd|].
  apply NoDup_app. split; [exact Hnd|]. split; [|apply NoDup_singleton].
  intros k Hk Hk'. apply list_elem_of_singleton in Hk' as ->.
  apply mem_keys in Hk. congruence.
Qed.

Section WithWorld.
Context {World : Type} `{Externals World}.

(** X4.  The ResultSet a search returns has one entry for each configured
    category the target list names, and no other: its keys are pairwise
    different, a name is a key exactly when it is in the target list and
    configured, and when the list names no configured category twice the
    keys are these names in the order of the list.  With an empty key the
    ResultSet has no entry at all. *)
Theorem result_set_keys (config : option SearchConfig)
    (categories : option (list string)) (st : State World) :
  exists rs st',
    run (search_all_categories config categories) st = (Returned rs, st')
    /\ NoDup (PyDict.keys rs)
    /\ (serpapi_key (effective_config config st) = "" -> rs = [])
    /\ (serpapi_key (effective_config config st) <> "" ->
        (forall c, c ∈ PyDict.keys rs
                   <-> c ∈ target_categories categories /\ known c = true)
        /\ (NoDup (filter (fun c => known c = true) (target_categories categories)) ->
            PyDict.keys rs
            = filter (fun c => known c = true) (target_categories categories))).
Proof.
  pose proof (search_all_categories_run config categories st) as Hrun.
  cbv zeta in Hrun.
  destruct (String.eqb_spec (serpapi_key (effective_config config st)) "") as [Hk|Hk].
  - eexists _, _. split; [exact Hrun|]. split; [constructor|].
    split; [reflexivity | contradiction].
  - destruct Hrun as (raws & st1 & Hs & Hrun).
    eexists _, _. split; [exact Hrun|].
    split; [apply merge_keys_NoDup; constructor|].
    split; [contradiction | intros _].
    pose proof (Searched_names _ _ _ _ _ Hs) as Hnames. split.
    + intros c. rewrite <- mem_keys, merge_mem, orb_false_r, Hnames.
      rewrite bool_decide_eq_true, list_elem_of_filter. tauto.
    + intros Hnd. rewrite <- Hnames in Hnd |- *.
      clear Hs Hrun Hnames. generalize (∅ : gset string) as seen.
      assert (Hgen : forall (all_results : ResultSet) seen,
                 (forall c, c ∈ raws.*1 -> c ∉ PyDict.keys all_results) ->
                 PyDict.keys (merge raws all_results seen).1
                 = PyDict.keys all_results ++ raws.*1).
      { induction raws as [|[c results] raws IH]; intros all_results seen Hfresh.
        - simpl. now rewrite app_nil_r.
        - rewrite fmap_cons in Hnd. apply NoDup_cons in Hnd as [Hc Hnd].
          rewrite merge_cons, IH; [|exact Hnd|].
          + rewrite keys_set.
            destruct (PyDict.mem c all_results) eqn:Hm.
            * apply mem_keys in Hm. exfalso. apply (Hfresh c); [|exact Hm].
              rewrite fmap_cons. apply list_elem_of_here.
            * rewrite fmap_cons, <- List.app_assoc. reflexivity.
          + intros k Hk' Hin. rewrite keys_set in Hin.
            destruct (PyDict.mem c all_results).
            * apply (Hfresh k); [|exact Hin]. rewrite fmap_cons.
              now apply list_elem_of_further.
            * apply elem_of_app in Hin as [Hin|Hin].
              -- apply (Hfresh k); [|exact Hin]. rewrite fmap_cons.
                 now apply list_elem_of_further.
              -- apply list_elem_of_singleton in Hin as ->. cbn [fst] in Hc.
                 contradiction. }
      intros seen. rewrite Hgen; [reflexivity|]. intros c _ Hin. inversion Hin.
Qed.

End WithWorld.

Lemma result_set_keys_witness :
  let st := start {| env := ∅; replies := [found []; found []]; answers := [] |} in
  serpapi_key (effective_config (Some with_key) st) <> ""
  /\ NoDup (filter (fun c => known c = true)
              (target_categories (Some ["Competition"; "Solar"; "BESS"])))
  /\ exists rs st',
       run (search_all_categories (Some with_key)
              (Some ["Competition"; "Solar"; "BESS"])) st = (Returned rs, st')
       /\ PyDict.keys rs = ["Competition"; "BESS"].
Proof.
  intros st.
  assert (Hkey : serpapi_key (effective_config (Some with_key) st) <> "") by discriminate.
  assert (Hnd : NoDup (filter (fun c => known c = true)
                         (target_categories (Some ["Competition"; "Solar"; "BESS"])))).
  { apply (bool_decide_unpack _). vm_compute. exact I. }
  split; [exact Hkey|]. split; [exact Hnd|].
  destruct (result_set_keys (Some with_key) (Some ["Competition"; "Solar"; "BESS"]) st)
    as (rs & st' & Hrun & _ & _ & Hkeys).
  exists rs, st'. split; [exact Hrun|].
  rewrite (proj2 (Hkeys Hkey) Hnd). vm_compute. reflexivity.
Defined.

Lemma first_category_keeps_url_witness :
  let st := start {| env := ∅;
                     replies := [found ["https://www.linkedin.com/posts/one";
                                        "https://www.linkedin.com/posts/two"];
                                 found ["https://www.linkedin.com/posts/two";
                                        "https://www.linkedin.com/posts/three"]];
                     answers := [] |} in
  serpapi_key (effective_config (Some with_key) st) <> ""
  /\ NoDup (filter (fun c => known c = true)
              (target_categories (Some ["BESS"; "Competition"])))
  /\ exists raws st1 rs st',
       Searched with_key (target_categories (Some ["BESS"; "Competition"])) st raws st1
       /\ run (search_all_categories (Some with_key) (Some ["BESS"; "Competition"])) st
          = (Returned rs, st').
Proof.
  intros st.
  assert (Hkey : serpapi_key (effective_config (Some with_key) st) <> "") by discriminate.
  assert (Hnd : NoDup (filter (fun c => known c = true)
                         (target_categories (Some ["BESS"; "Competition"])))).
  { apply (bool_decide_unpack _). vm_compute. exact I. }
  split; [exact Hkey|]. split; [exact Hnd|].
  destruct (SearchTheorems.first_category_keeps_url (Some with_key)
              (Some ["BESS"; "Competition"]) st Hkey Hnd)
    as (raws & st1 & rs & st' & Hs & Hrun & _).
  exists raws, st1, rs, st'. split; [exact Hs | exact Hrun].
Defined.

End MoreSearch.

(* ===================================================================== *)
(** ** More about the capture engine *)
(* ===================================================================== *)

Module MoreCapture.
Import PyStr PyStrFacts Config Effects RunFacts Search Screenshot Spec CaptureFacts
  Scripted Notions KeepFacts.

Section WithWorld.
Context {World : Type} `{Externals World}.

Ltac trivially := first [ exact (fun _ => I) | exact (fun _ _ => I)
                        | exact (fun _ _ _ _ _ => I) | easy ].

Lemma run_raise {A} (e : PyException) (st : State World) :
  run (raise (A := A) e) st = (Raised e, st).
Proof. reflexivity. Qed.

Lemma session_body_inside (u output_path : string) (config : ScreenshotConfig) :
  keeps anywhere inside_session (session_body u output_path config).
Proof.
  apply keeps_session_body; try trivially; intros c o Hc; exact Hc.
Qed.

(** The guarded part of a capture never raises, and it leaves Playwright
    as often as it entered it. *)
Lemma guarded_capture_exits_once (u output_path : string) (config : ScreenshotConfig)
    (st : State World) :
  exists b st' evs,
    run (guarded_capture u output_path config) st = (Returned b, st')
    /\ trace st' = trace st ++ evs
    /\ match (playwright AsyncPlaywrightEnter (world st)).1 with
       | Raised e =>
           b = false
           /\ evs = [ Drove AsyncPlaywrightEnter (Raised e);
                      Logged WARNING ("Failed to screenshot " +:+ u +:+ ": " +:+ e) ]
       | Returned x =>
           exists mid o tail,
             evs = Drove AsyncPlaywrightEnter (Returned x)
                   :: mid ++ Drove AsyncPlaywrightExit o :: tail
             /\ Forall inside_session mid
             /\ Forall is_log tail
       end.
Proof.
  rewrite guarded_capture_unfold. rewrite run_bind, run_attempt.
  unfold with_async_playwright. rewrite run_bind, run_call.
  destruct (playwright AsyncPlaywrightEnter (world st)) as [[x|e] w1]; cbn [fst snd].
  - rewrite run_bind, run_attempt.
    match goal with |- context [run (session_body _ _ _) ?s] =>
      destruct (session_body_inside u output_path config s) as (_ & mid & Htr & Hmid);
      destruct (run (session_body u output_path config) s) as [body st2] end.
    cbn [fst snd trace] in *. rewrite run_bind, run_call.
    destruct (playwright AsyncPlaywrightExit (world st2)) as [[y|e] w3]; cbn [fst snd].
    + destruct body as [b|e]; cbn [fst snd].
      * rewrite run_ret. eexists b, _, _. split; [reflexivity|]. cbn [trace].
        rewrite Htr, <- !List.app_assoc. split; [reflexivity|].
        exists mid, (Returned y), []. now repeat split.
      * rewrite run_raise. cbn [fst snd].
        rewrite run_bind, run_log, run_ret. eexists false, _, _.
        split; [reflexivity|]. cbn [trace]. rewrite Htr, <- !List.app_assoc.
        split; [reflexivity|].
        eexists mid, (Returned y), [_]. split; [reflexivity|].
        split; [exact Hmid | repeat constructor].
    + rewrite run_bind, run_log, run_ret. eexists false, _, _.
      split; [reflexivity|]. cbn [trace]. rewrite Htr, <- !List.app_assoc.
      split; [reflexivity|].
      eexists mid, (Raised e), [_]. split; [reflexivity|].
      split; [exact Hmid | repeat constructor].
  - rewrite run_bind, run_log, run_ret. eexists false, _, _.
    split; [reflexivity|]. cbn [trace]. rewrite <- !List.app_assoc.
    split; [reflexivity|]. split; reflexivity.
Qed.

(** X5.  A capture raises exactly when its import raises: it then raises
    what the import raised and calls nothing else.  When the import returns
    the capture returns, and it leaves Playwright as often as it entered
    it.  When the entry raises, nothing else is called: the capture writes
    its warning and returns False.  When the entry returns, every further
    browser call of the capture lies between the entry and one exit, which
    is made whether the calls in between returned or raised; after the exit
    the capture only writes a log record. *)
Theorem capture_exits_once (u output_path : string) (config : ScreenshotConfig)
    (st : State World) :
  match (playwright ImportAsyncApi (world st)).1 with
  | Raised e =>
      run (capture_screenshot u output_path config) st = (Raised e, after_import st)
  | Returned _ =>
      exists b st' evs,
        run (capture_screenshot u output_path config) st = (Returned b, st')
        /\ trace st' = trace (after_import st) ++ evs
        /\ match (playwright AsyncPlaywrightEnter (world (after_import st))).1 with
           | Raised e =>
               b = false
               /\ evs = [ Drove AsyncPlaywrightEnter (Raised e);
                          Logged WARNING ("Failed to screenshot " +:+ u +:+ ": " +:+ e) ]
           | Returned x =>
               exists mid o tail,
                 evs = Drove AsyncPlaywrightEnter (Returned x)
                       :: mid ++ Drove AsyncPlaywrightExit o :: tail
                 /\ Forall inside_session mid
                 /\ Forall is_log tail
           end
  end.
Proof.
  rewrite capture_screenshot_step.
  destruct (playwright ImportAsyncApi (world st)).1 as [x|e]; [|reflexivity].
  apply guarded_capture_exits_once.
Qed.

(** *** What a capture that returned True has done *)

Lemma sure_here (c : PlaywrightCall) {B} (k : bool -> M B) :
  (forall a, keeps (World := World) anywhere inside_session (k a)) ->
  sure (World := World) c (call c ≫= k).
Proof.
  intros Hk st. rewrite run_bind, run_call.
  destruct (playwright c (world st)) as [[x|e] w1]; cbn [fst snd].
  - match goal with |- context [run (k x) ?s] =>
      destruct (Hk x s) as (_ & evs & Htr & _) end.
    eexists (_ :: evs). rewrite Htr. cbn [trace]. rewrite <- List.app_assoc.
    split; [reflexivity|]. intros _ _. exists x. apply list_elem_of_here.
  - eexists [_]. split; [reflexivity | discriminate].
Qed.

Lemma sure_later (c : PlaywrightCall) {A B} (m : M A) (k : A -> M B) :
  keeps (World := World) anywhere inside_session m ->
  (forall a, sure (World := World) c (k a)) -> sure (World := World) c (m ≫= k).
Proof.
  intros Hm Hk st. rewrite run_bind.
  destruct (Hm st) as (_ & evs1 & Htr1 & _).
  destruct (run m st) as [[a|e] st1]; cbn [fst snd] in *.
  - destruct (Hk a st1) as (evs2 & Htr2 & Hin).
    exists (evs1 ++ evs2). rewrite Htr2, Htr1, <- List.app_assoc.
    split; [reflexivity|]. intros b Hb. destruct (Hin b Hb) as [x Hx].
    exists x. apply elem_of_app. now right.
  - exists evs1. split; [exact Htr1 | discriminate].
Qed.

Ltac keeps_inside :=
  repeat (apply keeps_bind; try trivially;
          [ first [ apply keeps_call; try trivially
                  | apply keeps_attempt; try trivially;
                    apply keeps_dismiss_popups; try trivially; intros ? ? Hc; exact Hc
                  | apply keeps_log; try trivially ]
          | intros ? ]);
  apply keeps_ret; trivially.

Lemma session_body_sure (u output_path : string) (config : ScreenshotConfig)
    (c : PlaywrightCall) :
  c ∈ capture_steps u output_path config ->
  sure c (session_body u output_path config).
Proof.
  intros Hc. unfold capture_steps in Hc. unfold session_body.
  repeat (apply elem_of_cons in Hc as [->|Hc];
          [ repeat first [ apply sure_here; intros ?; keeps_inside
                         | apply sure_later; [ first [ apply keeps_call; trivially
                                                     | apply keeps_attempt; try trivially;
                                                       apply keeps_dismiss_popups;
                                                       try trivially; intros ? ? Hc; exact Hc ]
                                             | intros ? ] ]
          | ]).
  inversion Hc.
Qed.

(** The guarded part of a capture returns True only when every step was
    called and returned. *)
Lemma guarded_capture_true_means_done (u output_path : string)
    (config : ScreenshotConfig) (st : State World) :
  exists b st' evs,
    run (guarded_capture u output_path config) st = (Returned b, st')
    /\ trace st' = trace st ++ evs
    /\ (b = true ->
        forall c, c ∈ capture_steps u output_path config ->
                  exists x, Drove c (Returned x) ∈ evs).
Proof.
  rewrite guarded_capture_unfold. rewrite run_bind, run_attempt.
  unfold with_async_playwright. rewrite run_bind, run_call.
  destruct (playwright AsyncPlaywrightEnter (world st)) as [[x|e] w1]; cbn [fst snd].
  - rewrite run_bind, run_attempt.
    match goal with |- context [run (session_body _ _ _) ?s] =>
      assert (Hsure : forall c, c ∈ capture_steps u output_path config ->
                exists evs, trace (run (session_body u output_path config) s).2
                            = trace s ++ evs
                            /\ forall a, (run (session_body u output_path config) s).1
                                         = Returned a ->
                                         exists x, Drove c (Returned x) ∈ evs)
        by (intros c Hc; apply (session_body_sure u output_path config c Hc s));
      destruct (session_body_inside u output_path config s) as (_ & mid & Htr & _);
      destruct (run (session_body u output_path config) s) as [body st2] end.
    cbn [fst snd trace] in *. rewrite run_bind, run_call.
    destruct (playwright AsyncPlaywrightExit (world st2)) as [[y|e] w3]; cbn [fst snd].
    + destruct body as [b|e]; cbn [fst snd].
      * rewrite run_ret. eexists b, _, _. split; [reflexivity|]. cbn [trace].
        rewrite Htr, <- !List.app_assoc. split; [reflexivity|].
        intros _ c Hc. destruct (Hsure c Hc) as (evs & Htr' & Hin).
        rewrite Htr in Htr'. apply app_inv_head in Htr' as <-.
        destruct (Hin b eq_refl) as [z Hz]. exists z.
        apply list_elem_of_further, elem_of_app. now left.
      * rewrite run_raise. cbn [fst snd].
        rewrite run_bind, run_log, run_ret. eexists false, _, _.
        split; [reflexivity|]. cbn [trace]. rewrite Htr, <- !List.app_assoc.
        split; [reflexivity | discriminate].
    + rewrite run_bind, run_log, run_ret. eexists false, _, _.
      split; [reflexivity|]. cbn [trace]. rewrite Htr, <- !List.app_assoc.
      split; [reflexivity | discriminate].
  - rewrite run_bind, run_log, run_ret. eexists false, _, _.
    split; [reflexivity|]. cbn [trace]. rewrite <- !List.app_assoc.
    split; [reflexivity | discriminate].
Qed.

(** X6.  A capture returns True only when the import, the launch, the new
    context, the new page, the navigation to the URL it was given, the
    settle wait, the snapshot into the file it was given and the close were
    all called and all returned: an entry with a path in the dictionary of
    a batch always stands for a snapshot that was taken. *)
Theorem capture_true_means_done (u output_path : string) (config : ScreenshotConfig)
    (st : State World) :
  exists evs,
    trace (run (capture_screenshot u output_path config) st).2 = trace st ++ evs
    /\ ((run (capture_screenshot u output_path config) st).1 = Returned true ->
        forall c, c ∈ ImportAsyncApi :: capture_steps u output_path config ->
                  exists x, Drove c (Returned x) ∈ evs).
Proof.
  rewrite capture_screenshot_step.
  destruct (playwright ImportAsyncApi (world st)).1 as [x|e] eqn:Himport.
  - destruct (guarded_capture_true_means_done u output_path config (after_import st))
      as (b & st' & evs & Hrun & Htr & Hdone).
    rewrite Hrun. cbn [fst snd]. exists (Drove ImportAsyncApi (Returned x) :: evs).
    split.
    + rewrite Htr. unfold after_import. cbn [trace].
      rewrite Himport, <- List.app_assoc. reflexivity.
    + intros Hb c [->|Hc]%elem_of_cons.
      * exists x. apply list_elem_of_here.
      * injection Hb as ->. destruct (Hdone eq_refl c Hc) as [y Hy].
        exists y. now apply list_elem_of_further.
  - eexists [_]. split; [reflexivity | discriminate].
Qed.

End WithWorld.

Lemma capture_true_means_done_witness :
  let st := start {| env := ∅; replies := []; answers := [] |} in
  let u := "https://www.linkedin.com/posts/one" in
  let path := "/srv/monitor/screenshots/post_001.png" in
  exists st' evs,
    run (capture_screenshot u path shots) st = (Returned true, st')
    /\ trace st' = evs
    /\ exists x, Drove (Screenshot path false) (Returned x) ∈ evs.
Proof.
  intros st u path.
  destruct (capture_true_means_done u path shots st) as (evs & Htr & Hdone).
  assert (Hrun : exists st', run (capture_screenshot u path shots) st
                             = (Returned true, st'))
    by (vm_compute; eexists; reflexivity).
  destruct Hrun as (st' & Hrun). rewrite Hrun in Htr, Hdone. cbn [fst snd] in Htr, Hdone.
  exists st', evs. split; [exact Hrun|]. split; [exact Htr|].
  apply (Hdone eq_refl). unfold capture_steps.
  repeat first [apply list_elem_of_here | apply list_elem_of_further].
Defined.

(** *** File names *)

Lemma str_length_app (a b : string) :
  String.length (a +:+ b) = String.length a + String.length b.
Proof. induction a as [|c a IH]; unapp; simpl; [reflexivity | now rewrite IH]. Qed.

Lemma str_app_inv_tail (a b s : string) : a +:+ s = b +:+ s -> a = b.
Proof.
  intros Heq. assert (Hlen : String.length a = String.length b).
  { apply (f_equal String.length) in Heq. rewrite !str_length_app in Heq. lia. }
  revert b Heq Hlen; induction a as [|c a IH]; intros [|d b] Heq Hlen;
    try discriminate; [reflexivity|].
  unapp. injection Heq as -> Heq. f_equal. apply IH; [exact Heq|].
  simpl in Hlen. lia.
Qed.

Lemma concat_replicate_S (s : string) (k : nat) :
  String.concat "" (replicate (S k) s) = s +:+ String.concat "" (replicate k s).
Proof.
  destruct k; cbn [replicate String.concat].
  - now rewrite str_app_empty_r.
  - now rewrite str_app_nil_l.
Qed.

Lemma strip_zeros_pad (k : nat) (s : string) :
  strip_zeros (String.concat "" (replicate k "0") +:+ s) = strip_zeros s.
Proof.
  induction k as [|k IH]; [reflexivity|].
  rewrite concat_replicate_S, str_app_assoc. unapp. simpl. exact IH.
Qed.

(** The decimal form of a positive number starts with a digit other than
    zero. *)
Lemma pretty_N_go_head (x : N) (s : string) :
  (0 < x)%N -> exists c rest, pretty_N_go x s = String c rest /\ c <> "0"%char.
Proof.
  revert s. induction (N.lt_wf_0 x) as [x _ IH]; intros s Hx.
  rewrite pretty_N_go_step by exact Hx.
  destruct (decide (x < 10)%N) as [Hsmall|Hbig].
  - rewrite N.div_small, pretty_N_go_0, N.mod_small by exact Hsmall.
    eexists _, _. split; [reflexivity|].
    assert (x = 1 \/ x = 2 \/ x = 3 \/ x = 4 \/ x = 5 \/ x = 6
            \/ x = 7 \/ x = 8 \/ x = 9)%N as Hd by lia.
    destruct Hd as [->|[->|[->|[->|[->|[->|[->|[->| ->]]]]]]]]; discriminate.
  - apply IH.
    + apply N.div_lt; lia.
    + apply N.div_str_pos. lia.
Qed.

Lemma pretty_nat_unfold (n : nat) :
  pretty n = if decide (N.of_nat n = 0)%N then "0" else pretty_N_go (N.of_nat n) "".
Proof. reflexivity. Qed.

Lemma pretty_nat_head (n : nat) :
  n <> 0 -> exists c rest, pretty n = String c rest /\ c <> "0"%char.
Proof.
  intros Hn. rewrite pretty_nat_unfold.
  destruct (decide (N.of_nat n = 0)%N); [lia|].
  apply pretty_N_go_head. lia.
Qed.

Lemma strip_zeros_pretty (n : nat) :
  strip_zeros (pretty n) = if decide (n = 0) then "" else pretty n.
Proof.
  destruct (decide (n = 0)) as [->|Hn]; [reflexivity|].
  destruct (pretty_nat_head n Hn) as (c & rest & Hp & Hc).
  rewrite Hp. simpl. apply Ascii.eqb_neq in Hc. now rewrite Hc.
Qed.

Lemma format_03d_inj (i j : nat) : format_03d i = format_03d j -> i = j.
Proof.
  intros Heq. apply (f_equal strip_zeros) in Heq. unfold format_03d in Heq.
  cbv zeta in Heq. rewrite !strip_zeros_pad, !strip_zeros_pretty in Heq.
  destruct (decide (i = 0)) as [->|Hi], (decide (j = 0)) as [->|Hj];
    [reflexivity | | | now apply (inj pretty)].
  - destruct (pretty_nat_head j Hj) as (c & rest & Hp & _). congruence.
  - destruct (pretty_nat_head i Hi) as (c & rest & Hp & _). congruence.
Qed.

(** X7.  File names never collide: two different counters give two
    different output paths, whatever the output directory, so within a batch
    no capture writes over the snapshot of another. *)
Theorem output_paths_differ (config : ScreenshotConfig) (i j : nat) :
  i <> j -> output_path config i <> output_path config j.
Proof.
  intros Hne Heq. apply Hne. unfold output_path, path_join in Heq.
  rewrite !(str_app_cons "p") in Heq. cbn [startswith Ascii.eqb] in Heq.
  change (Ascii.eqb "/" "p") with false in Heq. cbv iota in Heq.
  repeat match type of Heq with
         | context [if ?b then _ else _] => destruct b
         end;
    repeat (apply (inj (String.app _)) in Heq);
    injection Heq as Heq;
    repeat (apply (inj (String.app _)) in Heq);
    apply str_app_inv_tail in Heq; now apply format_03d_inj.
Qed.

Lemma output_paths_differ_witness :
  1 <> 2
  /\ output_path shots 1 = "/srv/monitor/screenshots/post_001.png"
  /\ output_path shots 1 <> output_path shots 2.
Proof.
  assert (Hne : 1 <> 2) by lia.
  split; [exact Hne|]. split; [reflexivity|].
  exact (output_paths_differ shots 1 2 Hne).
Defined.

End MoreCapture.

(* ===================================================================== *)
(** ** The delivery side *)
(* ===================================================================== *)

Module MailFacts.
Import PyStr PyStrFacts Config Effects RunFacts Search Screenshot Spec Mail Main
  Notions KeepFacts.



Lemma grows_weaken {World} (Q Q' : Effect -> Prop) (d d' : Desk World) :
  (forall e, Q e -> Q' e) -> journal_grows Q d d' -> journal_grows Q' d d'.
Proof.
  intros Himp (es & Hj & HQ). exists es. split; [exact Hj|].
  eapply Forall_impl; [exact HQ | exact Himp].
Qed.

Section WithWorld.
Context {World : Type} `{Externals World} `{Office World}.
#[local] Existing Instance desk_externals.

Lemma run_consult {A} (note : A -> list Effect) (f : World -> A * World)
    (st : State (Desk World)) :
  run (consult note f) st
  = (Returned (f (office (world st))).1,
     {| world := {| office := (f (office (world st))).2;
                    journal := journal (world st) ++ note (f (office (world st))).1 |};
        trace := trace st |}).
Proof. reflexivity. Qed.

(** Asking whether a file exists changes nothing. *)
Lemma run_exists (path : string) (st : State (Desk World)) :
  run (exists_ path) st = (Returned (os_path_exists path (office (world st))), st).
Proof.
  unfold exists_. rewrite run_consult. cbn [fst snd].
  destruct st as [[w j] tr]. cbn. now rewrite app_nil_r.
Qed.

Lemma run_strftime (format : string) (st : State (Desk World)) :
  run (strftime format) st
  = (Returned (utcnow_strftime format (office (world st))).1,
     {| world := {| office := (utcnow_strftime format (office (world st))).2;
                    journal := journal (world st) |};
        trace := trace st |}).
Proof. unfold strftime. rewrite run_consult. cbn [fst snd]. now rewrite app_nil_r. Qed.


Lemma run_smtp (c : SmtpCall) (st : State (Desk World)) :
  run (smtp c) st
  = (Returned (smtplib c (office (world st))).1,
     {| world := {| office := (smtplib c (office (world st))).2;
                    journal := journal (world st)
                               ++ [Smtp c (smtplib c (office (world st))).1] |};
        trace := trace st |}).
Proof. reflexivity. Qed.

Lemma run_open_read (path : string) (st : State (Desk World)) :
  run (open_read path) st
  = ((read_binary path (office (world st))).1,
     {| world := {| office := (read_binary path (office (world st))).2;
                    journal := journal (world st)
                               ++ [ReadFile path (read_binary path (office (world st))).1] |};
        trace := trace st |}).
Proof. reflexivity. Qed.

(** *** What the delivery primitives keep *)

Lemma keeps_consult (Q : Effect -> Prop) (P : Event -> Prop) {A}
    (note : A -> list Effect) (f : World -> A * World) :
  (forall a, Forall Q (note a)) -> keeps (journal_grows Q) P (consult note f).
Proof.
  intros Hnote st. rewrite run_consult. cbn [fst snd world trace]. split.
  - eexists. split; [reflexivity | apply Hnote].
  - exists []. now rewrite app_nil_r.
Qed.

Lemma keeps_open_read (Q : Effect -> Prop) (P : Event -> Prop) (path : string) :
  (forall o, Q (ReadFile path o)) -> keeps (journal_grows Q) P (open_read path).
Proof.
  intros HQ st. rewrite run_open_read. cbn [fst snd world trace]. split.
  - eexists. split; [reflexivity|]. constructor; [apply HQ | constructor].
  - exists []. now rewrite app_nil_r.
Qed.





(** *** The body *)

Lemma number_from_app (k : nat) (a b : list string) :
  number_from k (a ++ b) = number_from k a ++ number_from (k + length a) b.
Proof.
  revert k; induction a as [|p a IH]; intros k; cbn [number_from app length].
  - now rewrite Nat.add_0_r.
  - rewrite IH. now replace (S k + length a) with (k + S (length a)) by lia.
Qed.

Lemma number_from_length (k : nat) (paths : list string) :
  length (number_from k paths) = length paths.
Proof. revert k; induction paths as [|p a IH]; intros k; cbn; [|rewrite IH]; easy. Qed.

Lemma run_available (screenshots : CaptureOutcome) (post : SearchResult)
    (st : State (Desk World)) :
  run (match default None (screenshots !! url post) with
       | Some path => if String.eqb path "" then mret false else exists_ path
       | None => mret false
       end) st
  = (Returned (match shown_path (office (world st)) screenshots post with
               | Some _ => true
               | None => false
               end), st).
Proof.
  unfold shown_path. destruct (default None (screenshots !! url post)) as [path|];
    [|apply run_ret].
  destruct (String.eqb path ""); [apply run_ret|].
  rewrite run_exists. now destruct (os_path_exists path _).
Qed.

Lemma shown_path_entry (w : World) (screenshots : CaptureOutcome)
    (post : SearchResult) (path : string) :
  shown_path w screenshots post = Some path ->
  default None (screenshots !! url post) = Some path.
Proof.
  unfold shown_path. destruct (default None _) as [p|]; [|discriminate].
  destruct (String.eqb p ""); [discriminate|].
  destruct (os_path_exists p w); [congruence | discriminate].
Qed.

(** The loop over the posts of a category never raises and leaves the state
    alone; it adds to the page a text that holds the card of every post and
    the image of every path shown, and to the inline images the paths
    shown, numbered from the counter. *)
Lemma render_posts_run (cat : string) (posts : list SearchResult)
    (screenshots : CaptureOutcome) (html : string)
    (inline_images : list (string * string)) (img_idx : nat)
    (st : State (Desk World)) :
  let paths := omap (shown_path (office (world st)) screenshots) posts in
  exists rendered,
    run (render_posts cat posts screenshots html inline_images img_idx) st
    = (Returned (html +:+ rendered, inline_images ++ number_from img_idx paths,
                 img_idx + length paths), st)
    /\ (forall post, post ∈ posts -> Substring (card cat post) rendered)
    /\ (forall cid path, (cid, path) ∈ number_from img_idx paths ->
                         Substring (shot cid) rendered).
Proof.
  cbv zeta. revert html inline_images img_idx.
  induction posts as [|post rest IH]; intros html inline_images img_idx.
  - exists "". cbn [render_posts omap number_from length].
    rewrite run_ret, str_app_empty_r, app_nil_r, Nat.add_0_r.
    split; [reflexivity|]. split; [intros post Hin | intros cid path Hin];
      now apply elem_of_nil in Hin.
  - cbn [render_posts]. rewrite run_bind, run_available. cbn [fst snd].
    rewrite LoopFacts.omap_cons_step. fold (card cat post).
    destruct (shown_path (office (world st)) screenshots post) as [path|] eqn:Hshown.
    + rewrite (shown_path_entry _ _ _ _ Hshown). fold (cid_of img_idx).
      fold (shot (cid_of img_idx)).
      destruct (IH (((html +:+ card cat post) +:+ shot (cid_of img_idx)) +:+ DIV_CLOSE)
                  (inline_images ++ [(cid_of img_idx, path)]) (S img_idx))
        as (rendered & Hrun & Hcards & Hshots).
      exists (card cat post +:+ shot (cid_of img_idx) +:+ DIV_CLOSE +:+ rendered).
      rewrite Hrun. cbn [number_from length]. split; [|split].
      * rewrite !str_app_assoc, <- List.app_assoc. cbn [app].
        now replace (S img_idx + length (omap (shown_path (office (world st))
                                                 screenshots) rest))
          with (img_idx + S (length (omap (shown_path (office (world st))
                                             screenshots) rest))) by lia.
      * intros p [->|Hin]%elem_of_cons.
        -- apply Substring_app_l, Substring_refl.
        -- do 3 apply Substring_app_r. now apply Hcards.
      * intros cid p [Heq|Hin]%elem_of_cons.
        -- injection Heq as -> ->. apply Substring_app_r, Substring_app_l, Substring_refl.
        -- do 3 apply Substring_app_r. now apply (Hshots cid p).
    + assert (Hstep :
        match default None (screenshots !! url post) with
        | Some path0 =>
            render_posts cat rest screenshots ((html +:+ card cat post) +:+ DIV_CLOSE)
              inline_images img_idx
        | None =>
            render_posts cat rest screenshots ((html +:+ card cat post) +:+ DIV_CLOSE)
              inline_images img_idx
        end
        = render_posts cat rest screenshots ((html +:+ card cat post) +:+ DIV_CLOSE)
            inline_images img_idx) by now destruct (default None _).
      rewrite Hstep.
      destruct (IH ((html +:+ card cat post) +:+ DIV_CLOSE) inline_images img_idx)
        as (rendered & Hrun & Hcards & Hshots).
      exists (card cat post +:+ DIV_CLOSE +:+ rendered).
      rewrite Hrun. split; [|split].
      * now rewrite !str_app_assoc.
      * intros p [->|Hin]%elem_of_cons.
        -- apply Substring_app_l, Substring_refl.
        -- do 2 apply Substring_app_r. now apply Hcards.
      * intros cid p Hin. do 2 apply Substring_app_r. now apply (Hshots cid p).
Qed.

(** The loop over the categories, likewise. *)
Lemma render_categories_run (results : ResultSet) (screenshots : CaptureOutcome)
    (html : string) (inline_images : list (string * string)) (img_idx : nat)
    (st : State (Desk World)) :
  let paths := omap (shown_path (office (world st)) screenshots) (all_posts results) in
  exists rendered,
    run (render_categories results screenshots html inline_images img_idx) st
    = (Returned (html +:+ rendered, inline_images ++ number_from img_idx paths,
                 img_idx + length paths), st)
    /\ (forall cat posts post,
          (cat, posts) ∈ results -> post ∈ posts -> Substring (card cat post) rendered)
    /\ (forall cid path, (cid, path) ∈ number_from img_idx paths ->
                         Substring (shot cid) rendered).
Proof.
  cbv zeta. revert html inline_images img_idx.
  induction results as [|[cat posts] rest IH]; intros html inline_images img_idx.
  - exists "". cbn [render_categories all_posts map concat omap number_from length].
    rewrite run_ret, str_app_empty_r, app_nil_r, Nat.add_0_r.
    split; [reflexivity|]. split; [intros c ps p Hin | intros cid path Hin];
      now apply elem_of_nil in Hin.
  - cbn [render_categories]. rewrite run_bind.
    unfold all_posts. cbn [map concat snd]. fold (all_posts rest).
    rewrite omap_app, number_from_app, length_app.
    set (html1 := html +:+ (CATEGORY_OPEN +:+ cat +:+ CATEGORY_TITLE_CLOSE)).
    assert (Hposts : exists rendered,
      run (match posts with
           | [] => mret (html1 +:+ NO_POSTS_IN_CATEGORY, inline_images, img_idx)
           | _ :: _ => render_posts cat posts screenshots html1 inline_images img_idx
           end) st
      = (Returned (html1 +:+ rendered,
                   inline_images
                   ++ number_from img_idx
                        (omap (shown_path (office (world st)) screenshots) posts),
                   img_idx
                   + length (omap (shown_path (office (world st)) screenshots) posts)),
         st)
      /\ (forall post, post ∈ posts -> Substring (card cat post) rendered)
      /\ (forall cid path,
            (cid, path) ∈ number_from img_idx
                            (omap (shown_path (office (world st)) screenshots) posts) ->
            Substring (shot cid) rendered)).
    { destruct posts as [|p ps].
      - exists NO_POSTS_IN_CATEGORY. cbn [omap number_from length].
        rewrite run_ret, app_nil_r, Nat.add_0_r. split; [reflexivity|].
        split; [intros post Hin | intros cid path Hin]; now apply elem_of_nil in Hin.
      - apply render_posts_run. }
    destruct Hposts as (rendered1 & Hrun1 & Hcards1 & Hshots1).
    rewrite Hrun1. cbn [fst snd].
    match goal with
    | |- context [render_categories rest screenshots ?h ?i ?k] =>
        destruct (IH h i k) as (rendered2 & Hrun2 & Hcards2 & Hshots2)
    end.
    exists ((CATEGORY_OPEN +:+ cat +:+ CATEGORY_TITLE_CLOSE) +:+ rendered1
            +:+ DIV_CLOSE +:+ rendered2).
    rewrite Hrun2. split; [|split].
    + unfold html1. rewrite !str_app_assoc, <- List.app_assoc, Nat.add_assoc.
      reflexivity.
    + intros c ps p [Heq|Hin]%elem_of_cons Hp.
      * injection Heq as -> ->. apply Substring_app_r, Substring_app_l.
        now apply Hcards1.
      * do 3 apply Substring_app_r. now apply (Hcards2 c ps p).
    + intros cid path [Hin|Hin]%elem_of_app.
      * apply Substring_app_r, Substring_app_l. now apply (Hshots1 cid path).
      * do 3 apply Substring_app_r. now apply (Hshots2 cid path).
Qed.

Lemma all_posts_elem (results : ResultSet) (cat : string)
    (posts : list SearchResult) (post : SearchResult) :
  (cat, posts) ∈ results -> post ∈ posts -> post ∈ all_posts results.
Proof.
  intros Hin Hp. unfold all_posts.
  induction results as [|[c ps] rest IH]; [now apply elem_of_nil in Hin|].
  cbn [map concat snd]. apply elem_of_app.
  apply elem_of_cons in Hin as [Heq|Hin]; [injection Heq as -> ->; now left|].
  right. now apply IH.
Qed.

Lemma total_results_all_posts (results : ResultSet) :
  total_results results = length (all_posts results).
Proof.
  unfold total_results, all_posts, PyDict.values.
  induction results as [|[c posts] rest IH]; [reflexivity|].
  cbn [map concat snd]. rewrite length_app, <- IH. reflexivity.
Qed.

(** The body, step by step. *)
Lemma build_html_body_run (results : ResultSet) (screenshots : CaptureOutcome)
    (st : State (Desk World)) :
  let w1 := (utcnow_strftime "%B %d, %Y" (office (world st))).2 in
  exists html,
    run (_build_html_body results screenshots) st
    = (Returned (html, number_from 0 (omap (shown_path w1 screenshots)
                                        (all_posts results))),
       {| world := {| office := w1; journal := journal (world st) |};
          trace := trace st |})
    /\ (forall cat posts post,
          (cat, posts) ∈ results -> post ∈ posts -> Substring (card cat post) html)
    /\ (forall cid path,
          (cid, path) ∈ number_from 0 (omap (shown_path w1 screenshots)
                                         (all_posts results)) ->
          Substring (shot cid) html).
Proof.
  cbv zeta. unfold _build_html_body. rewrite run_bind, run_strftime. cbn [fst snd].
  rewrite run_bind.
  destruct (Nat.eqb (total_results results) 0) eqn:Htotal.
  - apply Nat.eqb_eq in Htotal. rewrite total_results_all_posts in Htotal.
    apply length_zero_iff_nil in Htotal.
    rewrite run_ret. cbn [fst snd]. rewrite run_ret, Htotal.
    eexists. split; [reflexivity|]. split.
    + intros cat posts post Hin Hp. exfalso.
      pose proof (all_posts_elem results cat posts post Hin Hp) as Hall.
      rewrite Htotal in Hall. now apply elem_of_nil in Hall.
    + intros cid path Hin. now apply elem_of_nil in Hin.
  - match goal with
    | |- context [render_categories results screenshots ?h ?i ?k] =>
        destruct (render_categories_run results screenshots h i k
                    {| world := {| office := (utcnow_strftime "%B %d, %Y"
                                                (office (world st))).2;
                                   journal := journal (world st) |};
                       trace := trace st |})
          as (rendered & Hrun & Hcards & Hshots)
    end.
    cbn [world office] in Hrun, Hshots. rewrite Hrun. cbn [fst snd app].
    rewrite run_ret. eexists. split; [reflexivity|]. split.
    + intros cat posts post Hin Hp. apply Substring_app_l, Substring_app_r.
      now apply (Hcards cat posts post).
    + intros cid path Hin. apply Substring_app_l, Substring_app_r.
      now apply (Hshots cid path).
Qed.

(** *** The parts *)

Lemma adds_intro {A} (m : M (World := Desk World) A)
    (phi : Outcome A -> list Effect -> list Event -> Prop) (st : State (Desk World))
    (o : Outcome A) (st' : State (Desk World)) (es : list Effect) (evs : list Event) :
  run m st = (o, st') ->
  journal (world st') = journal (world st) ++ es ->
  trace st' = trace st ++ evs ->
  phi o es evs ->
  exists es evs,
    journal (world (run m st).2) = journal (world st) ++ es
    /\ trace (run m st).2 = trace st ++ evs
    /\ phi (run m st).1 es evs.
Proof. intros -> Hj Ht Hphi. now exists es, evs. Qed.

Lemma adds_weaken {A} (m : M (World := Desk World) A)
    (phi chi : Outcome A -> list Effect -> list Event -> Prop) :
  adds m phi -> (forall o es evs, phi o es evs -> chi o es evs) -> adds m chi.
Proof.
  intros Hm Himp st. destruct (Hm st) as (es & evs & Hj & Ht & Hphi).
  exists es, evs. auto.
Qed.

(** The first loop over the inline images never raises; it reads files and
    writes warnings, and adds to the parts inline PNGs only, each under the
    Content-ID of an inline image. *)
Lemma attach_inline_adds (html : string) (inline_images : list (string * string))
    (parts : list Part) :
  (forall cid path, (cid, path) ∈ inline_images ->
                    exists k, cid = cid_of k /\ Substring (shot cid) html) ->
  adds (attach_inline inline_images parts)
    (fun o es evs =>
       exists images,
         o = Returned (parts ++ images)
         /\ Forall (inline_png html) images
         /\ Forall is_read es /\ Forall is_log evs).
Proof.
  revert parts. induction inline_images as [|[cid path] rest IH]; intros parts Hcids st.
  - cbn [attach_inline]. rewrite run_ret. cbn [fst snd].
    exists [], []. rewrite !app_nil_r. repeat split; try reflexivity.
    exists []. now rewrite app_nil_r.
  - cbn [attach_inline]. rewrite run_bind, run_attempt, run_open_read. cbn [fst snd].
    destruct (Hcids cid path) as (k & -> & Hshot); [apply list_elem_of_here|].
    assert (Hrest : forall cid0 path0, (cid0, path0) ∈ rest ->
                      exists k0, cid0 = cid_of k0 /\ Substring (shot cid0) html).
    { intros cid0 path0 Hin. apply (Hcids cid0 path0). now apply list_elem_of_further. }
    destruct (read_binary path (office (world st))) as [[data|e] w1]; cbn [fst snd].
    + match goal with
      | |- context [run (attach_inline rest ?p) ?s] =>
          destruct (IH p Hrest s) as (es & evs & Hj & Ht & images & Ho & Himg & Hes & Hevs)
      end.
      cbn [world journal trace] in Hj, Ht.
      eexists (_ :: es), evs. rewrite Hj, Ht, Ho, <- !List.app_assoc.
      split; [reflexivity|]. split; [reflexivity|].
      eexists (_ :: images). split; [reflexivity|]. split; [|split].
      * constructor; [|exact Himg]. exists data, k, path. now split.
      * constructor; [exact I | exact Hes].
      * exact Hevs.
    + rewrite run_bind, run_log. cbn [world journal trace].
      match goal with
      | |- context [run (attach_inline rest ?p) ?s] =>
          destruct (IH p Hrest s) as (es & evs & Hj & Ht & images & Ho & Himg & Hes & Hevs)
      end.
      cbn [world journal trace] in Hj, Ht.
      eexists (_ :: es), (_ :: evs). rewrite Hj, Ht, Ho, <- !List.app_assoc.
      split; [reflexivity|]. split; [reflexivity|].
      exists images. split; [reflexivity|]. split; [exact Himg|]. split.
      * constructor; [exact I | exact Hes].
      * constructor; [exact I | exact Hevs].
Qed.

(** The second loop never raises either and writes nothing; it adds
    attachments only. *)
Lemma attach_files_adds (inline_images : list (string * string)) (parts : list Part) :
  adds (attach_files inline_images parts)
    (fun o es evs =>
       exists files,
         o = Returned (parts ++ files)
         /\ Forall is_attachment files /\ Forall is_read es /\ evs = []).
Proof.
  revert parts. induction inline_images as [|[cid path] rest IH]; intros parts st.
  - cbn [attach_files]. rewrite run_ret. cbn [fst snd].
    exists [], []. rewrite !app_nil_r. repeat split; try reflexivity.
    exists []. now rewrite app_nil_r.
  - cbn [attach_files]. rewrite run_bind, run_attempt, run_open_read. cbn [fst snd].
    destruct (read_binary path (office (world st))) as [[data|e] w1]; cbn [fst snd];
      match goal with
      | |- context [run (attach_files rest ?p) ?s] =>
          destruct (IH p s) as (es & evs & Hj & Ht & files & Ho & Hf & Hes & ->)
      end;
      cbn [world journal trace] in Hj, Ht;
      eexists (_ :: es), []; rewrite Hj, Ht, Ho, <- !List.app_assoc;
      (split; [reflexivity|]); (split; [reflexivity|]).
    + eexists (_ :: files). split; [reflexivity|]. split; [|split].
      * constructor; [exact I | exact Hf].
      * constructor; [exact I | exact Hes].
      * reflexivity.
    + exists files. split; [reflexivity|]. split; [exact Hf|]. split.
      * constructor; [exact I | exact Hes].
      * reflexivity.
Qed.

End WithWorld.

(** *** The session *)

Lemma not_delivered_command (c : SmtpCall) (e : SmtpError) (es : list Effect) :
  Smtp c (Some e) ∈ es -> c <> Quit -> ~ delivered es.
Proof. intros Hin Hc [_ Hfail]. now destruct (Hfail c e Hin). Qed.

Lemma not_delivered_quit (e : SmtpError) (es : list Effect) :
  Smtp Quit (Some e) ∈ es -> (forall text, e <> SMTPServerDisconnected text) ->
  ~ delivered es.
Proof.
  intros Hin He [_ Hfail]. destruct (Hfail Quit e Hin) as [_ [text ->]].
  now apply (He text).
Qed.

Lemma not_delivered_nil : ~ delivered [].
Proof. intros [(f & t & msg & Hin) _]. now apply elem_of_nil in Hin. Qed.

(** Entries that are no SMTP command do not count. *)
Lemma delivered_among (before es after : list Effect) :
  Forall not_smtp before -> Forall not_smtp after ->
  (delivered (before ++ es ++ after) <-> delivered es).
Proof.
  intros Hb Ha.
  assert (Hin : forall c r, Smtp c r ∈ before ++ es ++ after <-> Smtp c r ∈ es).
  { intros c r. rewrite !elem_of_app. split; [|tauto].
    intros [Hin|[Hin|Hin]]; [|exact Hin|].
    - rewrite Forall_forall in Hb. destruct (Hb _ Hin).
    - rewrite Forall_forall in Ha. destruct (Ha _ Hin). }
  unfold delivered. split; intros [(f & t & msg & Hs) Hfail].
  - split; [exists f, t, msg; now apply Hin|]. intros c e Hc. apply Hfail. now apply Hin.
  - split; [exists f, t, msg; now apply Hin|]. intros c e Hc. apply Hfail. now apply Hin.
Qed.

Section WithWorld.
Context {World : Type} `{Externals World} `{Office World}.
#[local] Existing Instance desk_externals.

(** The SMTP block never raises (its failure is a value) and writes no
    record; it ends without failure exactly when the server took the
    message and nothing failed but a QUIT that found the server gone; and
    what it hands to the server is the message, from the sender to the
    recipient. *)
Lemma smtp_session_adds (config : EmailConfig) (msg : Message) :
  adds (smtp_session config msg)
    (fun o es evs =>
       exists r,
         o = Returned r /\ evs = [] /\ Forall is_smtp es
         /\ (r = None <-> delivered es)
         /\ forall f t m q,
              Smtp (Sendmail f t m) q ∈ es ->
              f = sender_email config /\ t = recipient_email config /\ m = msg).
Proof.
  intros st. unfold smtp_session, and_then.
  repeat (repeat (progress (rewrite ?run_bind, ?run_smtp, ?run_ret;
                            cbn [fst snd world office journal trace]));
          match goal with
          | |- context [smtplib ?c ?w] =>
              let r := fresh "r" in let w' := fresh "w" in
              destruct (smtplib c w) as [[r|] w']
          end;
          cbn [fst snd world office journal trace]);
    rewrite ?run_ret; cbn [fst snd world office journal trace];
    try match goal with
        | |- context [match ?r with
                      | SMTPAuthenticationError _ => _
                      | SMTPServerDisconnected _ => _
                      | OtherException _ => _
                      end] => destruct r
        end;
    rewrite ?run_ret; cbn [fst snd world office journal trace];
    rewrite <- ?List.app_assoc; cbn [app];
    eexists _, []; (split; [reflexivity|]); (split; [now rewrite app_nil_r|]);
    eexists; (split; [reflexivity|]); (split; [reflexivity|]);
    (split; [repeat constructor|]);
    (split;
     [| intros f t m q Hin; rewrite !elem_of_cons, elem_of_nil in Hin; naive_solver]).
  all: try (split; [discriminate|]; intros Hd; exfalso; revert Hd;
            first [ eapply not_delivered_command; [repeat constructor | discriminate]
                  | eapply not_delivered_quit; [repeat constructor | discriminate] ]).
  all: split; [intros _ | reflexivity].
  all: split; [eexists _, _, _; repeat constructor|].
  all: intros c e Hin; rewrite !elem_of_cons, elem_of_nil in Hin; naive_solver.
Qed.

(** *** The whole delivery *)

Lemma number_from_cid (k : nat) (paths : list string) (cid path : string) :
  (cid, path) ∈ number_from k paths -> exists j, cid = cid_of j.
Proof.
  revert k; induction paths as [|p rest IH]; intros k Hin;
    [now apply elem_of_nil in Hin|].
  cbn [number_from] in Hin. apply elem_of_cons in Hin as [Heq|Hin].
  - injection Heq as -> _. now exists k.
  - now apply (IH (S k)).
Qed.

Lemma Forall_read_not_smtp (es : list Effect) : Forall is_read es -> Forall not_smtp es.
Proof. intros Hes. eapply Forall_impl; [exact Hes|]. now intros []. Qed.

Lemma Forall_read_or_smtp (es : list Effect) :
  Forall is_read es -> Forall read_or_smtp es.
Proof. intros Hes. eapply Forall_impl; [exact Hes|]. now intros []. Qed.

Lemma Forall_smtp_or_read (es : list Effect) :
  Forall is_smtp es -> Forall read_or_smtp es.
Proof. intros Hes. eapply Forall_impl; [exact Hes|]. now intros []. Qed.

Lemma read_is_no_command (es : list Effect) (c : SmtpCall) (r : option SmtpError) :
  Forall is_read es -> Smtp c r ∈ es -> False.
Proof. intros Hes Hin. rewrite Forall_forall in Hes. exact (Hes _ Hin). Qed.

(** Without a configuration the environment gives one. *)
Lemma send_email_default (results : ResultSet) (screenshots : CaptureOutcome)
    (st : State (Desk World)) :
  run (send_email results screenshots None) st
  = run (send_email results screenshots
           (Some (EmailConfig_default (environ (world st))))) st.
Proof. reflexivity. Qed.

(** What a call with a configuration adds: see the theorems below. *)
Lemma send_email_adds (results : ResultSet) (screenshots : CaptureOutcome)
    (c : EmailConfig) :
  adds (send_email results screenshots (Some c))
    (fun o es evs =>
       exists b,
         o = Returned b
         /\ Forall read_or_smtp es /\ Forall is_log evs
         /\ (b = true <-> delivered es)
         /\ forall f t msg q,
              Smtp (Sendmail f t msg) q ∈ es ->
              f = sender_email c /\ t = recipient_email c
              /\ msg_from msg = sender_email c /\ msg_to msg = recipient_email c
              /\ (exists today,
                    msg_subject msg
                    = subject_prefix c +:+ " — " +:+ pretty (total_results results)
                      +:+ " posts found (" +:+ today +:+ ")")
              /\ exists html images files,
                   msg_parts msg = MIMEText html "html" :: images ++ files
                   /\ (forall cat posts post,
                         (cat, posts) ∈ results -> post ∈ posts ->
                         Substring (card cat post) html)
                   /\ Forall (inline_png html) images
                   /\ Forall is_attachment files).
Proof.
  intros st. unfold send_email. rewrite run_bind, run_ret. cbn [fst snd].
  assert (Hrefused : forall msg,
    exists es evs,
      journal (world st) = journal (world st) ++ es
      /\ trace st ++ [Logged ERROR msg] = trace st ++ evs
      /\ exists b, Returned false = Returned b
           /\ Forall read_or_smtp es /\ Forall is_log evs
           /\ (b = true <-> delivered es)
           /\ forall f t m q,
                Smtp (Sendmail f t m) q ∈ es ->
                f = sender_email c /\ t = recipient_email c
                /\ msg_from m = sender_email c /\ msg_to m = recipient_email c
                /\ (exists today,
                      msg_subject m
                      = subject_prefix c +:+ " — " +:+ pretty (total_results results)
                        +:+ " posts found (" +:+ today +:+ ")")
                /\ exists html images files,
                     msg_parts m = MIMEText html "html" :: images ++ files
                     /\ (forall cat posts post,
                           (cat, posts) ∈ results -> post ∈ posts ->
                           Substring (card cat post) html)
                     /\ Forall (inline_png html) images
                     /\ Forall is_attachment files).
  { intros msg. exists [], [Logged ERROR msg]. rewrite app_nil_r.
    split; [reflexivity|]. split; [reflexivity|]. exists false.
    split; [reflexivity|]. split; [constructor|]. split; [repeat constructor|].
    split.
    - split; [discriminate | intros Hd; destruct (not_delivered_nil Hd)].
    - intros f t m q Hin. now apply elem_of_nil in Hin. }
  destruct (String.eqb (sender_email c) "" || String.eqb (sender_password c) "").
  { rewrite run_bind, run_log, run_ret. cbn [fst snd world trace]. apply Hrefused. }
  destruct (String.eqb (recipient_email c) "").
  { rewrite run_bind, run_log, run_ret. cbn [fst snd world trace]. apply Hrefused. }
  clear Hrefused.
  rewrite run_bind, run_strftime. cbn [fst snd]. rewrite run_bind.
  set (today := (utcnow_strftime "%Y-%m-%d" (office (world st))).1).
  match goal with
  | |- context [run (_build_html_body results screenshots) ?s] =>
      destruct (build_html_body_run results screenshots s)
        as (html & Hbody & Hcards & Hshots)
  end.
  cbv zeta in Hbody. cbn [world office journal trace] in Hbody, Hshots.
  rewrite Hbody. cbn [fst snd world office journal trace].
  match type of Hshots with
  | forall cid path, _ ∈ ?l -> _ => set (inline_images := l) in *
  end.
  assert (Hcids : forall cid path, (cid, path) ∈ inline_images ->
                    exists k, cid = cid_of k /\ Substring (shot cid) html).
  { intros cid path Hin. destruct (number_from_cid _ _ _ _ Hin) as [k ->].
    exists k. split; [reflexivity|]. now apply (Hshots _ path). }
  rewrite run_bind.
  match goal with
  | |- context [run (attach_inline inline_images ?p) ?s] =>
      destruct (attach_inline_adds html inline_images p Hcids s)
        as (es1 & evs1 & Hj1 & Ht1 & images & Ho1 & Himg & Hes1 & Hevs1);
      destruct (run (attach_inline inline_images p) s) as [o1 st1]
  end.
  cbn [fst snd world office journal trace] in Hj1, Ht1, Ho1. subst o1.
  rewrite run_bind.
  match goal with
  | |- context [run (attach_files inline_images ?p) ?s] =>
      destruct (attach_files_adds inline_images p s)
        as (es2 & evs2 & Hj2 & Ht2 & files & Ho2 & Hfiles & Hes2 & ->);
      destruct (run (attach_files inline_images p) s) as [o2 st2]
  end.
  cbn [fst snd] in Hj2, Ht2, Ho2. subst o2.
  rewrite run_bind, run_log. cbn [fst snd]. rewrite run_bind.
  match goal with
  | |- context [run (smtp_session c ?m) ?s] =>
      destruct (smtp_session_adds c m s)
        as (es3 & evs3 & Hj3 & Ht3 & r & Ho3 & -> & Hes3 & Hr & Hsent);
      destruct (run (smtp_session c m) s) as [o3 st3]
  end.
  cbn [fst snd world journal trace] in Hj3, Ht3, Ho3. subst o3.
  rewrite app_nil_r in Ht3.
  assert (Hj : journal (world st3) = journal (world st) ++ es1 ++ es2 ++ es3).
  { now rewrite Hj3, Hj2, Hj1, <- !List.app_assoc. }
  assert (Hes : Forall read_or_smtp (es1 ++ es2 ++ es3)).
  { rewrite !Forall_app. auto using Forall_read_or_smtp, Forall_smtp_or_read. }
  assert (Hd : delivered (es1 ++ es2 ++ es3) <-> r = None).
  { rewrite Hr. replace (es1 ++ es2 ++ es3) with ((es1 ++ es2) ++ es3 ++ []).
    - apply delivered_among; [|constructor].
      apply Forall_app. split; now apply Forall_read_not_smtp.
    - now rewrite app_nil_r, <- List.app_assoc. }
  assert (Hmsg : forall f t m q,
            Smtp (Sendmail f t m) q ∈ es1 ++ es2 ++ es3 ->
            f = sender_email c /\ t = recipient_email c
            /\ msg_from m = sender_email c /\ msg_to m = recipient_email c
            /\ (exists today,
                  msg_subject m
                  = subject_prefix c +:+ " — " +:+ pretty (total_results results)
                    +:+ " posts found (" +:+ today +:+ ")")
            /\ exists html images files,
                 msg_parts m = MIMEText html "html" :: images ++ files
                 /\ (forall cat posts post,
                       (cat, posts) ∈ results -> post ∈ posts ->
                       Substring (card cat post) html)
                 /\ Forall (inline_png html) images
                 /\ Forall is_attachment files).
  { intros f t m q Hin. rewrite !elem_of_app in Hin.
    destruct Hin as [Hin|[Hin|Hin]];
      [destruct (read_is_no_command _ _ _ Hes1 Hin)
      |destruct (read_is_no_command _ _ _ Hes2 Hin)|].
    destruct (Hsent f t m q Hin) as (-> & -> & ->). cbn [msg_from msg_to msg_subject
                                                        msg_parts].
    repeat (split; [reflexivity|]). split; [now exists today|].
    exists html, images, files. rewrite <- List.app_assoc. cbn [app].
    repeat split; assumption. }
  assert (Ht : forall final,
            (trace st2 ++ [Logged INFO ("Sending email to " +:+ recipient_email c
                                        +:+ "...")]) ++ [final]
            = trace st ++ evs1 ++ [Logged INFO ("Sending email to "
                                              +:+ recipient_email c +:+ "...");
                                   final]).
  { intros final. rewrite Ht2, Ht1, app_nil_r, <- !List.app_assoc. reflexivity. }
  cbn [app] in Ht.
  assert (Hlogs : forall final, is_log final ->
            Forall is_log (evs1 ++ [Logged INFO ("Sending email to "
                                               +:+ recipient_email c +:+ "..."); final])).
  { intros final Hfinal. apply Forall_app. split; [exact Hevs1|].
    repeat constructor. exact Hfinal. }
  destruct r as [[text|text|text]|];
    rewrite run_bind, run_log, run_ret; cbn [fst snd world journal trace];
    rewrite Ht3;
    (eexists _, _; split; [exact Hj|]; split; [apply Ht|]);
    eexists; (split; [reflexivity|]); (split; [exact Hes|]);
    (split; [now apply Hlogs|]); (split; [|exact Hmsg]);
    rewrite Hd; split; intros; congruence.
Qed.

End WithWorld.
End MailFacts.

(* ===================================================================== *)
(** ** Theorems on the delivery *)
(* ===================================================================== *)

Module MailTheorems.
Import PyStr PyStrFacts Config Effects RunFacts Search Screenshot Spec Mail Main
  Notions MailFacts Bureau.

Lemma str_app_inv_head (p a b : string) : p +:+ a = p +:+ b -> a = b.
Proof.
  induction p as [|c p IH]; [now rewrite !str_app_nil_l|].
  rewrite !str_app_cons. intros Heq. injection Heq as Heq. now apply IH.
Qed.

Lemma cid_of_inj (j k : nat) : cid_of j = cid_of k -> j = k.
Proof.
  unfold cid_of. intros Heq%str_app_inv_head. now apply (inj pretty) in Heq.
Qed.

Lemma number_from_fst (k : nat) (paths : list string) :
  (number_from k paths).*1 = cid_of <$> seq k (length paths).
Proof.
  revert k; induction paths as [|p rest IH]; intros k; [reflexivity|].
  cbn [number_from length seq fmap list_fmap fst]. now rewrite <- IH.
Qed.

Lemma number_from_snd (k : nat) (paths : list string) :
  (number_from k paths).*2 = paths.
Proof.
  revert k; induction paths as [|p rest IH]; intros k; [reflexivity|].
  cbn [number_from fmap list_fmap snd]. f_equal. apply IH.
Qed.

Section WithWorld.
Context {World : Type} `{Externals World} `{Office World}.
#[local] Existing Instance desk_externals.

(** X8.  Without a sender address, a password or a recipient,
    [send_email] returns False after one ERROR record and does nothing
    else: it does not read the clock, builds no body, reads no file and
    opens no connection.  Without a configuration the three come from
    GMAIL_ADDRESS, GMAIL_APP_PASSWORD and RECIPIENT_EMAIL. *)
Theorem send_email_needs_credentials (results : ResultSet)
    (screenshots : CaptureOutcome) (config : option EmailConfig)
    (st : State (Desk World)) :
  let cfg := effective_email config st in
  sender_email cfg = "" \/ sender_password cfg = "" \/ recipient_email cfg = "" ->
  exists msg,
    (msg = NO_CREDENTIALS \/ msg = "RECIPIENT_EMAIL not set.")
    /\ run (send_email results screenshots config) st
       = (Returned false,
          {| world := world st; trace := trace st ++ [Logged ERROR msg] |}).
Proof.
  intros cfg Hmissing.
  assert (Hrun : run (send_email results screenshots config) st
                 = run (send_email results screenshots (Some cfg)) st).
  { unfold cfg. destruct config; reflexivity. }
  rewrite Hrun. unfold send_email. rewrite run_bind, run_ret. cbn [fst snd].
  destruct (String.eqb (sender_email cfg) "") eqn:Hs; cbn [orb].
  { exists NO_CREDENTIALS. split; [now left|].
    now rewrite run_bind, run_log, run_ret. }
  destruct (String.eqb (sender_password cfg) "") eqn:Hp.
  { exists NO_CREDENTIALS. split; [now left|].
    now rewrite run_bind, run_log, run_ret. }
  destruct (String.eqb (recipient_email cfg) "") eqn:Hr.
  { exists "RECIPIENT_EMAIL not set.". split; [now right|].
    now rewrite run_bind, run_log, run_ret. }
  apply String.eqb_neq in Hs, Hp, Hr. tauto.
Qed.


(** X10.  Whatever [send_email] hands to the server goes from the
    configured sender to the configured recipient, under the subject
    "<prefix> — <total> posts found (<date>)".  Its first part is the HTML
    body, which holds the card of every post of the results; then come
    inline PNGs, each under a Content-ID "<screenshot_k>" whose image the
    body shows; then attachments. *)
Theorem sent_message_shape (results : ResultSet) (screenshots : CaptureOutcome)
    (config : option EmailConfig) (st : State (Desk World)) :
  let cfg := effective_email config st in
  exists es,
    journal (world (run (send_email results screenshots config) st).2)
    = journal (world st) ++ es
    /\ forall from_addr to_addr msg outcome,
         Smtp (Sendmail from_addr to_addr msg) outcome ∈ es ->
         from_addr = sender_email cfg /\ to_addr = recipient_email cfg
         /\ msg_from msg = sender_email cfg /\ msg_to msg = recipient_email cfg
         /\ (exists today,
               msg_subject msg
               = subject_prefix cfg +:+ " — " +:+ pretty (total_results results)
                 +:+ " posts found (" +:+ today +:+ ")")
         /\ exists html images files,
              msg_parts msg = MIMEText html "html" :: images ++ files
              /\ (forall cat posts post,
                    (cat, posts) ∈ results -> post ∈ posts ->
                    Substring (card cat post) html)
              /\ Forall (inline_png html) images
              /\ Forall is_attachment files.
Proof.
  intros cfg.
  assert (Hrun : run (send_email results screenshots config) st
                 = run (send_email results screenshots (Some cfg)) st).
  { unfold cfg. destruct config; reflexivity. }
  rewrite Hrun.
  destruct (send_email_adds results screenshots cfg st)
    as (es & evs & Hj & Ht & b & Ho & Hes & Hevs & Hb & Hmsg).
  now exists es.
Qed.

(** X11.  [_build_html_body] never raises, writes nothing and only reads
    the clock.  Its inline images are the screenshots shown: one for each
    post, in the order of the results, whose entry in the screenshots is a
    path, not empty, of a file that exists; they are numbered
    "screenshot_0", "screenshot_1", ... without gap or repetition. *)
Theorem html_body_inline_images (results : ResultSet) (screenshots : CaptureOutcome)
    (st : State (Desk World)) :
  let w1 := (utcnow_strftime "%B %d, %Y" (office (world st))).2 in
  let shown := omap (shown_path w1 screenshots) (all_posts results) in
  exists html inline_images,
    run (_build_html_body results screenshots) st
    = (Returned (html, inline_images),
       {| world := {| office := w1; journal := journal (world st) |};
          trace := trace st |})
    /\ inline_images.*2 = shown
    /\ inline_images.*1 = cid_of <$> seq 0 (length shown)
    /\ NoDup inline_images.*1.
Proof.
  intros w1 shown.
  destruct (build_html_body_run results screenshots st) as (html & Hrun & _).
  exists html, (number_from 0 shown). split; [exact Hrun|].
  split; [apply number_from_snd|]. split; [apply number_from_fst|].
  rewrite number_from_fst. apply NoDup_fmap_2; [|apply NoDup_seq].
  intros j k. apply cid_of_inj.
Qed.

(** X12.  The body holds, for every post of the results, its card: the
    category, the URL, the title and the snippet as they are, between the
    fixed pieces of markup; and for every inline image the tag that shows
    it by its Content-ID. *)
Theorem html_body_shows_posts (results : ResultSet) (screenshots : CaptureOutcome)
    (st : State (Desk World)) :
  exists html inline_images,
    (run (_build_html_body results screenshots) st).1 = Returned (html, inline_images)
    /\ (forall cat posts post,
          (cat, posts) ∈ results -> post ∈ posts ->
          Substring (card cat post) html)
    /\ (forall cid path,
          (cid, path) ∈ inline_images -> Substring (shot cid) html).
Proof.
  destruct (build_html_body_run results screenshots st)
    as (html & Hrun & Hcards & Hshots).
  eexists html, _. rewrite Hrun. split; [reflexivity|]. split; assumption.
Qed.

End WithWorld.

(** A run of [send_email] without a password. *)
Lemma send_email_needs_credentials_witness :
  let st := open_desk {| script := {| Scripted.env :=
                                        {[ "GMAIL_ADDRESS" := "monitor@example.com" ]};
                                      Scripted.replies := [];
                                      Scripted.answers := [] |};
                         files := ∅; locked := ∅; server := [] |} in
  sender_password (effective_email None st) = ""
  /\ exists msg,
       (msg = NO_CREDENTIALS \/ msg = "RECIPIENT_EMAIL not set.")
       /\ run (send_email Scripted.two_posts ∅ None) st
          = (Returned false,
             {| world := world st; trace := trace st ++ [Logged ERROR msg] |}).
Proof.
  cbv zeta. split; [reflexivity|].
  apply (send_email_needs_credentials (World := Site)).
  right; left. reflexivity.
Defined.

End MailTheorems.

(* ===================================================================== *)
(** ** The pipeline *)
(* ===================================================================== *)

Module MainFacts.
Import PyStr PyStrFacts Config Effects RunFacts Search Screenshot Spec Mail Main
  Notions KeepFacts MailFacts.

Section WithWorld.
Context {World : Type} `{Externals World} `{Office World}.
#[local] Existing Instance desk_externals.



(** *** The summary *)








(** *** The search and the capture on a desk *)





Lemma Forall_log_search (evs : list Event) : Forall is_log evs -> Forall search_event evs.
Proof. intros Hevs. eapply Forall_impl; [exact Hevs|]. now intros []. Qed.





Ltac parts :=
  repeat first [ rewrite Forall_app | rewrite Forall_cons | rewrite Forall_nil ];
  repeat split;
  first [ exact I | assumption | apply Forall_log_search; assumption ].



(** *** The run up to the search *)




(** *** What the summary shows *)




End WithWorld.
End MainFacts.

(* ===================================================================== *)
(** ** Theorems on the pipeline *)
(* ===================================================================== *)

Module MainTheorems.
Import PyStr PyStrFacts Config Effects RunFacts Search Screenshot Spec Mail Main
  Notions KeepFacts MailFacts MainFacts Bureau.

Section Batch.
Context {World : Type} `{Externals World}.

Lemma stops_ret {A} (a : A) : stops_at_import (World := World) (mret a).
Proof. intros st. exists []. rewrite run_ret, app_nil_r. split; [reflexivity | constructor]. Qed.

Lemma stops_log (lvl : Level) (msg : string) :
  stops_at_import (World := World) (log lvl msg).
Proof.
  intros st. exists [Logged lvl msg]. rewrite run_log.
  split; [reflexivity | repeat constructor].
Qed.

Lemma stops_bind {A B} (m : M A) (k : A -> M B) :
  stops_at_import (World := World) m ->
  (forall a, stops_at_import (World := World) (k a)) ->
  stops_at_import (World := World) (m ≫= k).
Proof.
  intros Hm Hk st. rewrite run_bind. destruct (Hm st) as (evs1 & Htr1 & Ho1).
  destruct (run m st) as [[a|e] st1]; cbn [fst snd] in *.
  - destruct (Hk a st1) as (evs2 & Htr2 & Ho2).
    exists (evs1 ++ evs2). rewrite Htr2, Htr1, <- List.app_assoc.
    split; [reflexivity|].
    destruct (run (k a) st1).1 as [b|e].
    + apply Forall_app. now split.
    + destruct Ho2 as (before & -> & Hbefore).
      exists (evs1 ++ before). rewrite <- List.app_assoc. split; [reflexivity|].
      apply Forall_app. now split.
  - exists evs1. split; [exact Htr1 | exact Ho1].
Qed.

Lemma stops_import : stops_at_import (World := World) (call ImportAsyncApi).
Proof.
  intros st. rewrite CaptureFacts.run_call. eexists [_]. split; [reflexivity|]. cbn [fst].
  destruct (playwright ImportAsyncApi (world st)).1 as [x|e].
  - repeat constructor.
  - exists []. split; [reflexivity | constructor].
Qed.

Lemma stops_guarded_capture (u output_path : string) (config : ScreenshotConfig) :
  stops_at_import (World := World) (guarded_capture u output_path config).
Proof.
  intros st.
  destruct (keeps_guarded_capture anywhere (fun _ => I) (fun _ _ _ _ _ => I)
              (fun _ _ => I) sound_import u output_path config
              (fun _ _ => I)) with (st := st) as (_ & evs & Htr & Hevs).
  { intros c o Hc. destruct c; try exact I. contradiction. }
  destruct (CaptureFacts.guarded_capture_run u output_path config st)
    as (b & st' & _ & Hrun & _).
  exists evs. split; [exact Htr|]. rewrite Hrun. exact Hevs.
Qed.

Lemma stops_capture_screenshot (u output_path : string) (config : ScreenshotConfig) :
  stops_at_import (World := World) (capture_screenshot u output_path config).
Proof.
  rewrite CaptureFacts.capture_screenshot_import.
  apply stops_bind; [apply stops_import | intros _; apply stops_guarded_capture].
Qed.

Lemma stops_capture_posts (posts : list SearchResult) (config : ScreenshotConfig)
    (screenshots : CaptureOutcome) (idx : nat) :
  stops_at_import (World := World) (capture_posts posts config screenshots idx).
Proof.
  revert screenshots idx; induction posts as [|post rest IH]; intros screenshots idx;
    [apply stops_ret|].
  cbn [capture_posts].
  apply stops_bind; [apply stops_capture_screenshot | intros success; apply IH].
Qed.

Lemma stops_capture_categories (results : ResultSet) (config : ScreenshotConfig)
    (screenshots : CaptureOutcome) (idx : nat) :
  stops_at_import (World := World) (capture_categories results config screenshots idx).
Proof.
  revert screenshots idx; induction results as [|[cat posts] rest IH];
    intros screenshots idx; [apply stops_ret|].
  cbn [capture_categories].
  apply stops_bind; [apply stops_capture_posts | intros [m i]; apply IH].
Qed.

(** X13.  The batch of captures raises exactly when the output directory
    cannot be created or the import of a capture raises.  When
    [os.makedirs] raises, the batch raises what it raised before any browser
    call.  Once the directory is there, the batch returns when no import
    raised, whatever else the captures do; and when it raises, it raises
    what an import raised, at once.  With Playwright installed it
    returns. *)
Theorem batch_raises_at_directory_or_import (results : ResultSet)
    (config : option ScreenshotConfig) (st : State World) :
  let cfg := effective_shots config in
  match (os_makedirs (output_dir cfg) (world st)).1 with
  | Raised e =>
      run (capture_all_screenshots results config) st
      = (Raised e,
         {| world := (os_makedirs (output_dir cfg) (world st)).2;
            trace := trace st ++ [MadeDirs (output_dir cfg)] |})
  | Returned _ =>
      exists evs,
        trace (run (capture_all_screenshots results config) st).2
        = trace st ++ MadeDirs (output_dir cfg) :: evs
        /\ match (run (capture_all_screenshots results config) st).1 with
           | Returned _ => Forall sound_import evs
           | Raised e =>
               exists before,
                 evs = before ++ [Drove ImportAsyncApi (Raised e)]
                 /\ Forall sound_import before
           end
        /\ (installed (World := World) ->
            exists screenshots,
              (run (capture_all_screenshots results config) st).1
              = Returned screenshots)
  end.
Proof.
  intros cfg.
  destruct (os_makedirs (output_dir cfg) (world st)) as [[[]|e] w1] eqn:Hdir;
    cbn [fst snd].
  - assert (Hrest : stops_at_import (World := World)
              ('(screenshots, _) ← capture_categories results cfg ∅ 0;
               log INFO ("Screenshots captured: "
                         +:+ pretty (captured_count screenshots) +:+ "/"
                         +:+ pretty (size screenshots) +:+ " posts");;
               mret screenshots)).
    { apply stops_bind; [apply stops_capture_categories | intros [m i]].
      apply stops_bind; [apply stops_log | intros _; apply stops_ret]. }
    destruct (Hrest {| world := w1; trace := trace st ++ [MadeDirs (output_dir cfg)] |})
      as (evs & Htr & Ho).
    assert (Hrun : run (capture_all_screenshots results config) st
                   = run ('(screenshots, _) ← capture_categories results cfg ∅ 0;
                          log INFO ("Screenshots captured: "
                                    +:+ pretty (captured_count screenshots) +:+ "/"
                                    +:+ pretty (size screenshots) +:+ " posts");;
                          mret screenshots)
                       {| world := w1;
                          trace := trace st ++ [MadeDirs (output_dir cfg)] |}).
    { unfold capture_all_screenshots. fold (effective_shots config). fold cfg.
      now rewrite run_bind, run_external, Hdir. }
    rewrite Hrun. exists evs. cbn [trace] in Htr.
    split; [now rewrite Htr, <- List.app_assoc|]. split; [exact Ho|].
    intros Hinst. rewrite <- Hrun.
    destruct (CaptureTheorems.capture_all_screenshots_run results config st w1 Hinst Hdir)
      as (st' & ->).
    eauto.
  - unfold capture_all_screenshots. fold (effective_shots config). fold cfg.
    now rewrite run_bind, run_external, Hdir.
Qed.

End Batch.

Section WithWorld.
Context {World : Type} `{Externals World} `{Office World}.
#[local] Existing Instance desk_externals.





End WithWorld.



(** A full run: one post is found and captured, its file is there and the
    server takes the digest.  No RECIPIENT_EMAIL is set, so the digest goes
    to the sender. *)
Example full_run_delivers :
  let st := open_desk
              {| script := {| Scripted.env := gmail_env;
                              Scripted.replies :=
                                [Scripted.found ["https://www.linkedin.com/posts/one?x=1"]];
                              Scripted.answers := [] |};
                 files := {[ "/srv/monitor/screenshots/post_001.png" := "PNG" ]};
                 locked := ∅;
                 server := [] |} in
  let args := {| categories := Some ["BESS"]; dry_run := false;
                 no_screenshots := false; max_results := 10;
                 time_filter_arg := "qdr:w" |} in
  let r := run (main_async args) st in
  r.1 = Returned 0%Z
  /\ exists msg html,
       Smtp (Sendmail "monitor@example.com" "monitor@example.com" msg) None
         ∈ journal (world r.2)
       /\ msg_parts msg
          = [MIMEText html "html";
             MIMEImage "PNG" "png" "<screenshot_0>" "post_001.png";
             MIMEBase "PNG" "post_001.png"]
       /\ contains "https://www.linkedin.com/posts/one" html = true
       /\ contains "cid:screenshot_0" html = true.
Proof.
  cbv zeta. split; [vm_compute; reflexivity|].
  eexists _, _. split; [vm_compute; repeat constructor|].
  split; [vm_compute; reflexivity|].
  split; vm_compute; reflexivity.
Qed.
End MainTheorems.
